(** * The multi-track MIDI timeline compiler of the audio-track editor

    A shallow embedding of
    [frontend/src/pages/AudiotrackManager/AudiotrackEditor.tsx]:
    the velocity quantizer [velocityToBin], the token encoder
    [midiMessageToToken], the live handler [midiMessageHandler], the
    record / drag handlers of the track list and the export handler that
    merges every track into one prompt.

    Conventions.  JavaScript numbers that the editor only adds, subtracts
    and compares (times in milliseconds, note numbers, velocities, array
    indices) are integers of [Z].  Where the code divides or raises to a
    power the operation is taken over the real numbers [R] and brought
    back to [Z] by [Math.floor], [Math.ceil] or [Math.round]; lemmas below
    give each such expression an integer form that computes. *)

From Stdlib Require Import ZArith List String Ascii Bool Lia Reals Lra.
From Stdlib Require Import DecimalString HexadecimalString.
From stdpp Require Import gmap.
Import ListNotations.

Local Open Scope Z_scope.

(** ** JavaScript primitives used by the editor *)

Module JS.

(** [Math.floor], [Math.ceil] and [Math.round] (round half up). *)
Definition Math_floor (x : R) : Z := Zfloor x.
Definition Math_ceil (x : R) : Z := Zceil x.
Definition Math_round (x : R) : Z := Zfloor (x + / 2).

(** [Math.pow] for a positive base. *)
Definition Math_pow (b e : R) : R := Rpower b e.

(** [Number.prototype.toString()] and [toString(16)] on an integer. *)
Definition toString (n : Z) : string :=
  DecimalString.NilEmpty.string_of_int (Z.to_int n).
Definition toString16 (n : Z) : string :=
  HexadecimalString.NilEmpty.string_of_int (Z.to_hex_int n).

(** White space removed by [String.prototype.trim] (the ASCII part). *)
Definition isWhiteSpace (c : ascii) : bool :=
  let n := nat_of_ascii c in
  ((9 <=? n)%nat && (n <=? 13)%nat) || (n =? 32)%nat.

Fixpoint trimStart (s : string) : string :=
  match s with
  | String c s' => if isWhiteSpace c then trimStart s' else s
  | EmptyString => EmptyString
  end.

Fixpoint trimEnd (s : string) : string :=
  match s with
  | String c s' =>
      match trimEnd s' with
      | EmptyString => if isWhiteSpace c then EmptyString else String c EmptyString
      | r => String c r
      end
  | EmptyString => EmptyString
  end.

Definition trim (s : string) : string := trimEnd (trimStart s).

(** [Array.prototype.join('')]. *)
Definition join (l : list string) : string :=
  fold_right String.append EmptyString l.

(** [Array.prototype.findIndex]: the first index whose element satisfies
    the predicate, [-1] when there is none. *)
Fixpoint findIndex {A} (p : A -> bool) (l : list A) : Z :=
  match l with
  | [] => -1
  | x :: l' =>
      if p x then 0
      else let r := findIndex p l' in if r <? 0 then -1 else r + 1
  end.

(** [arr.splice(start, 0, x)]: insertion of [x] at [start]; a negative
    [start] counts from the end, and the position is clamped to the
    array. *)
Definition splice_insert {A} (start : Z) (x : A) (l : list A) : list A :=
  let len := Z.of_nat (List.length l) in
  let pos := if start <? 0 then Z.max (len + start) 0 else Z.min start len in
  firstn (Z.to_nat pos) l ++ x :: skipn (Z.to_nat pos) l.

(** [Array.prototype.sort(cmp)].  The sort is stable; it is modelled by
    the stable insertion sort, the result any stable sort gives for a
    comparator that is a consistent order. *)
Fixpoint sort_insert {A} (cmp : A -> A -> Z) (x : A) (l : list A) : list A :=
  match l with
  | [] => [x]
  | y :: l' => if cmp x y <=? 0 then x :: l else y :: sort_insert cmp x l'
  end.

Definition sort {A} (cmp : A -> A -> Z) (l : list A) : list A :=
  fold_right (sort_insert cmp) [] l.

(** [Array.prototype.reduce((acc, current, i) => ..., init)]. *)
Fixpoint reduce_from {A B} (f : B -> A -> Z -> B) (i : Z) (l : list A) (acc : B) : B :=
  match l with
  | [] => acc
  | x :: l' => reduce_from f (i + 1) l' (f acc x i)
  end.

Definition reduce {A B} (f : B -> A -> Z -> B) (l : list A) (init : B) : B :=
  reduce_from f 0 l init.

(** [arr[i]] on an array of numbers, read where the index is in range. *)
Definition index (l : list Z) (i : Z) : Z :=
  if i <? 0 then 0 else nth (Z.to_nat i) l 0.

End JS.

(** *** Integer forms of the rounding primitives *)

Lemma Math_floor_quot (a b : Z) :
  0 < b -> JS.Math_floor (IZR a / IZR b) = a / b.
Proof.
  intros Hb. unfold JS.Math_floor. apply Zfloor_eq.
  assert (Hb' : (0 < IZR b)%R) by (apply IZR_lt; exact Hb).
  pose proof (Z.div_mod a b ltac:(lia)) as Hdm.
  pose proof (Z.mod_pos_bound a b Hb) as Hm.
  assert (Ha : IZR a = (IZR b * IZR (a / b) + IZR (a mod b))%R).
  { rewrite <- mult_IZR, <- plus_IZR. f_equal. exact Hdm. }
  assert (H0 : (0 <= IZR (a mod b))%R) by (apply IZR_le; lia).
  assert (H1 : (IZR (a mod b) < IZR b)%R) by (apply IZR_lt; lia).
  split.
  - apply Rmult_le_reg_r with (IZR b); [exact Hb'|].
    unfold Rdiv. rewrite Rmult_assoc, Rinv_l by lra. nra.
  - apply Rmult_lt_reg_r with (IZR b); [exact Hb'|].
    unfold Rdiv. rewrite Rmult_assoc, Rinv_l by lra. nra.
Qed.

Lemma Math_round_quot (a b : Z) :
  0 < b -> JS.Math_round (IZR a / IZR b) = (2 * a + b) / (2 * b).
Proof.
  intros Hb. unfold JS.Math_round.
  rewrite <- (Math_floor_quot (2 * a + b) (2 * b)) by lia.
  unfold JS.Math_floor. f_equal.
  assert (Hb' : (0 < IZR b)%R) by (apply IZR_lt; exact Hb).
  rewrite plus_IZR, !mult_IZR. field. lra.
Qed.

(** ** Velocity quantizer *)

Module Quantizer.

Definition velocityEvents : Z := 128.
Definition velocityBins : Z := 12.
Definition velocityExp : R := (1 / 2)%R.

(** [velocityToBin], lines 87-91. *)
Definition velocityToBin (velocity : Z) : Z :=
  let velocity := Z.max 0 (Z.min velocity (velocityEvents - 1)) in
  let binsize := (IZR velocityEvents / IZR (velocityBins - 1))%R in
  JS.Math_ceil
    ((IZR velocityEvents
      * ((JS.Math_pow velocityExp (IZR velocity / IZR velocityEvents) - 1)
         / (velocityExp - 1)))
     / binsize).

(** The clamped velocity and the real number whose ceiling is the bin. *)
Definition clampVelocity (velocity : Z) : Z :=
  Z.max 0 (Z.min velocity (velocityEvents - 1)).

Definition curve (v : Z) : R :=
  (22 * (1 - Rpower (1 / 2) (IZR v / 128)))%R.

(** An integer form of the quantizer: the velocities of every bin.  Bin 0
    holds velocity 0 alone. *)
Definition binTable : list (Z * (Z * Z)) :=
  [(1, (1, 8)); (2, (9, 17)); (3, (18, 27)); (4, (28, 37)); (5, (38, 47));
   (6, (48, 58)); (7, (59, 70)); (8, (71, 83)); (9, (84, 97));
   (10, (98, 111)); (11, (112, 127))].

Fixpoint lookupBin (table : list (Z * (Z * Z))) (v : Z) : Z :=
  match table with
  | [] => 0
  | (b, (lo, hi)) :: rest =>
      if (lo <=? v) && (v <=? hi) then b else lookupBin rest v
  end.

Definition velocityToBin_int (velocity : Z) : Z :=
  lookupBin binTable (clampVelocity velocity).

(** The check that makes the table right.  With [x = (1/2)^(v/128)] the
    bin is the ceiling of [22 * (1 - x)], and [x < p / q] holds exactly
    when [q^128 < 2^v * p^128].  For the bin [b] with velocities [lo..hi]
    the curve is above [b - 1 + 1/250] at [lo] and below [b - 1/250] at
    [hi]. *)
Definition sq (x : Z) : Z := x * x.
Definition pow128 (x : Z) : Z := sq (sq (sq (sq (sq (sq (sq x)))))).

Definition entryOk (q : Z) (e : Z * (Z * Z)) : bool :=
  let b := fst e in
  let lo := fst (snd e) in
  let hi := snd (snd e) in
  (q <? Z.shiftl (pow128 (5749 - 250 * b)) lo)
  && (Z.shiftl (pow128 (5501 - 250 * b)) hi <? q).

Definition entryRange (e : Z * (Z * Z)) : bool :=
  let b := fst e in
  let lo := fst (snd e) in
  let hi := snd (snd e) in
  (1 <=? b) && (b <=? 11) && (1 <=? lo) && (lo <=? hi) && (hi <=? 127).

Definition velocities : list Z := map Z.of_nat (seq 1 127).

Lemma velocityToBin_curve (velocity : Z) :
  velocityToBin velocity = Zceil (curve (clampVelocity velocity)).
Proof.
  unfold velocityToBin, curve, clampVelocity, JS.Math_ceil, JS.Math_pow,
    velocityExp, velocityEvents, velocityBins.
  f_equal. change (12 - 1) with 11. change (128 - 1) with 127.
  set (x := Rpower _ _). field.
Qed.

Lemma pow_lt_iff (a b : R) (n : nat) :
  (0 < a)%R -> (0 < b)%R -> ((a < b)%R <-> (a ^ S n < b ^ S n)%R).
Proof.
  intros Ha Hb. split.
  - intros Hab. rewrite <- !Rpower_pow by assumption.
    apply Rlt_Rpower_l; [|lra]. apply lt_0_INR. lia.
  - intros Hp. destruct (Rlt_le_dec a b) as [Hlt|Hle]; [exact Hlt|].
    exfalso. pose proof (pow_incr b a (S n) ltac:(lra)). lra.
Qed.

Lemma half_power_pow (v : Z) :
  0 <= v ->
  (Rpower (1 / 2) (IZR v / 128) ^ 128 = (1 / 2) ^ Z.to_nat v)%R.
Proof.
  intros Hv.
  rewrite <- (Rpower_pow 128) by apply exp_pos.
  rewrite Rpower_mult.
  replace (IZR v / 128 * INR 128)%R with (INR (Z.to_nat v)).
  - apply Rpower_pow. lra.
  - rewrite INR_IZR_INZ, Z2Nat.id by exact Hv.
    rewrite INR_IZR_INZ. simpl (Z.of_nat 128). field.
Qed.

Lemma half_pow_two (n : nat) : ((1 / 2) ^ n * 2 ^ n = 1)%R.
Proof.
  rewrite <- Rpow_mult_distr.
  replace (1 / 2 * 2)%R with 1%R by field. apply pow1.
Qed.

(** Comparison of [(1/2)^(v/128)] with a positive fraction [p/q], in
    integers. *)
Lemma half_power_lt_frac (v p q : Z) :
  0 <= v -> 0 < p -> 0 < q ->
  ((Rpower (1 / 2) (IZR v / 128) < IZR p / IZR q)%R
   <-> q ^ 128 < 2 ^ v * p ^ 128).
Proof.
  intros Hv Hp Hq.
  assert (Hp' : (0 < IZR p)%R) by (apply IZR_lt; exact Hp).
  assert (Hq' : (0 < IZR q)%R) by (apply IZR_lt; exact Hq).
  assert (Hx : (0 < Rpower (1 / 2) (IZR v / 128))%R) by apply exp_pos.
  assert (Hc : (0 < IZR p / IZR q)%R) by (apply Rdiv_lt_0_compat; assumption).
  rewrite (pow_lt_iff _ _ 127 Hx Hc).
  change (S 127) with 128%nat.
  rewrite half_power_pow by exact Hv.
  set (n := Z.to_nat v).
  assert (H2n : (0 < 2 ^ n)%R) by (apply pow_lt; lra).
  assert (Hqn : (0 < IZR q ^ 128)%R) by (apply pow_lt; exact Hq').
  assert (Hz : 2 ^ v * p ^ 128 = 2 ^ Z.of_nat n * p ^ Z.of_nat 128).
  { unfold n. rewrite Z2Nat.id by exact Hv. reflexivity. }
  assert (Hq128 : q ^ 128 = q ^ Z.of_nat 128) by reflexivity.
  rewrite Hz, Hq128.
  assert (Heq : ((IZR p / IZR q) ^ 128 = IZR p ^ 128 / IZR q ^ 128)%R).
  { unfold Rdiv. rewrite Rpow_mult_distr, pow_inv. reflexivity. }
  rewrite Heq.
  pose proof (half_pow_two n) as Hh.
  split.
  - intros H. apply lt_IZR. rewrite mult_IZR, <- !pow_IZR.
    apply Rmult_lt_compat_r with (r := (2 ^ n * IZR q ^ 128)%R) in H;
      [|apply Rmult_lt_0_compat; assumption].
    replace ((1 / 2) ^ n * (2 ^ n * IZR q ^ 128))%R
      with ((1 / 2) ^ n * 2 ^ n * IZR q ^ 128)%R in H by ring.
    rewrite Hh in H.
    replace (IZR p ^ 128 / IZR q ^ 128 * (2 ^ n * IZR q ^ 128))%R
      with (2 ^ n * IZR p ^ 128)%R in H by (field; lra).
    lra.
  - intros H. apply IZR_lt in H. rewrite mult_IZR, <- !pow_IZR in H.
    apply Rmult_lt_reg_r with (r := (2 ^ n * IZR q ^ 128)%R);
      [apply Rmult_lt_0_compat; assumption|].
    replace ((1 / 2) ^ n * (2 ^ n * IZR q ^ 128))%R
      with ((1 / 2) ^ n * 2 ^ n * IZR q ^ 128)%R by ring.
    rewrite Hh.
    replace (IZR p ^ 128 / IZR q ^ 128 * (2 ^ n * IZR q ^ 128))%R
      with (2 ^ n * IZR p ^ 128)%R by (field; lra).
    lra.
Qed.

Lemma half_power_le_1 (t : R) : (0 <= t)%R -> (Rpower (1 / 2) t <= 1)%R.
Proof.
  intros Ht.
  replace 1%R with (Rpower 1 t) at 2.
  - apply Rle_Rpower_l; [exact Ht|lra].
  - unfold Rpower. rewrite ln_1, Rmult_0_r. apply exp_0.
Qed.

Lemma half_power_as_two (t : R) : Rpower (1 / 2) t = Rpower 2 (- t).
Proof.
  unfold Rpower. f_equal.
  replace (1 / 2)%R with (/ 2)%R by lra.
  rewrite ln_Rinv by lra. ring.
Qed.

Lemma curve_nonneg (v : Z) : 0 <= v -> (0 <= curve v)%R.
Proof.
  intros Hv. unfold curve.
  assert (H : (Rpower (1 / 2) (IZR v / 128) <= 1)%R).
  { apply half_power_le_1. apply IZR_le in Hv. lra. }
  lra.
Qed.

Lemma curve_mono (v1 v2 : Z) : v1 <= v2 -> (curve v1 <= curve v2)%R.
Proof.
  intros H. unfold curve. rewrite !half_power_as_two.
  assert (Hp : (Rpower 2 (- (IZR v2 / 128)) <= Rpower 2 (- (IZR v1 / 128)))%R).
  { apply Rle_Rpower; [lra|]. apply IZR_le in H. lra. }
  lra.
Qed.

Lemma half_power_gt_frac (v p q : Z) :
  0 <= v -> 0 < p -> 0 < q ->
  ((IZR p / IZR q < Rpower (1 / 2) (IZR v / 128))%R
   <-> 2 ^ v * p ^ 128 < q ^ 128).
Proof.
  intros Hv Hp Hq.
  assert (Hp' : (0 < IZR p)%R) by (apply IZR_lt; exact Hp).
  assert (Hq' : (0 < IZR q)%R) by (apply IZR_lt; exact Hq).
  assert (Hx : (0 < Rpower (1 / 2) (IZR v / 128))%R) by apply exp_pos.
  assert (Hc : (0 < IZR p / IZR q)%R) by (apply Rdiv_lt_0_compat; assumption).
  rewrite (pow_lt_iff _ _ 127 Hc Hx).
  change (S 127) with 128%nat.
  rewrite half_power_pow by exact Hv.
  set (n := Z.to_nat v).
  assert (H2n : (0 < 2 ^ n)%R) by (apply pow_lt; lra).
  assert (Hqn : (0 < IZR q ^ 128)%R) by (apply pow_lt; exact Hq').
  assert (Hz : 2 ^ v * p ^ 128 = 2 ^ Z.of_nat n * p ^ Z.of_nat 128).
  { unfold n. rewrite Z2Nat.id by exact Hv. reflexivity. }
  assert (Hq128 : q ^ 128 = q ^ Z.of_nat 128) by reflexivity.
  rewrite Hz, Hq128.
  assert (Heq : ((IZR p / IZR q) ^ 128 = IZR p ^ 128 / IZR q ^ 128)%R).
  { unfold Rdiv. rewrite Rpow_mult_distr, pow_inv. reflexivity. }
  rewrite Heq.
  pose proof (half_pow_two n) as Hh.
  assert (Hl : (IZR p ^ 128 / IZR q ^ 128 * (2 ^ n * IZR q ^ 128)
                = 2 ^ n * IZR p ^ 128)%R) by (field; lra).
  assert (Hr : ((1 / 2) ^ n * (2 ^ n * IZR q ^ 128) = IZR q ^ 128)%R).
  { replace ((1 / 2) ^ n * (2 ^ n * IZR q ^ 128))%R
      with ((1 / 2) ^ n * 2 ^ n * IZR q ^ 128)%R by ring.
    rewrite Hh. ring. }
  split.
  - intros H. apply lt_IZR. rewrite mult_IZR, <- !pow_IZR.
    apply Rmult_lt_compat_r with (r := (2 ^ n * IZR q ^ 128)%R) in H;
      [|apply Rmult_lt_0_compat; assumption].
    rewrite Hl, Hr in H. exact H.
  - intros H. apply IZR_lt in H. rewrite mult_IZR, <- !pow_IZR in H.
    apply Rmult_lt_reg_r with (r := (2 ^ n * IZR q ^ 128)%R);
      [apply Rmult_lt_0_compat; assumption|].
    rewrite Hl, Hr. exact H.
Qed.

Lemma pow128_pow (x : Z) : pow128 x = x ^ 128.
Proof.
  unfold pow128, sq. rewrite <- !Z.pow_2_r.
  rewrite <- !Z.pow_mul_r by lia. reflexivity.
Qed.

Lemma curve_zero : curve 0 = 0%R.
Proof.
  unfold curve. replace (IZR 0 / 128)%R with 0%R by (simpl; lra).
  rewrite Rpower_O by lra. ring.
Qed.

Lemma curve_above (v b : Z) :
  0 <= v -> 0 < 5749 - 250 * b ->
  pow128 5500 < Z.shiftl (pow128 (5749 - 250 * b)) v ->
  (IZR b - 1 + 1 / 250 < curve v)%R.
Proof.
  intros Hv Hp. rewrite Z.shiftl_mul_pow2 by exact Hv.
  rewrite !pow128_pow, Z.mul_comm. intros H.
  apply (half_power_lt_frac v (5749 - 250 * b) 5500 Hv Hp eq_refl) in H.
  rewrite minus_IZR, mult_IZR in H.
  unfold curve. set (x := Rpower _ _) in *.
  apply Rmult_lt_compat_r with (r := 5500%R) in H; [|lra].
  unfold Rdiv in H. rewrite Rmult_assoc, Rinv_l in H by lra. lra.
Qed.

Lemma curve_below (v b : Z) :
  0 <= v -> 0 < 5501 - 250 * b ->
  Z.shiftl (pow128 (5501 - 250 * b)) v < pow128 5500 ->
  (curve v < IZR b - 1 / 250)%R.
Proof.
  intros Hv Hp. rewrite Z.shiftl_mul_pow2 by exact Hv.
  rewrite !pow128_pow, Z.mul_comm. intros H.
  apply (half_power_gt_frac v (5501 - 250 * b) 5500 Hv Hp eq_refl) in H.
  rewrite minus_IZR, mult_IZR in H.
  unfold curve. set (x := Rpower _ _) in *.
  apply Rmult_lt_compat_r with (r := 5500%R) in H; [|lra].
  unfold Rdiv in H. rewrite Rmult_assoc, Rinv_l in H by lra. lra.
Qed.

Lemma binTable_ok : forallb (entryOk (pow128 5500)) binTable = true.
Proof. vm_compute. reflexivity. Qed.

Lemma binTable_range : forallb entryRange binTable = true.
Proof. reflexivity. Qed.

Lemma binTable_covers :
  forallb (fun v => negb (lookupBin binTable v =? 0)) velocities = true.
Proof. vm_compute. reflexivity. Qed.

(** The margins of a bin, at its first and last velocity. *)
Lemma binTable_entry (b lo hi : Z) :
  In (b, (lo, hi)) binTable ->
  1 <= b <= 11 /\ 1 <= lo <= hi /\ hi <= 127
  /\ (IZR b - 1 + 1 / 250 < curve lo)%R
  /\ (curve hi < IZR b - 1 / 250)%R.
Proof.
  intros Hin.
  pose proof binTable_range as Hr. rewrite forallb_forall in Hr.
  specialize (Hr _ Hin). unfold entryRange in Hr. simpl in Hr.
  rewrite !andb_true_iff in Hr.
  destruct Hr as [[[[Hb1 Hb2] Hlo] Hlh] Hhi].
  apply Z.leb_le in Hb1, Hb2, Hlo, Hlh, Hhi.
  assert (Hp1 : 0 < 5749 - 250 * b) by lia.
  assert (Hp2 : 0 < 5501 - 250 * b) by lia.
  assert (Hlo0 : 0 <= lo) by lia.
  assert (Hhi0 : 0 <= hi) by lia.
  split; [lia|]. split; [lia|]. split; [lia|].
  clear Hb1 Hb2 Hlo Hlh Hhi.
  pose proof binTable_ok as Hok. rewrite forallb_forall in Hok.
  specialize (Hok _ Hin). unfold entryOk in Hok. cbn [fst snd] in Hok.
  apply andb_true_iff in Hok. destruct Hok as [Hl Hh].
  apply Z.ltb_lt in Hl. apply Z.ltb_lt in Hh.
  split.
  - exact (curve_above lo b Hlo0 Hp1 Hl).
  - exact (curve_below hi b Hhi0 Hp2 Hh).
Qed.

Lemma lookupBin_found (table : list (Z * (Z * Z))) (v : Z) :
  lookupBin table v <> 0 ->
  exists lo hi, In (lookupBin table v, (lo, hi)) table /\ lo <= v <= hi.
Proof.
  induction table as [|[b [lo hi]] rest IH]; simpl; [congruence|].
  destruct (Z.leb_spec lo v) as [Hlo|Hlo];
    destruct (Z.leb_spec v hi) as [Hhi|Hhi]; simpl.
  - intros _. exists lo, hi. split; [left; reflexivity|lia].
  - intros Hb. destruct (IH Hb) as [lo' [hi' [Hin Hv]]]. exists lo', hi'. tauto.
  - intros Hb. destruct (IH Hb) as [lo' [hi' [Hin Hv]]]. exists lo', hi'. tauto.
  - intros Hb. destruct (IH Hb) as [lo' [hi' [Hin Hv]]]. exists lo', hi'. tauto.
Qed.

Lemma lookupBin_entry (v : Z) :
  1 <= v <= 127 ->
  exists lo hi, In (lookupBin binTable v, (lo, hi)) binTable /\ lo <= v <= hi.
Proof.
  intros Hv. apply lookupBin_found.
  assert (Hin : In v velocities).
  { unfold velocities. apply in_map_iff. exists (Z.to_nat v).
    split; [lia|]. apply in_seq. lia. }
  pose proof binTable_covers as Hc. rewrite forallb_forall in Hc.
  specialize (Hc v Hin). apply negb_true_iff, Z.eqb_neq in Hc. exact Hc.
Qed.

Lemma clampVelocity_range (velocity : Z) : 0 <= clampVelocity velocity <= 127.
Proof. unfold clampVelocity, velocityEvents. lia. Qed.

(** *** Distance of the curve from the integers

    The source evaluates the curve in floating point.  For every
    velocity from 1 to 127 the exact value lies more than [1/250] away
    from the nearest integers (and at velocity 0 it is exactly 0), far
    more than the error of the floating-point evaluation, so the ceiling
    taken there is the one taken here. *)
Lemma curve_margin (v : Z) :
  1 <= v <= 127 ->
  1 <= lookupBin binTable v <= 11
  /\ (IZR (lookupBin binTable v) - 1 + 1 / 250 < curve v
      < IZR (lookupBin binTable v) - 1 / 250)%R.
Proof.
  intros Hv. destruct (lookupBin_entry v Hv) as [lo [hi [Hin Hlh]]].
  destruct (binTable_entry _ lo hi Hin) as [Hb [_ [_ [Hlow Hhigh]]]].
  pose proof (curve_mono lo v ltac:(lia)).
  pose proof (curve_mono v hi ltac:(lia)).
  split; [exact Hb|]. lra.
Qed.

Lemma velocityToBin_int_spec (velocity : Z) :
  (IZR (velocityToBin_int velocity) - 1 < curve (clampVelocity velocity)
   <= IZR (velocityToBin_int velocity))%R
  /\ 0 <= velocityToBin_int velocity <= 11.
Proof.
  unfold velocityToBin_int.
  pose proof (clampVelocity_range velocity) as Hc.
  destruct (Z.eq_dec (clampVelocity velocity) 0) as [->|Hne].
  - rewrite curve_zero. simpl. split; [lra|lia].
  - destruct (curve_margin (clampVelocity velocity) ltac:(lia)) as [Hb Hm].
    split; [lra|lia].
Qed.

(** The quantizer of the source and its integer form agree everywhere. *)
Lemma velocityToBin_int_eq (velocity : Z) :
  velocityToBin velocity = velocityToBin_int velocity.
Proof.
  rewrite velocityToBin_curve. apply Zceil_eq.
  apply velocityToBin_int_spec.
Qed.

Lemma velocityToBin_clamp (velocity : Z) :
  velocityToBin velocity = velocityToBin (clampVelocity velocity).
Proof.
  rewrite !velocityToBin_curve. f_equal. f_equal.
  unfold clampVelocity, velocityEvents. lia.
Qed.

Lemma velocityToBin_le (v1 v2 : Z) :
  v1 <= v2 -> velocityToBin v1 <= velocityToBin v2.
Proof.
  intros H. rewrite !velocityToBin_curve.
  apply Zceil_le, curve_mono. unfold clampVelocity. lia.
Qed.

End Quantizer.

(** ** Data model *)

(** The types of [types/composition] that the editor imports.  That file
    is not among the sources at hand: the records below list the fields
    the editor reads and writes. *)
Module Composition.

Inductive MessageType := NoteOff | NoteOn | ElapsedTime | ControlChange.

(** A MIDI message.  [instrument] is the field [midiMessageHandler] adds
    to a recorded message. *)
Record MidiMessage := mkMidiMessage {
  messageType : MessageType;
  note : Z;
  velocity : Z;
  value : Z;
  instrument : Z
}.

Record Track := mkTrack {
  id : string;
  mainInstrument : string;
  content : string;
  rawContent : list MidiMessage;
  offsetTime : Z;
  contentTime : Z
}.

(** The fields of the global [commonStore] that the editor uses. *)
Record CommonStore := mkCommonStore {
  tracks : list Track;
  trackTotalTime : Z;
  recordingTrackId : string;
  playingTrackId : string;
  recordingContent : string;
  recordingRawContent : list MidiMessage;
  instrumentType : Z;
  activeMidiDeviceIndex : Z;
  compositionSubmittedPrompt : string
}.

Definition setTracks (v : list Track) (s : CommonStore) : CommonStore :=
  mkCommonStore v (trackTotalTime s) (recordingTrackId s) (playingTrackId s)
    (recordingContent s) (recordingRawContent s) (instrumentType s)
    (activeMidiDeviceIndex s) (compositionSubmittedPrompt s).

Definition setTrackTotalTime (v : Z) (s : CommonStore) : CommonStore :=
  mkCommonStore (tracks s) v (recordingTrackId s) (playingTrackId s)
    (recordingContent s) (recordingRawContent s) (instrumentType s)
    (activeMidiDeviceIndex s) (compositionSubmittedPrompt s).

Definition setRecordingTrackId (v : string) (s : CommonStore) : CommonStore :=
  mkCommonStore (tracks s) (trackTotalTime s) v (playingTrackId s)
    (recordingContent s) (recordingRawContent s) (instrumentType s)
    (activeMidiDeviceIndex s) (compositionSubmittedPrompt s).

Definition setPlayingTrackId (v : string) (s : CommonStore) : CommonStore :=
  mkCommonStore (tracks s) (trackTotalTime s) (recordingTrackId s) v
    (recordingContent s) (recordingRawContent s) (instrumentType s)
    (activeMidiDeviceIndex s) (compositionSubmittedPrompt s).

Definition setRecordingContent (v : string) (s : CommonStore) : CommonStore :=
  mkCommonStore (tracks s) (trackTotalTime s) (recordingTrackId s)
    (playingTrackId s) v (recordingRawContent s) (instrumentType s)
    (activeMidiDeviceIndex s) (compositionSubmittedPrompt s).

Definition setRecordingRawContent (v : list MidiMessage) (s : CommonStore)
  : CommonStore :=
  mkCommonStore (tracks s) (trackTotalTime s) (recordingTrackId s)
    (playingTrackId s) (recordingContent s) v (instrumentType s)
    (activeMidiDeviceIndex s) (compositionSubmittedPrompt s).

Definition setInstrumentType (v : Z) (s : CommonStore) : CommonStore :=
  mkCommonStore (tracks s) (trackTotalTime s) (recordingTrackId s)
    (playingTrackId s) (recordingContent s) (recordingRawContent s) v
    (activeMidiDeviceIndex s) (compositionSubmittedPrompt s).

Definition setCompositionSubmittedPrompt (v : string) (s : CommonStore)
  : CommonStore :=
  mkCommonStore (tracks s) (trackTotalTime s) (recordingTrackId s)
    (playingTrackId s) (recordingContent s) (recordingRawContent s)
    (instrumentType s) (activeMidiDeviceIndex s) v.

(** Spread updates of a message and of a track. *)
Definition withInstrument (i : Z) (m : MidiMessage) : MidiMessage :=
  mkMidiMessage (messageType m) (note m) (velocity m) (value m) i.

Definition withVelocity (v : Z) (m : MidiMessage) : MidiMessage :=
  mkMidiMessage (messageType m) (note m) v (value m) (instrument m).

Definition withNote (n : Z) (m : MidiMessage) : MidiMessage :=
  mkMidiMessage (messageType m) n (velocity m) (value m) (instrument m).

Definition withOffsetTime (o : Z) (t : Track) : Track :=
  mkTrack (id t) (mainInstrument t) (content t) (rawContent t) o (contentTime t).

(** The literal [{ messageType: 'ElapsedTime', value: v }]; the fields it
    leaves out are never read on such a message and are set to [0]. *)
Definition elapsed (v : Z) : MidiMessage := mkMidiMessage ElapsedTime 0 0 v 0.

Definition isNote (m : MidiMessage) : bool :=
  match messageType m with
  | NoteOn | NoteOff => true
  | _ => false
  end.

End Composition.

(** ** Token encoder *)

Module Encoder.
Import Composition Quantizer.

Definition minimalMoveTime : Z := 8.

Section WithTokenMap.

(** The table [InstrumentTypeTokenMap] of [types/composition] is
    configuration: it is a parameter of the encoder. *)
Variable InstrumentTypeTokenMap : list string.

(** [InstrumentTypeTokenMap[i]] inside a template literal: an index
    outside the table reads [undefined]. *)
Definition instrumentToken (i : Z) : string :=
  if i <? 0 then "undefined"%string
  else nth (Z.to_nat i) InstrumentTypeTokenMap "undefined"%string.

(** The loop [for (let i = 0; i < num; i++) ret += 't125 ']. *)
Definition appendMaxWaits (num : Z) (ret : string) : string :=
  Nat.iter (Z.to_nat num) (fun ret => (ret ++ "t125 ")%string) ret.

(** [midiMessageToToken], lines 93-112.  The instrument is read from the
    global store, not from the message. *)
Definition midiMessageToToken (commonStore : CommonStore) (msg : MidiMessage)
  : string :=
  match messageType msg with
  | NoteOn | NoteOff =>
      let instrument := instrumentToken (instrumentType commonStore) in
      let note := JS.toString16 (note msg) in
      let velocity := JS.toString16 (velocityToBin (velocity msg)) in
      (instrument ++ ":" ++ note ++ ":" ++ velocity ++ " ")%string
  | ElapsedTime =>
      let time := JS.Math_round (IZR (value msg) / IZR minimalMoveTime) in
      let num := JS.Math_floor (IZR time / 125) in
      let time := time - num * 125 in
      let ret := appendMaxWaits num ""%string in
      if 0 <? time
      then (ret ++ "t" ++ JS.toString time ++ " ")%string
      else ret
  | ControlChange => ""%string
  end.

(** An integer form of the encoder that computes. *)
Definition midiMessageToToken_int (commonStore : CommonStore) (msg : MidiMessage)
  : string :=
  match messageType msg with
  | NoteOn | NoteOff =>
      (instrumentToken (instrumentType commonStore) ++ ":"
       ++ JS.toString16 (note msg) ++ ":"
       ++ JS.toString16 (velocityToBin_int (velocity msg)) ++ " ")%string
  | ElapsedTime =>
      let time := (2 * value msg + 8) / 16 in
      let num := time / 125 in
      let time := time - num * 125 in
      let ret := appendMaxWaits num ""%string in
      if 0 <? time
      then (ret ++ "t" ++ JS.toString time ++ " ")%string
      else ret
  | ControlChange => ""%string
  end.

Lemma midiMessageToToken_int_eq (commonStore : CommonStore) (msg : MidiMessage) :
  midiMessageToToken commonStore msg = midiMessageToToken_int commonStore msg.
Proof.
  unfold midiMessageToToken, midiMessageToToken_int, minimalMoveTime.
  destruct (messageType msg); try reflexivity.
  - rewrite velocityToBin_int_eq. reflexivity.
  - rewrite velocityToBin_int_eq. reflexivity.
  - rewrite Math_round_quot by lia.
    rewrite (Math_floor_quot _ 125) by lia. reflexivity.
Qed.

End WithTokenMap.

End Encoder.

(** ** Timeline merger *)

(** The body of the export handler, lines 464-497, as a function of the
    track list.  Each [for] loop with mutable locals is a recursion that
    carries the locals. *)
Module Merger.
Import Composition.

(** Lines 468-474: the inner loop of the first pass. *)
Fixpoint pushElapsed (offset accContentTime : Z) (msgs : list MidiMessage)
  (timestamp : list Z) : list Z :=
  match msgs with
  | [] => timestamp
  | msg :: rest =>
      match messageType msg with
      | ElapsedTime =>
          let accContentTime := accContentTime + value msg in
          pushElapsed offset accContentTime rest
            (timestamp ++ [offset + accContentTime])
      | _ => pushElapsed offset accContentTime rest timestamp
      end
  end.

(** Lines 466-475: the first pass over the sorted tracks. *)
Fixpoint collectTimestamps (sortedTracks : list Track) (timestamp : list Z)
  : list Z :=
  match sortedTracks with
  | [] => timestamp
  | track :: rest =>
      let timestamp := timestamp ++ [offsetTime track] in
      collectTimestamps rest
        (pushElapsed (offsetTime track) 0 (rawContent track) timestamp)
  end.

(** Line 465. *)
Definition sortTracks (tracks : list Track) : list Track :=
  JS.sort (fun a b => offsetTime a - offsetTime b) tracks.

(** Line 476. *)
Definition sortTimestamps (timestamp : list Z) : list Z :=
  JS.sort (fun a b => a - b) timestamp.

(** Lines 477-482: one [ElapsedTime] message per timestamp, holding the
    distance to the timestamp before it. *)
Definition skeleton (sortedTimestamp : list Z) : list MidiMessage :=
  JS.reduce
    (fun messages current i =>
       messages
       ++ [elapsed (current
                    - (if i =? 0 then 0 else JS.index sortedTimestamp (i - 1)))])
    sortedTimestamp [].

(** Lines 486-495: the inner loop of the second pass. *)
Fixpoint insertNotes (offset currentTime accContentTime : Z)
  (msgs : list MidiMessage) (globalMessages : list MidiMessage)
  (sortedTimestamp : list Z) : list MidiMessage * list Z :=
  match msgs with
  | [] => (globalMessages, sortedTimestamp)
  | msg :: rest =>
      match messageType msg with
      | ElapsedTime =>
          let accContentTime := accContentTime + value msg in
          insertNotes offset (offset + accContentTime) accContentTime rest
            globalMessages sortedTimestamp
      | NoteOn | NoteOff =>
          let insertIndex :=
            JS.findIndex (fun t => currentTime <=? t) sortedTimestamp in
          insertNotes offset currentTime accContentTime rest
            (JS.splice_insert (insertIndex + 1) msg globalMessages)
            (JS.splice_insert (insertIndex + 1) 0 sortedTimestamp)
      | ControlChange =>
          insertNotes offset currentTime accContentTime rest
            globalMessages sortedTimestamp
      end
  end.

(** Lines 483-496: the second pass over the sorted tracks. *)
Fixpoint insertAllNotes (sortedTracks : list Track)
  (globalMessages : list MidiMessage) (sortedTimestamp : list Z)
  : list MidiMessage * list Z :=
  match sortedTracks with
  | [] => (globalMessages, sortedTimestamp)
  | track :: rest =>
      let '(globalMessages, sortedTimestamp) :=
        insertNotes (offsetTime track) (offsetTime track) 0 (rawContent track)
          globalMessages sortedTimestamp in
      insertAllNotes rest globalMessages sortedTimestamp
  end.

(** Lines 464-496: the merged message list. *)
Definition mergeTracks (tracks : list Track) : list MidiMessage :=
  let sortedTracks := sortTracks tracks in
  let timestamp := collectTimestamps sortedTracks [] in
  let sortedTimestamp := sortTimestamps timestamp in
  let globalMessages := skeleton sortedTimestamp in
  fst (insertAllNotes sortedTracks globalMessages sortedTimestamp).

Section WithTokenMap.
Variable InstrumentTypeTokenMap : list string.

(** Line 497: the prompt. *)
Definition mergeResult (commonStore : CommonStore) : string :=
  JS.trim
    ("<pad> "
     ++ JS.join
          (map (Encoder.midiMessageToToken InstrumentTypeTokenMap commonStore)
             (mergeTracks (tracks commonStore))))%string.

(** The same prompt through the integer form of the encoder. *)
Definition mergeResult_int (commonStore : CommonStore) : string :=
  JS.trim
    ("<pad> "
     ++ JS.join
          (map (Encoder.midiMessageToToken_int InstrumentTypeTokenMap commonStore)
             (mergeTracks (tracks commonStore))))%string.

Lemma mergeResult_int_eq (commonStore : CommonStore) :
  mergeResult commonStore = mergeResult_int commonStore.
Proof.
  unfold mergeResult, mergeResult_int. do 3 f_equal.
  apply map_ext. intros m. apply Encoder.midiMessageToToken_int_eq.
Qed.

End WithTokenMap.

End Merger.

(** ** Facts about the array primitives *)

Module JSFacts.

(** Insertion of [x] right after the first element that satisfies [p]. *)
Fixpoint insertAfterFirst {A} (p : A -> bool) (x : A) (l : list A) : list A :=
  match l with
  | [] => [x]
  | y :: l' => if p y then y :: x :: l' else y :: insertAfterFirst p x l'
  end.

Lemma findIndex_range {A} (p : A -> bool) (l : list A) :
  -1 <= JS.findIndex p l < Z.of_nat (length l).
Proof.
  induction l as [|x l IH]; simpl; [lia|].
  destruct (p x); [lia|].
  destruct (JS.findIndex p l <? 0) eqn:E; lia.
Qed.

Lemma findIndex_map {A B} (f : A -> B) (p : B -> bool) (l : list A) :
  JS.findIndex p (map f l) = JS.findIndex (fun x => p (f x)) l.
Proof.
  induction l as [|x l IH]; simpl; [reflexivity|].
  rewrite IH. reflexivity.
Qed.

Lemma findIndex_found {A} (p : A -> bool) (l : list A) (x : A) :
  In x l -> p x = true -> 0 <= JS.findIndex p l.
Proof.
  induction l as [|y l IH]; simpl; [tauto|].
  intros [->|Hin] Hp.
  - rewrite Hp. lia.
  - destruct (p y); [lia|]. specialize (IH Hin Hp).
    destruct (JS.findIndex p l <? 0) eqn:E; lia.
Qed.

Lemma splice_insert_cons {A} (i : Z) (x y : A) (l : list A) :
  0 <= i -> JS.splice_insert (i + 1) x (y :: l) = y :: JS.splice_insert i x l.
Proof.
  intros Hi. unfold JS.splice_insert.
  assert (E1 : (i + 1 <? 0) = false) by lia.
  assert (E2 : (i <? 0) = false) by lia.
  rewrite E1, E2.
  replace (Z.to_nat (Z.min (i + 1) (Z.of_nat (length (y :: l)))))
    with (S (Z.to_nat (Z.min i (Z.of_nat (length l)))))
    by (simpl length; lia).
  reflexivity.
Qed.

Lemma splice_insert_map {A B} (f : A -> B) (i : Z) (x : A) (l : list A) :
  map f (JS.splice_insert i x l) = JS.splice_insert i (f x) (map f l).
Proof.
  unfold JS.splice_insert.
  rewrite map_app, length_map. simpl.
  rewrite <- firstn_map, <- skipn_map. reflexivity.
Qed.

Lemma splice_after_first {A} (p : A -> bool) (x : A) (l : list A) :
  0 <= JS.findIndex p l ->
  JS.splice_insert (JS.findIndex p l + 1) x l = insertAfterFirst p x l.
Proof.
  induction l as [|y l IH]; simpl; [lia|].
  destruct (p y) eqn:Hp.
  - intros _. rewrite splice_insert_cons by lia.
    unfold JS.splice_insert. simpl.
    replace (Z.to_nat (Z.min 0 (Z.of_nat (length l)))) with O by lia.
    reflexivity.
  - destruct (JS.findIndex p l <? 0) eqn:E; [lia|].
    intros _. rewrite splice_insert_cons by lia.
    rewrite IH by lia. reflexivity.
Qed.

Lemma insertAfterFirst_skip {A} (p : A -> bool) (x : A) (l1 l2 : list A) :
  (forall y, In y l1 -> p y = false) ->
  insertAfterFirst p x (l1 ++ l2) = l1 ++ insertAfterFirst p x l2.
Proof.
  induction l1 as [|y l1 IH]; simpl; intros H; [reflexivity|].
  rewrite (H y) by (left; reflexivity).
  rewrite IH by (intros z Hz; apply H; right; exact Hz). reflexivity.
Qed.

(** The sort keeps the elements and orders them. *)
Lemma sort_insert_In {A} (cmp : A -> A -> Z) (x y : A) (l : list A) :
  In y (JS.sort_insert cmp x l) <-> y = x \/ In y l.
Proof.
  induction l as [|z l IH]; simpl.
  - intuition.
  - destruct (cmp x z <=? 0); simpl; [intuition|].
    rewrite IH. intuition.
Qed.

Lemma sort_In {A} (cmp : A -> A -> Z) (y : A) (l : list A) :
  In y (JS.sort cmp l) <-> In y l.
Proof.
  induction l as [|x l IH]; simpl; [tauto|].
  rewrite sort_insert_In, IH. intuition.
Qed.

Lemma sort_insert_length {A} (cmp : A -> A -> Z) (x : A) (l : list A) :
  length (JS.sort_insert cmp x l) = S (length l).
Proof.
  induction l as [|z l IH]; simpl; [reflexivity|].
  destruct (cmp x z <=? 0); simpl; [reflexivity|]. rewrite IH. reflexivity.
Qed.

Lemma sort_length {A} (cmp : A -> A -> Z) (l : list A) :
  length (JS.sort cmp l) = length l.
Proof.
  induction l as [|x l IH]; simpl; [reflexivity|].
  rewrite sort_insert_length, IH. reflexivity.
Qed.

(** A list of numbers in ascending order. *)
Fixpoint ascending (l : list Z) : Prop :=
  match l with
  | [] => True
  | x :: l' => (forall y, In y l' -> x <= y) /\ ascending l'
  end.

Lemma sort_insert_ascending (x : Z) (l : list Z) :
  ascending l -> ascending (JS.sort_insert (fun a b => a - b) x l).
Proof.
  induction l as [|z l IH]; simpl; intros Hl.
  - split; [intros y []|exact I].
  - destruct Hl as [Hz Hl].
    destruct (x - z <=? 0) eqn:E.
    + simpl. split; [|split; assumption].
      intros y [<-|Hy]; [lia|]. specialize (Hz y Hy). lia.
    + simpl. split; [|apply IH; exact Hl].
      intros y Hy. apply sort_insert_In in Hy. destruct Hy as [->|Hy].
      * lia.
      * apply Hz. exact Hy.
Qed.

Lemma sort_ascending (l : list Z) :
  ascending (JS.sort (fun a b => a - b) l).
Proof.
  induction l as [|x l IH]; simpl; [exact I|].
  apply sort_insert_ascending. exact IH.
Qed.

End JSFacts.

(** ** The shape of the merged timeline *)

Module MergerFacts.
Import Composition Merger JSFacts.

(** The timestamps the first pass pushes for the messages of one track. *)
Fixpoint elapsedStamps (offset accContentTime : Z) (msgs : list MidiMessage)
  : list Z :=
  match msgs with
  | [] => []
  | msg :: rest =>
      match messageType msg with
      | ElapsedTime =>
          (offset + (accContentTime + value msg))
          :: elapsedStamps offset (accContentTime + value msg) rest
      | _ => elapsedStamps offset accContentTime rest
      end
  end.

Definition trackStamps (track : Track) : list Z :=
  offsetTime track :: elapsedStamps (offsetTime track) 0 (rawContent track).

(** The note events of one track, each with the value [currentTime] has
    when the second pass reaches it: its absolute time. *)
Fixpoint trackNotes (offset currentTime accContentTime : Z)
  (msgs : list MidiMessage) : list (Z * MidiMessage) :=
  match msgs with
  | [] => []
  | msg :: rest =>
      match messageType msg with
      | ElapsedTime =>
          trackNotes offset (offset + (accContentTime + value msg))
            (accContentTime + value msg) rest
      | NoteOn | NoteOff =>
          (currentTime, msg) :: trackNotes offset currentTime accContentTime rest
      | ControlChange => trackNotes offset currentTime accContentTime rest
      end
  end.

(** All note events in the order the second pass processes them. *)
Definition timedNotes (sortedTracks : list Track) : list (Z * MidiMessage) :=
  flat_map
    (fun track =>
       trackNotes (offsetTime track) (offsetTime track) 0 (rawContent track))
    sortedTracks.

(** The notes whose absolute time is [T], in processing order. *)
Definition notesAt (T : Z) (notes : list (Z * MidiMessage)) : list MidiMessage :=
  map snd (List.filter (fun n => fst n =? T) notes).

(** Time covered by the [ElapsedTime] messages of a list. *)
Fixpoint elapsedTotal (msgs : list MidiMessage) : Z :=
  match msgs with
  | [] => 0
  | msg :: rest =>
      match messageType msg with
      | ElapsedTime => value msg + elapsedTotal rest
      | _ => elapsedTotal rest
      end
  end.

(** Offsets and elapsed times are not negative. *)
Definition wellFormedTrack (track : Track) : bool :=
  (0 <=? offsetTime track)
  && forallb
       (fun msg =>
          match messageType msg with
          | ElapsedTime => 0 <=? value msg
          | _ => true
          end)
       (rawContent track).

Definition wellFormed (tracks : list Track) : bool :=
  forallb wellFormedTrack tracks.

(** One insertion of the second pass. *)
Definition insertOne (st : list MidiMessage * list Z) (n : Z * MidiMessage)
  : list MidiMessage * list Z :=
  let insertIndex := JS.findIndex (fun t => fst n <=? t) (snd st) in
  (JS.splice_insert (insertIndex + 1) (snd n) (fst st),
   JS.splice_insert (insertIndex + 1) 0 (snd st)).

(** The skeleton as a recursion on the previous timestamp. *)
Fixpoint deltas (prev : Z) (sk : list Z) : list MidiMessage :=
  match sk with
  | [] => []
  | t :: sk' => elapsed (t - prev) :: deltas t sk'
  end.

(** The two parallel arrays as one list of slots: a timestamp (or the
    placeholder [0]) beside its message.  [layout prev sk notes] is the
    skeleton over [sk] in which the first slot of every instant is
    followed by the notes of that instant, last processed first. *)
Definition isFirst (prev : option Z) (t : Z) : bool :=
  match prev with
  | None => true
  | Some p => negb (p =? t)
  end.

Definition noteBlock (prev : option Z) (t : Z) (notes : list (Z * MidiMessage))
  : list (Z * MidiMessage) :=
  if isFirst prev t then map (fun m => (0, m)) (rev (notesAt t notes)) else [].

Fixpoint layout (prev : option Z) (sk : list Z) (notes : list (Z * MidiMessage))
  : list (Z * MidiMessage) :=
  match sk with
  | [] => []
  | t :: sk' =>
      (t, elapsed (t - default 0 prev))
      :: noteBlock prev t notes ++ layout (Some t) sk' notes
  end.

Lemma pushElapsed_app (offset acc : Z) (msgs : list MidiMessage) (ts : list Z) :
  pushElapsed offset acc msgs ts = ts ++ elapsedStamps offset acc msgs.
Proof.
  revert acc ts. induction msgs as [|msg rest IH]; intros acc ts; simpl.
  - rewrite app_nil_r. reflexivity.
  - destruct (messageType msg); rewrite IH; try reflexivity.
    rewrite <- app_assoc. reflexivity.
Qed.

Lemma collectTimestamps_app (sortedTracks : list Track) (ts : list Z) :
  collectTimestamps sortedTracks ts = ts ++ flat_map trackStamps sortedTracks.
Proof.
  revert ts. induction sortedTracks as [|track rest IH]; intros ts; simpl.
  - rewrite app_nil_r. reflexivity.
  - rewrite IH, pushElapsed_app. unfold trackStamps.
    rewrite <- !app_assoc. reflexivity.
Qed.

Lemma insertNotes_fold (offset currentTime acc : Z) (msgs : list MidiMessage)
  (gm : list MidiMessage) (ts : list Z) :
  insertNotes offset currentTime acc msgs gm ts
  = fold_left insertOne (trackNotes offset currentTime acc msgs) (gm, ts).
Proof.
  revert currentTime acc gm ts.
  induction msgs as [|msg rest IH]; intros currentTime acc gm ts; simpl.
  - reflexivity.
  - destruct (messageType msg); simpl; rewrite IH; reflexivity.
Qed.

Lemma insertAllNotes_fold (sortedTracks : list Track)
  (gm : list MidiMessage) (ts : list Z) :
  insertAllNotes sortedTracks gm ts
  = fold_left insertOne (timedNotes sortedTracks) (gm, ts).
Proof.
  revert gm ts. induction sortedTracks as [|track rest IH]; intros gm ts.
  - reflexivity.
  - simpl. rewrite insertNotes_fold.
    unfold timedNotes. simpl. rewrite fold_left_app.
    destruct (fold_left insertOne _ (gm, ts)) as [gm' ts'].
    rewrite IH. reflexivity.
Qed.

Lemma skeleton_from (pre suf : list Z) (acc : list MidiMessage) :
  JS.reduce_from
    (fun messages current i =>
       messages
       ++ [elapsed (current
                    - (if i =? 0 then 0 else JS.index (pre ++ suf) (i - 1)))])
    (Z.of_nat (length pre)) suf acc
  = acc ++ deltas (List.last pre 0) suf.
Proof.
  revert pre acc. induction suf as [|t suf IH]; intros pre acc; simpl.
  - rewrite app_nil_r. reflexivity.
  - specialize (IH (pre ++ [t])).
    rewrite <- app_assoc in IH. simpl in IH.
    rewrite length_app in IH. simpl in IH.
    replace (Z.of_nat (length pre) + 1) with (Z.of_nat (length pre + 1)) by lia.
    rewrite IH, last_last, <- app_assoc. simpl.
    do 3 f_equal.
    clear IH. destruct pre as [|p pre _] using rev_ind; [reflexivity|].
    rewrite length_app. simpl length.
    destruct (Z.eqb_spec (Z.of_nat (length pre + 1)) 0) as [E|_]; [lia|].
    rewrite last_last. unfold JS.index.
    destruct (Z.ltb_spec (Z.of_nat (length pre + 1) - 1) 0) as [E|_]; [lia|].
    replace (Z.to_nat (Z.of_nat (length pre + 1) - 1)) with (length pre) by lia.
    rewrite <- app_assoc. simpl. rewrite nth_middle. reflexivity.
Qed.

Lemma skeleton_deltas (sk : list Z) : skeleton sk = deltas 0 sk.
Proof. unfold skeleton, JS.reduce. apply (skeleton_from [] sk []). Qed.

Lemma notesAt_app (T : Z) (l1 l2 : list (Z * MidiMessage)) :
  notesAt T (l1 ++ l2) = notesAt T l1 ++ notesAt T l2.
Proof. unfold notesAt. rewrite List.filter_app, map_app. reflexivity. Qed.

Lemma notesAt_snoc_same (T : Z) (m : MidiMessage) (l : list (Z * MidiMessage)) :
  notesAt T (l ++ [(T, m)]) = notesAt T l ++ [m].
Proof.
  rewrite notesAt_app. unfold notesAt at 2. simpl.
  rewrite Z.eqb_refl. reflexivity.
Qed.

Lemma notesAt_snoc_other (T t : Z) (m : MidiMessage) (l : list (Z * MidiMessage)) :
  T <> t -> notesAt t (l ++ [(T, m)]) = notesAt t l.
Proof.
  intros H. rewrite notesAt_app. unfold notesAt at 2. simpl.
  destruct (Z.eqb_spec T t); [contradiction|]. apply app_nil_r.
Qed.

Lemma noteBlock_snoc_other (prev : option Z) (T t : Z) (m : MidiMessage)
  (l : list (Z * MidiMessage)) :
  T <> t -> noteBlock prev t (l ++ [(T, m)]) = noteBlock prev t l.
Proof.
  intros H. unfold noteBlock. rewrite notesAt_snoc_other by exact H.
  reflexivity.
Qed.

Lemma noteBlock_placeholders (prev : option Z) (t : Z)
  (notes : list (Z * MidiMessage)) (s : Z * MidiMessage) :
  In s (noteBlock prev t notes) -> fst s = 0.
Proof.
  unfold noteBlock. destruct (isFirst prev t); [|intros []].
  rewrite in_map_iff. intros [m [<- _]]. reflexivity.
Qed.

Lemma layout_no_notes (prev : option Z) (sk : list Z) :
  map snd (layout prev sk []) = deltas (default 0 prev) sk
  /\ map fst (layout prev sk []) = sk.
Proof.
  revert prev. induction sk as [|t sk IH]; intros prev; simpl.
  - split; reflexivity.
  - destruct (IH (Some t)) as [IH1 IH2].
    assert (Hb : noteBlock prev t [] = []).
    { unfold noteBlock. destruct (isFirst prev t); reflexivity. }
    rewrite Hb. simpl. rewrite IH1, IH2. split; reflexivity.
Qed.

Lemma layout_has_slot (prev : option Z) (sk : list Z)
  (notes : list (Z * MidiMessage)) (t : Z) :
  In t sk -> exists msg, In (t, msg) (layout prev sk notes).
Proof.
  revert prev. induction sk as [|u sk IH]; intros prev; simpl; [tauto|].
  intros [->|Hin].
  - eexists. left. reflexivity.
  - destruct (IH (Some u) Hin) as [msg Hmsg].
    exists msg. right. apply in_or_app. right. exact Hmsg.
Qed.

(** A note at or before the last instant does not change what follows. *)
Lemma layout_stable (p T : Z) (m : MidiMessage) (sk : list Z)
  (notes : list (Z * MidiMessage)) :
  ascending (p :: sk) -> T <= p ->
  layout (Some p) sk (notes ++ [(T, m)]) = layout (Some p) sk notes.
Proof.
  revert p. induction sk as [|t sk IH]; intros p Hasc HT; simpl.
  - reflexivity.
  - destruct Hasc as [Hp Hasc].
    assert (Hpt : p <= t) by (apply Hp; left; reflexivity).
    rewrite IH by (trivial; lia). f_equal. f_equal.
    unfold noteBlock. simpl. destruct (Z.eqb_spec p t); simpl; [reflexivity|].
    rewrite notesAt_snoc_other by lia. reflexivity.
Qed.

(** The insertion step on the slots. *)
Lemma layout_insert (prev : option Z) (sk : list Z)
  (notes : list (Z * MidiMessage)) (T : Z) (m : MidiMessage) :
  ascending sk -> (forall t, In t sk -> 0 <= t) -> In T sk ->
  match prev with Some p => p < T | None => True end ->
  insertAfterFirst (fun s => T <=? fst s) (0, m) (layout prev sk notes)
  = layout prev sk (notes ++ [(T, m)]).
Proof.
  revert prev. induction sk as [|t sk IH]; intros prev Hasc Hpos Hin Hprev.
  - destruct Hin.
  - simpl layout. simpl insertAfterFirst.
    assert (Ht0 : 0 <= t) by (apply Hpos; left; reflexivity).
    assert (HtT : t <= T).
    { destruct Hin as [->|Hin]; [lia|]. apply (proj1 Hasc). exact Hin. }
    destruct (Z.leb_spec T t) as [Hle|Hgt].
    + assert (T = t) by lia. subst T.
      rewrite layout_stable by (trivial; lia).
      f_equal. unfold noteBlock.
      assert (Hf : isFirst prev t = true).
      { destruct prev as [p|]; simpl; [|reflexivity].
        destruct (Z.eqb_spec p t); [lia|reflexivity]. }
      rewrite Hf, notesAt_snoc_same, rev_unit. reflexivity.
    + f_equal. rewrite insertAfterFirst_skip.
      * rewrite noteBlock_snoc_other by lia. f_equal.
        apply IH.
        -- apply Hasc.
        -- intros u Hu. apply Hpos. right. exact Hu.
        -- destruct Hin as [->|Hin]; [lia|exact Hin].
        -- exact Hgt.
      * intros s Hs. apply noteBlock_placeholders in Hs.
        rewrite Hs. apply Z.leb_gt. lia.
Qed.

Lemma insertOne_layout (sk : list Z) (notes : list (Z * MidiMessage))
  (T : Z) (m : MidiMessage) :
  ascending sk -> (forall t, In t sk -> 0 <= t) -> In T sk ->
  insertOne (map snd (layout None sk notes), map fst (layout None sk notes)) (T, m)
  = (map snd (layout None sk (notes ++ [(T, m)])),
     map fst (layout None sk (notes ++ [(T, m)]))).
Proof.
  intros Hasc Hpos Hin. unfold insertOne.
  cbn [fst snd]. rewrite findIndex_map.
  set (i := JS.findIndex _ _ + 1).
  assert (H1 : JS.splice_insert i m (map snd (layout None sk notes))
               = map snd (JS.splice_insert i (0, m) (layout None sk notes)))
    by (rewrite splice_insert_map; reflexivity).
  assert (H2 : JS.splice_insert i 0 (map fst (layout None sk notes))
               = map fst (JS.splice_insert i (0, m) (layout None sk notes)))
    by (rewrite splice_insert_map; reflexivity).
  rewrite H1, H2. clear H1 H2. subst i.
  assert (Hfound : 0 <= JS.findIndex (fun s : Z * MidiMessage => T <=? fst s)
                          (layout None sk notes)).
  { destruct (layout_has_slot None sk notes T Hin) as [msg Hmsg].
    apply (findIndex_found _ _ (T, msg) Hmsg). simpl. apply Z.leb_refl. }
  rewrite splice_after_first by exact Hfound.
  rewrite layout_insert by (trivial; exact I). reflexivity.
Qed.

Lemma insertAll_layout (sk : list Z) (todo done : list (Z * MidiMessage)) :
  ascending sk -> (forall t, In t sk -> 0 <= t) ->
  (forall n, In n todo -> In (fst n) sk) ->
  fold_left insertOne todo
    (map snd (layout None sk done), map fst (layout None sk done))
  = (map snd (layout None sk (done ++ todo)),
     map fst (layout None sk (done ++ todo))).
Proof.
  intros Hasc Hpos. revert done.
  induction todo as [|[T m] todo IH]; intros done Hin; simpl.
  - rewrite app_nil_r. reflexivity.
  - rewrite insertOne_layout; trivial.
    + rewrite IH by (intros n Hn; apply Hin; right; exact Hn).
      rewrite <- app_assoc. reflexivity.
    + apply (Hin (T, m)). left. reflexivity.
Qed.

Lemma wellFormedTrack_spec (track : Track) :
  wellFormedTrack track = true ->
  0 <= offsetTime track
  /\ forall msg, In msg (rawContent track) ->
       messageType msg = ElapsedTime -> 0 <= value msg.
Proof.
  unfold wellFormedTrack. rewrite andb_true_iff, forallb_forall.
  intros [Ho Hm]. split; [lia|].
  intros msg Hin Hty. specialize (Hm msg Hin). rewrite Hty in Hm. lia.
Qed.

Lemma elapsedStamps_lower (offset acc : Z) (msgs : list MidiMessage) :
  (forall msg, In msg msgs -> messageType msg = ElapsedTime -> 0 <= value msg) ->
  forall x, In x (elapsedStamps offset acc msgs) -> offset + acc <= x.
Proof.
  revert acc. induction msgs as [|msg rest IH]; intros acc Hv x; simpl.
  - intros [].
  - assert (Hrest : forall m, In m rest -> messageType m = ElapsedTime -> 0 <= value m)
      by (intros m Hm; apply Hv; right; exact Hm).
    destruct (messageType msg) eqn:Hty; try (apply IH; exact Hrest).
    assert (0 <= value msg) by (apply Hv; [left; reflexivity|exact Hty]).
    intros [<-|Hin]; [lia|].
    specialize (IH _ Hrest x Hin). lia.
Qed.

Lemma trackNotes_time (offset currentTime acc : Z) (msgs : list MidiMessage)
  (n : Z * MidiMessage) :
  In n (trackNotes offset currentTime acc msgs) ->
  fst n = currentTime \/ In (fst n) (elapsedStamps offset acc msgs).
Proof.
  revert currentTime acc.
  induction msgs as [|msg rest IH]; intros currentTime acc; simpl; [tauto|].
  destruct (messageType msg); simpl.
  - intros [<-|Hin]; [left; reflexivity|apply IH; exact Hin].
  - intros [<-|Hin]; [left; reflexivity|apply IH; exact Hin].
  - intros Hin. right. apply IH in Hin.
    destruct Hin as [Hin|Hin]; [left; symmetry; exact Hin|right; exact Hin].
  - apply IH.
Qed.

Lemma trackNotes_isNote (offset currentTime acc : Z) (msgs : list MidiMessage)
  (n : Z * MidiMessage) :
  In n (trackNotes offset currentTime acc msgs) -> isNote (snd n) = true.
Proof.
  revert currentTime acc.
  induction msgs as [|msg rest IH]; intros currentTime acc; simpl; [tauto|].
  destruct (messageType msg) eqn:Hty; simpl; try apply IH.
  - intros [<-|Hin]; [unfold isNote; simpl; rewrite Hty; reflexivity|].
    apply IH in Hin. exact Hin.
  - intros [<-|Hin]; [unfold isNote; simpl; rewrite Hty; reflexivity|].
    apply IH in Hin. exact Hin.
Qed.

Lemma timedNotes_stamp (sortedTracks : list Track) (n : Z * MidiMessage) :
  In n (timedNotes sortedTracks) ->
  In (fst n) (flat_map trackStamps sortedTracks).
Proof.
  unfold timedNotes. rewrite !in_flat_map.
  intros [track [Htrack Hn]]. exists track. split; [exact Htrack|].
  unfold trackStamps. apply trackNotes_time in Hn. simpl.
  destruct Hn as [Hn|Hn]; [left; symmetry; exact Hn|right; exact Hn].
Qed.

Lemma timedNotes_isNote (sortedTracks : list Track) (n : Z * MidiMessage) :
  In n (timedNotes sortedTracks) -> isNote (snd n) = true.
Proof.
  unfold timedNotes. rewrite in_flat_map.
  intros [track [_ Hn]]. apply trackNotes_isNote in Hn. exact Hn.
Qed.

Lemma stamps_nonneg (tracks : list Track) (x : Z) :
  wellFormed tracks = true -> In x (flat_map trackStamps tracks) -> 0 <= x.
Proof.
  unfold wellFormed. rewrite forallb_forall, in_flat_map.
  intros Hwf [track [Htrack Hx]].
  destruct (wellFormedTrack_spec track (Hwf track Htrack)) as [Ho Hm].
  destruct Hx as [<-|Hx]; [exact Ho|].
  pose proof (elapsedStamps_lower _ 0 _ Hm x Hx). lia.
Qed.

Lemma wellFormed_sortTracks (tracks : list Track) :
  wellFormed tracks = true -> wellFormed (sortTracks tracks) = true.
Proof.
  unfold wellFormed. rewrite !forallb_forall. intros H track Hin.
  apply H. unfold sortTracks in Hin. apply sort_In in Hin. exact Hin.
Qed.

(** The merged list is the skeleton with, after the first slot of each
    instant, the notes of that instant, last processed first. *)
Lemma mergeTracks_layout (tracks : list Track) :
  wellFormed tracks = true ->
  mergeTracks tracks
  = map snd
      (layout None
         (sortTimestamps (collectTimestamps (sortTracks tracks) []))
         (timedNotes (sortTracks tracks))).
Proof.
  intros Hwf. apply wellFormed_sortTracks in Hwf.
  unfold mergeTracks.
  set (sorted := sortTracks tracks) in *.
  set (sk := sortTimestamps (collectTimestamps sorted [])).
  rewrite insertAllNotes_fold, skeleton_deltas.
  destruct (layout_no_notes None sk) as [H1 H2]. simpl in H1.
  rewrite <- H1. rewrite <- H2 at 2.
  rewrite insertAll_layout; [reflexivity| | |].
  - apply sort_ascending.
  - intros t Ht. apply sort_In in Ht.
    rewrite collectTimestamps_app in Ht. apply (stamps_nonneg sorted t Hwf Ht).
  - intros n Hn. apply sort_In. rewrite collectTimestamps_app.
    apply timedNotes_stamp. exact Hn.
Qed.






(** *** What the merge reads of a track *)

(** A track reduced to its offset and raw content. *)
Definition stripTrack (track : Track) : Track :=
  mkTrack ""%string ""%string ""%string (rawContent track) (offsetTime track) 0.

Lemma sort_insert_map {A B} (f : A -> B) (cmpA : A -> A -> Z) (cmpB : B -> B -> Z)
  (x : A) (l : list A) :
  (forall a b, cmpA a b = cmpB (f a) (f b)) ->
  map f (JS.sort_insert cmpA x l) = JS.sort_insert cmpB (f x) (map f l).
Proof.
  intros H. induction l as [|y l IH]; simpl; [reflexivity|].
  rewrite <- H. destruct (cmpA x y <=? 0); simpl; [reflexivity|].
  rewrite IH. reflexivity.
Qed.

Lemma sort_map {A B} (f : A -> B) (cmpA : A -> A -> Z) (cmpB : B -> B -> Z)
  (l : list A) :
  (forall a b, cmpA a b = cmpB (f a) (f b)) ->
  map f (JS.sort cmpA l) = JS.sort cmpB (map f l).
Proof.
  intros H. induction l as [|x l IH]; simpl; [reflexivity|].
  rewrite (sort_insert_map f cmpA cmpB) by exact H. rewrite IH. reflexivity.
Qed.

Lemma sortTracks_strip (tracks : list Track) :
  sortTracks (map stripTrack tracks) = map stripTrack (sortTracks tracks).
Proof.
  unfold sortTracks. symmetry. apply sort_map. intros a b. reflexivity.
Qed.

Lemma collectTimestamps_strip (tracks : list Track) (ts : list Z) :
  collectTimestamps (map stripTrack tracks) ts = collectTimestamps tracks ts.
Proof.
  revert ts. induction tracks as [|t tracks IH]; intros ts; simpl; [reflexivity|].
  apply IH.
Qed.

Lemma insertAllNotes_strip (tracks : list Track) (gm : list MidiMessage)
  (ts : list Z) :
  insertAllNotes (map stripTrack tracks) gm ts = insertAllNotes tracks gm ts.
Proof.
  revert gm ts. induction tracks as [|t tracks IH]; intros gm ts; simpl.
  - reflexivity.
  - destruct (insertNotes _ _ _ _ gm ts) as [gm' ts']. apply IH.
Qed.

(** The merged list is a function of the offsets and raw contents. *)
Lemma mergeTracks_strip (tracks : list Track) :
  mergeTracks (map stripTrack tracks) = mergeTracks tracks.
Proof.
  unfold mergeTracks.
  rewrite sortTracks_strip, collectTimestamps_strip, insertAllNotes_strip.
  reflexivity.
Qed.

Lemma mergeTracks_ext (tracks1 tracks2 : list Track) :
  map (fun t => (offsetTime t, rawContent t)) tracks1
  = map (fun t => (offsetTime t, rawContent t)) tracks2 ->
  mergeTracks tracks1 = mergeTracks tracks2.
Proof.
  intros H. rewrite <- (mergeTracks_strip tracks1), <- (mergeTracks_strip tracks2).
  f_equal.
  apply (f_equal (map (fun p : Z * list MidiMessage =>
                         mkTrack ""%string ""%string ""%string (snd p) (fst p) 0))) in H.
  rewrite !map_map in H. exact H.
Qed.

(** The prompt is a function of the offsets, the raw contents and the
    instrument selected in the store. *)
Lemma mergeResult_ext (tokenMap : list string) (s1 s2 : CommonStore) :
  map (fun t => (offsetTime t, rawContent t)) (tracks s1)
  = map (fun t => (offsetTime t, rawContent t)) (tracks s2) ->
  instrumentType s1 = instrumentType s2 ->
  mergeResult tokenMap s1 = mergeResult tokenMap s2.
Proof.
  intros Ht Hi. unfold mergeResult.
  rewrite (mergeTracks_ext _ _ Ht). do 3 f_equal.
  apply map_ext. intros m. unfold Encoder.midiMessageToToken.
  rewrite Hi. reflexivity.
Qed.

End MergerFacts.
(** ** Event handlers of the editor *)

Module Handlers.
Import Composition.

(** What a handler asks of its collaborators: a toast, the note sent to
    the playback sink, the instrument panel, the prompt handed to the
    generation area. *)
Inductive Effect :=
| ToastWarning (text : string)
| PlayNote (data : MidiMessage)
| DisplayCurrentInstrumentType
| SetPrompt (prompt : string).

(** The mutable state a handler sees: the global store, the module
    variable [dropRecordingTime] and the component state
    [selectedTrackId]. *)
Record Editor := mkEditor {
  commonStore : CommonStore;
  dropRecordingTime : bool;
  selectedTrackId : string
}.

Definition snapValue : Z := 25.
Definition minimalMoveTime : Z := 8.
(** [Math.round(minimalMoveTime / scaleMin)] with [scaleMin = 0.05]. *)
Definition baseMoveTime : Z := 160.

(** [tracks.findIndex(t => t.id === id)]. *)
Definition trackIndexOf (trackId : string) (tracks : list Track) : Z :=
  JS.findIndex (fun t => String.eqb (id t) trackId) tracks.

(** Content time of a raw message list: the sum of its elapsed times. *)
Fixpoint getMidiRawContentTime (rawContent : list MidiMessage) : Z :=
  match rawContent with
  | [] => 0
  | msg :: rest =>
      match messageType msg with
      | ElapsedTime => value msg + getMidiRawContentTime rest
      | _ => getMidiRawContentTime rest
      end
  end.

Section WithComposition.

(** Constants of [types/composition], parameters here. *)
Variable InstrumentTypeNameMap : list string.
Variable InstrumentTypeTokenMap : list string.
Variable tracksMinimalTotalTime : Z.

(** Modelled from the spec: [refreshTracksTotalTime] of [utils], which is
    not among the sources at hand.  The total time is the greatest end
    [offsetTime + contentTime] of a track, and at least the minimal
    timeline length. *)
Definition refreshTracksTotalTime (s : CommonStore) : CommonStore :=
  setTrackTotalTime
    (fold_left (fun total t => Z.max total (offsetTime t + contentTime t))
       (tracks s) tracksMinimalTotalTime)
    s.

(** Modelled from the spec: [flushMidiRecordingContent] of [utils], which
    is not among the sources at hand.  The recording buffer and the live
    token string replace the raw and rendered content of the track that is
    being recorded, its content time is recomputed, and the buffers are
    emptied.  The id of the recording track is left to the caller: every
    handler below sets it itself after the flush, and the record handler
    reads it after the flush to tell a stop from a start. *)
Definition flushMidiRecordingContent (s : CommonStore) : CommonStore :=
  let recordingTrackIndex := trackIndexOf (recordingTrackId s) (tracks s) in
  let s :=
    if 0 <=? recordingTrackIndex then
      match tracks s !! Z.to_nat recordingTrackIndex with
      | Some recordingTrack =>
          refreshTracksTotalTime
            (setTracks
               (<[Z.to_nat recordingTrackIndex :=
                    mkTrack (id recordingTrack) (mainInstrument recordingTrack)
                      (recordingContent s) (recordingRawContent s)
                      (offsetTime recordingTrack)
                      (getMidiRawContentTime (recordingRawContent s))]>
                  (tracks s))
               s)
      | None => s
      end
    else s in
  setRecordingRawContent [] (setRecordingContent ""%string s).

(** [midiMessageHandler], lines 116-137. *)
Definition midiMessageHandler (data : MidiMessage) (e : Editor)
  : Editor * list Effect :=
  let s := commonStore e in
  match messageType data with
  | ControlChange =>
      let s :=
        setInstrumentType
          (JS.Math_round
             (IZR (value data) / 127
              * IZR (Z.of_nat (length InstrumentTypeNameMap) - 1)))
          s in
      (mkEditor s (dropRecordingTime e) (selectedTrackId e),
       [DisplayCurrentInstrumentType])
  | ty =>
      if String.eqb (recordingTrackId s) ""%string then (e, [])
      else if dropRecordingTime e
              && match ty with ElapsedTime => true | _ => false end
      then (mkEditor s false (selectedTrackId e), [])
      else
        let data := withInstrument (instrumentType s) data in
        let s := setRecordingRawContent (recordingRawContent s ++ [data]) s in
        let s :=
          setRecordingContent
            (recordingContent s
             ++ Encoder.midiMessageToToken InstrumentTypeTokenMap s data)%string
            s in
        (mkEditor s (dropRecordingTime e) (selectedTrackId e), [PlayNote data])
  end.

(** The record button of a track, lines 369-388.  [track] is the track
    of the row the button belongs to. *)
Definition recordClick (track : Track) (e : Editor) : Editor * list Effect :=
  let s := flushMidiRecordingContent (commonStore e) in
  let s := setPlayingTrackId ""%string s in
  if String.eqb (recordingTrackId s) (id track) then
    (mkEditor (setRecordingTrackId ""%string s)
       (dropRecordingTime e) (selectedTrackId e), [])
  else if activeMidiDeviceIndex s =? -1 then
    (mkEditor s (dropRecordingTime e) (selectedTrackId e),
     [ToastWarning "Please select a MIDI device first"])
  else
    let s := setRecordingTrackId (id track) s in
    let s := setRecordingContent (content track) s in
    let s := setRecordingRawContent (rawContent track) s in
    (mkEditor s true (id track), []).

(** The change of offset a drag asks for and the one that is applied,
    lines 171-175.  [delta] is the distance dragged in pixels and [scale]
    the zoom of the view. *)
Definition requestedOffset (scale delta : R) : Z :=
  JS.Math_round
    (IZR (JS.Math_round (delta / IZR snapValue * IZR baseMoveTime * scale))
     / IZR minimalMoveTime)
  * minimalMoveTime.

Definition appliedOffset (s : CommonStore) (track : Track) (scale delta : R) : Z :=
  Z.min
    (Z.max (requestedOffset scale delta) (- offsetTime track))
    (trackTotalTime s - offsetTime track).

(** [tracks[trackIndex].offsetTime += offsetTime] on the copy of the
    track array; the track objects are shared with the store. *)
Definition addOffset (trackIndex : nat) (d : Z) (tracks : list Track) : list Track :=
  match tracks !! trackIndex with
  | Some t => <[trackIndex := withOffsetTime (offsetTime t + d) t]> tracks
  | None => tracks
  end.

(** The drag handler [onStop] of a track, lines 170-181.  A track
    component exists for the tracks of the store only: without a track of
    that id there is no handler to run. *)
Definition onStop (trackId : string) (scale delta : R) (s : CommonStore)
  : option CommonStore :=
  let trackIndex := trackIndexOf trackId (tracks s) in
  if trackIndex <? 0 then None
  else
    match tracks s !! Z.to_nat trackIndex with
    | None => None
    | Some track =>
        let offsetTime := appliedOffset s track scale delta in
        let tracks := addOffset (Z.to_nat trackIndex) offsetTime (tracks s) in
        Some (refreshTracksTotalTime (setTracks tracks s))
    end.

(** The export button, lines 459-500. *)
Definition exportClick (e : Editor) : Editor * list Effect :=
  let s := flushMidiRecordingContent (commonStore e) in
  let s := setRecordingTrackId ""%string s in
  let s := setPlayingTrackId ""%string s in
  let result := Merger.mergeResult InstrumentTypeTokenMap s in
  (mkEditor (setCompositionSubmittedPrompt result s)
     (dropRecordingTime e) (selectedTrackId e),
   [SetPrompt result]).

End WithComposition.

End Handlers.

(** ** Facts about the encoder *)

Module EncoderFacts.
Import Composition Encoder.

#[local] Arguments String.append !_ _ / : simpl nomatch.

Lemma string_app_assoc (a b c : string) :
  ((a ++ b) ++ c = a ++ (b ++ c))%string.
Proof. induction a as [|ch a IH]; simpl; [reflexivity|]. rewrite IH. reflexivity. Qed.

Lemma string_app_nil_r (a : string) : (a ++ "" = a)%string.
Proof. induction a as [|ch a IH]; simpl; [reflexivity|]. rewrite IH. reflexivity. Qed.

Lemma join_app (l1 l2 : list string) :
  JS.join (l1 ++ l2) = (JS.join l1 ++ JS.join l2)%string.
Proof.
  induction l1 as [|x l1 IH]; simpl; [reflexivity|].
  rewrite IH, string_app_assoc. reflexivity.
Qed.

(** The token of one wait of [u] units. *)
Definition waitToken (u : Z) : string := ("t" ++ JS.toString u ++ " ")%string.

(** The unit counts of the wait tokens for an elapsed time of [d]
    milliseconds, as the specification words them: [floor (units / 125)]
    full waits of 125 units, then the remainder when it is positive. *)
Definition waitUnits (d : Z) : list Z :=
  let units := JS.Math_round (IZR d / 8) in
  let full := JS.Math_floor (IZR units / 125) in
  let r := units mod 125 in
  repeat 125 (Z.to_nat full) ++ (if 0 <? r then [r] else []).

Definition sumUnits (us : list Z) : Z := fold_right Z.add 0 us.

Lemma join_repeat_comm (x : string) (n : nat) :
  (JS.join (repeat x n) ++ x = x ++ JS.join (repeat x n))%string.
Proof.
  induction n as [|n IH]; simpl.
  - rewrite string_app_nil_r. reflexivity.
  - rewrite string_app_assoc, IH. reflexivity.
Qed.

Lemma appendMaxWaits_join (num : Z) (ret : string) :
  appendMaxWaits num ret
  = (ret ++ JS.join (map waitToken (repeat 125 (Z.to_nat num))))%string.
Proof.
  unfold appendMaxWaits. induction (Z.to_nat num) as [|n IH]; simpl.
  - rewrite string_app_nil_r. reflexivity.
  - rewrite IH, string_app_assoc. f_equal.
    rewrite map_repeat. change (waitToken 125) with "t125 "%string.
    apply (join_repeat_comm "t125 " n).
Qed.

Lemma sumUnits_app (l1 l2 : list Z) :
  sumUnits (l1 ++ l2) = sumUnits l1 + sumUnits l2.
Proof. induction l1 as [|x l1 IH]; simpl; [reflexivity|]. rewrite IH. lia. Qed.

Lemma sumUnits_repeat (x : Z) (n : nat) : sumUnits (repeat x n) = x * Z.of_nat n.
Proof. induction n as [|n IH]; simpl; [lia|]. rewrite IH. lia. Qed.

Lemma units_int (d : Z) : JS.Math_round (IZR d / 8) = (2 * d + 8) / 16.
Proof. apply (Math_round_quot d 8). lia. Qed.

End EncoderFacts.

(** ** The export on the JavaScript heap *)

(** Arrays and track objects are mutable and shared by reference.  This
    module runs lines 464-497 on a heap of such objects, with every
    [slice], [push], [sort] and [splice] acting on the object it is
    called on, to tell which objects the export writes. *)
Module HeapExport.
Import Composition.

Definition loc := positive.

(** Objects of the heap.  A message is a record that is never written
    once it exists: arrays hold messages by value. *)
Inductive object :=
| TrackObject (trackId mainInstrument content : string) (rawContent : loc)
    (offsetTime contentTime : Z)
| TrackArray (elems : list loc)
| MessageArray (elems : list MidiMessage)
| NumberArray (elems : list Z).

Abbreviation heap := (gmap loc object).

(** Computations on the heap; [None] is a run-time error (a location
    that does not hold the expected kind of object, or a loop that did
    not finish within its bound). *)
Definition M (A : Type) : Type := heap -> option (A * heap).

Definition ret {A} (x : A) : M A := fun h => Some (x, h).

Definition bind {A B} (c : M A) (k : A -> M B) : M B :=
  fun h => match c h with
           | Some (x, h') => k x h'
           | None => None
           end.

Definition fail {A} : M A := fun _ => None.

Notation "x <- c ;; k" := (bind c (fun x => k))
  (at level 63, c at next level, right associativity).
Notation "c ;;; k" := (bind c (fun _ => k))
  (at level 63, right associativity).

Definition alloc (o : object) : M loc :=
  fun h => let l := fresh (dom h) in Some (l, <[l := o]> h).

Definition tracksAt (l : loc) (h : heap) : option (list loc) :=
  match h !! l with Some (TrackArray v) => Some v | _ => None end.

Definition messagesAt (l : loc) (h : heap) : option (list MidiMessage) :=
  match h !! l with Some (MessageArray v) => Some v | _ => None end.

Definition numbersAt (l : loc) (h : heap) : option (list Z) :=
  match h !! l with Some (NumberArray v) => Some v | _ => None end.

Definition read {A} (get : heap -> option A) : M A :=
  fun h => match get h with Some v => Some (v, h) | None => None end.

(** [track.offsetTime] and [track.rawContent]. *)
Definition offsetTimeOf (l : loc) (h : heap) : option Z :=
  match h !! l with Some (TrackObject _ _ _ _ o _) => Some o | _ => None end.

Definition rawContentOf (l : loc) (h : heap) : option loc :=
  match h !! l with Some (TrackObject _ _ _ r _ _) => Some r | _ => None end.

Definition writeNumbers (l : loc) (v : list Z) : M unit :=
  fun h => match h !! l with
           | Some (NumberArray _) => Some (tt, <[l := NumberArray v]> h)
           | _ => None
           end.

Definition writeMessages (l : loc) (v : list MidiMessage) : M unit :=
  fun h => match h !! l with
           | Some (MessageArray _) => Some (tt, <[l := MessageArray v]> h)
           | _ => None
           end.

Definition writeTracks (l : loc) (v : list loc) : M unit :=
  fun h => match h !! l with
           | Some (TrackArray _) => Some (tt, <[l := TrackArray v]> h)
           | _ => None
           end.

(** [arr.push(x)], [arr.slice()], [arr.sort(cmp)] and
    [arr.splice(i, 0, x)]: [slice] makes a new array, the others write
    the array they are called on. *)
Definition pushNumber (l : loc) (x : Z) : M unit :=
  v <- read (numbersAt l) ;; writeNumbers l (v ++ [x]).

Definition sliceTracks (l : loc) : M loc :=
  v <- read (tracksAt l) ;; alloc (TrackArray v).

Definition sliceNumbers (l : loc) : M loc :=
  v <- read (numbersAt l) ;; alloc (NumberArray v).

Fixpoint readOffsets (ls : list loc) : M (list (Z * loc)) :=
  match ls with
  | [] => ret []
  | l :: ls' =>
      o <- read (offsetTimeOf l) ;;
      rest <- readOffsets ls' ;;
      ret ((o, l) :: rest)
  end.

Definition sortTracksInPlace (l : loc) : M unit :=
  v <- read (tracksAt l) ;;
  keyed <- readOffsets v ;;
  writeTracks l (map snd (JS.sort (fun a b => fst a - fst b) keyed)).

Definition sortNumbersInPlace (l : loc) : M unit :=
  v <- read (numbersAt l) ;;
  writeNumbers l (JS.sort (fun a b => a - b) v).

Definition spliceMessage (l : loc) (start : Z) (x : MidiMessage) : M unit :=
  v <- read (messagesAt l) ;; writeMessages l (JS.splice_insert start x v).

Definition spliceNumber (l : loc) (start : Z) (x : Z) : M unit :=
  v <- read (numbersAt l) ;; writeNumbers l (JS.splice_insert start x v).

(** [for (const x of arr) body]: the array is read again at every step,
    as the iterator does; [s] carries the locals the body assigns. *)
Fixpoint forOfFrom {A L} (fuel : nat) (get : heap -> option (list A)) (i : nat)
  (body : L -> A -> M L) (s : L) : M L :=
  match fuel with
  | O => fail
  | S fuel' =>
      v <- read get ;;
      match v !! i with
      | None => ret s
      | Some x => s' <- body s x ;; forOfFrom fuel' get (S i) body s'
      end
  end.

Definition forOf {A L} (get : heap -> option (list A)) (body : L -> A -> M L)
  (s : L) : M L :=
  v <- read get ;; forOfFrom (S (length v)) get 0 body s.

(** Lines 469-474: the body of the inner loop of the first pass. *)
Definition firstPassStep (track timestamp : loc) (accContentTime : Z)
  (msg : MidiMessage) : M Z :=
  match messageType msg with
  | ElapsedTime =>
      let accContentTime := accContentTime + value msg in
      o <- read (offsetTimeOf track) ;;
      pushNumber timestamp (o + accContentTime) ;;;
      ret accContentTime
  | _ => ret accContentTime
  end.

(** Lines 466-475. *)
Definition firstPassTrack (timestamp : loc) (_ : unit) (track : loc) : M unit :=
  o <- read (offsetTimeOf track) ;;
  pushNumber timestamp o ;;;
  raw <- read (rawContentOf track) ;;
  forOf (messagesAt raw) (firstPassStep track timestamp) 0 ;;;
  ret tt.

Definition firstPass (sortedTracks timestamp : loc) : M unit :=
  forOf (tracksAt sortedTracks) (firstPassTrack timestamp) tt.

(** Lines 487-494: the body of the inner loop of the second pass; the
    locals are [currentTime] and [accContentTime]. *)
Definition secondPassStep (track globalMessages sortedTimestamp : loc)
  (locals : Z * Z) (msg : MidiMessage) : M (Z * Z) :=
  let currentTime := fst locals in
  let accContentTime := snd locals in
  match messageType msg with
  | ElapsedTime =>
      let accContentTime := accContentTime + value msg in
      o <- read (offsetTimeOf track) ;;
      ret (o + accContentTime, accContentTime)
  | NoteOn | NoteOff =>
      ts <- read (numbersAt sortedTimestamp) ;;
      let insertIndex := JS.findIndex (fun t => currentTime <=? t) ts in
      spliceMessage globalMessages (insertIndex + 1) msg ;;;
      spliceNumber sortedTimestamp (insertIndex + 1) 0 ;;;
      ret locals
  | ControlChange => ret locals
  end.

(** Lines 483-496. *)
Definition secondPassTrack (globalMessages sortedTimestamp : loc) (_ : unit)
  (track : loc) : M unit :=
  o <- read (offsetTimeOf track) ;;
  raw <- read (rawContentOf track) ;;
  forOf (messagesAt raw)
    (secondPassStep track globalMessages sortedTimestamp) (o, 0) ;;;
  ret tt.

Definition secondPass (sortedTracks globalMessages sortedTimestamp : loc)
  : M unit :=
  forOf (tracksAt sortedTracks)
    (secondPassTrack globalMessages sortedTimestamp) tt.

(** Lines 464-496 on the array [commonStore.tracks]; the result is the
    content of [globalMessages].  The arrays that [reduce] builds on its
    way are not kept: only its result is allocated. *)
Definition exportMerge (tracks : loc) : M (list MidiMessage) :=
  timestamp <- alloc (NumberArray []) ;;
  sortedTracks <- sliceTracks tracks ;;
  sortTracksInPlace sortedTracks ;;;
  firstPass sortedTracks timestamp ;;;
  sortedTimestamp <- sliceNumbers timestamp ;;
  sortNumbersInPlace sortedTimestamp ;;;
  ts <- read (numbersAt sortedTimestamp) ;;
  globalMessages <- alloc (MessageArray (Merger.skeleton ts)) ;;
  secondPass sortedTracks globalMessages sortedTimestamp ;;;
  read (messagesAt globalMessages).

(** Line 497: the prompt, from the content of [globalMessages]. *)
Definition exportPrompt (tokenMap : list string) (commonStore : CommonStore)
  (tracks : loc) : M string :=
  globalMessages <- exportMerge tracks ;;
  ret (JS.trim
         ("<pad> "
          ++ JS.join
               (map (Encoder.midiMessageToToken tokenMap commonStore)
                  globalMessages))%string).

(** The heap holds the track list [tracks] at [ref]. *)
Definition trackAt (h : heap) (l : loc) (t : Track) : Prop :=
  exists raw,
    h !! l = Some (TrackObject (id t) (mainInstrument t) (content t) raw
                     (offsetTime t) (contentTime t))
    /\ h !! raw = Some (MessageArray (rawContent t)).

Definition represents (h : heap) (ref : loc) (tracks : list Track) : Prop :=
  exists locs,
    h !! ref = Some (TrackArray locs) /\ Forall2 (trackAt h) locs tracks.

End HeapExport.

(** ** What the export writes *)

Module HeapExportFacts.
Import Composition HeapExport.

Lemma bind_run {A B} (c : M A) (k : A -> M B) (h h' : heap) (x : A) :
  c h = Some (x, h') -> bind c k h = k x h'.
Proof. unfold bind. intros ->. reflexivity. Qed.

Lemma read_run {A} (get : heap -> option A) (h : heap) (v : A) :
  get h = Some v -> read get h = Some (v, h).
Proof. unfold read. intros ->. reflexivity. Qed.

Lemma numbersAt_lookup (l : loc) (h : heap) (v : list Z) :
  h !! l = Some (NumberArray v) -> numbersAt l h = Some v.
Proof. unfold numbersAt. intros ->. reflexivity. Qed.

Lemma messagesAt_lookup (l : loc) (h : heap) (v : list MidiMessage) :
  h !! l = Some (MessageArray v) -> messagesAt l h = Some v.
Proof. unfold messagesAt. intros ->. reflexivity. Qed.

Lemma tracksAt_lookup (l : loc) (h : heap) (v : list loc) :
  h !! l = Some (TrackArray v) -> tracksAt l h = Some v.
Proof. unfold tracksAt. intros ->. reflexivity. Qed.

Lemma pushNumber_run (l : loc) (x : Z) (h : heap) (v : list Z) :
  h !! l = Some (NumberArray v) ->
  pushNumber l x h = Some (tt, <[l := NumberArray (v ++ [x])]> h).
Proof.
  intros H. unfold pushNumber.
  rewrite (bind_run _ _ h h v) by (apply read_run, numbersAt_lookup, H).
  unfold writeNumbers. rewrite H. reflexivity.
Qed.

Lemma spliceNumber_run (l : loc) (i x : Z) (h : heap) (v : list Z) :
  h !! l = Some (NumberArray v) ->
  spliceNumber l i x h
  = Some (tt, <[l := NumberArray (JS.splice_insert i x v)]> h).
Proof.
  intros H. unfold spliceNumber.
  rewrite (bind_run _ _ h h v) by (apply read_run, numbersAt_lookup, H).
  unfold writeNumbers. rewrite H. reflexivity.
Qed.

Lemma spliceMessage_run (l : loc) (i : Z) (x : MidiMessage) (h : heap)
  (v : list MidiMessage) :
  h !! l = Some (MessageArray v) ->
  spliceMessage l i x h
  = Some (tt, <[l := MessageArray (JS.splice_insert i x v)]> h).
Proof.
  intros H. unfold spliceMessage.
  rewrite (bind_run _ _ h h v) by (apply read_run, messagesAt_lookup, H).
  unfold writeMessages. rewrite H. reflexivity.
Qed.

(** What a track of the store gives when read in a larger heap. *)
Lemma trackAt_weaken (h0 h : heap) (l : loc) (t : Track) :
  h0 ⊆ h -> trackAt h0 l t -> trackAt h l t.
Proof.
  intros Hsub [raw [H1 H2]]. exists raw.
  split; eapply lookup_weaken; eassumption.
Qed.

Lemma trackAt_offset (h : heap) (l : loc) (t : Track) :
  trackAt h l t -> offsetTimeOf l h = Some (offsetTime t).
Proof. intros [raw [H1 _]]. unfold offsetTimeOf. rewrite H1. reflexivity. Qed.

Lemma trackAt_raw (h : heap) (l : loc) (t : Track) :
  trackAt h l t ->
  exists raw, rawContentOf l h = Some raw
              /\ h !! raw = Some (MessageArray (rawContent t)).
Proof.
  intros [raw [H1 H2]]. exists raw. unfold rawContentOf. rewrite H1.
  split; [reflexivity|exact H2].
Qed.

(** *** The first pass *)

Section FirstPass.

Variables (h0 hb : heap) (ts : loc).
Hypothesis Hfresh : h0 !! ts = None.
Hypothesis Hsub : h0 ⊆ hb.

Let cell (l : list Z) : heap := <[ts := NumberArray l]> hb.

Lemma cell_sub (l : list Z) : h0 ⊆ cell l.
Proof. apply insert_subseteq_r; assumption. Qed.

Lemma cell_numbers (l : list Z) : cell l !! ts = Some (NumberArray l).
Proof. apply lookup_insert_eq. Qed.

Lemma cell_push (l : list Z) (x : Z) :
  pushNumber ts x (cell l) = Some (tt, cell (l ++ [x])).
Proof.
  rewrite (pushNumber_run ts x (cell l) l) by apply cell_numbers.
  unfold cell. rewrite insert_insert_eq. reflexivity.
Qed.

Lemma firstPass_inner_run (track raw : loc) (t : Track) :
  trackAt h0 track t ->
  h0 !! raw = Some (MessageArray (rawContent t)) ->
  forall fuel i acc l,
    (length (rawContent t) - i < fuel)%nat ->
    exists acc',
      forOfFrom fuel (messagesAt raw) i (firstPassStep track ts) acc (cell l)
      = Some (acc',
              cell (Merger.pushElapsed (offsetTime t) acc
                      (drop i (rawContent t)) l)).
Proof.
  intros Htrack Hraw fuel.
  induction fuel as [|fuel IH]; intros i acc l Hfuel; [lia|].
  simpl forOfFrom.
  rewrite (bind_run _ _ (cell l) (cell l) (rawContent t)).
  2:{ apply read_run, messagesAt_lookup.
      eapply lookup_weaken; [exact Hraw|apply cell_sub]. }
  destruct (rawContent t !! i) as [msg|] eqn:Hmsg.
  - rewrite (drop_S _ _ _ Hmsg). simpl Merger.pushElapsed.
    assert (Hlen : (i < length (rawContent t))%nat)
      by (eapply lookup_lt_Some; exact Hmsg).
    unfold firstPassStep at 1.
    destruct (messageType msg).
    + rewrite (bind_run _ _ (cell l) (cell l) acc) by reflexivity.
      apply IH. lia.
    + rewrite (bind_run _ _ (cell l) (cell l) acc) by reflexivity.
      apply IH. lia.
    + rewrite (bind_run _ _ (cell l) (cell (l ++ [offsetTime t + (acc + value msg)]))
                 (acc + value msg)).
      * apply IH. lia.
      * cbv zeta.
        rewrite (bind_run _ _ (cell l) (cell l) (offsetTime t)).
        2:{ apply read_run, trackAt_offset.
            eapply trackAt_weaken; [apply cell_sub|exact Htrack]. }
        rewrite (bind_run _ _ _ _ tt (cell_push l _)). reflexivity.
    + rewrite (bind_run _ _ (cell l) (cell l) acc) by reflexivity.
      apply IH. lia.
  - exists acc. rewrite drop_ge by (apply lookup_ge_None; exact Hmsg).
    reflexivity.
Qed.

Lemma firstPass_track_run (track : loc) (t : Track) (l : list Z) :
  trackAt h0 track t ->
  firstPassTrack ts tt track (cell l)
  = Some (tt,
          cell (Merger.pushElapsed (offsetTime t) 0 (rawContent t)
                  (l ++ [offsetTime t]))).
Proof.
  intros Htrack. unfold firstPassTrack.
  assert (Htrack' : forall l', trackAt (cell l') track t)
    by (intros l'; eapply trackAt_weaken; [apply cell_sub|exact Htrack]).
  rewrite (bind_run _ _ (cell l) (cell l) (offsetTime t))
    by (apply read_run, trackAt_offset, Htrack').
  rewrite (bind_run _ _ _ _ tt (cell_push l _)).
  destruct Htrack as [raw [Hobj Hraw]].
  rewrite (bind_run _ _ _ (cell (l ++ [offsetTime t])) raw).
  2:{ apply read_run. unfold rawContentOf.
      rewrite (lookup_weaken _ _ _ _ Hobj (cell_sub _)). reflexivity. }
  destruct (firstPass_inner_run track raw t
              (ex_intro _ raw (conj Hobj Hraw)) Hraw
              (S (length (rawContent t))) 0%nat 0 (l ++ [offsetTime t]))
    as [acc' Hrun]; [lia|].
  assert (Hfor : forOf (messagesAt raw) (firstPassStep track ts) 0
                   (cell (l ++ [offsetTime t]))
                 = Some (acc',
                         cell (Merger.pushElapsed (offsetTime t) 0
                                 (rawContent t) (l ++ [offsetTime t])))).
  { unfold forOf.
    rewrite (bind_run _ _ _ (cell (l ++ [offsetTime t])) (rawContent t)).
    - exact Hrun.
    - apply read_run, messagesAt_lookup.
      eapply lookup_weaken; [exact Hraw|apply cell_sub]. }
  rewrite (bind_run _ _ _ _ _ Hfor). reflexivity.
Qed.

Lemma firstPass_outer_run (st : loc) (slocs : list loc) (stracks : list Track) :
  st <> ts -> hb !! st = Some (TrackArray slocs) ->
  Forall2 (trackAt h0) slocs stracks ->
  forall fuel i l,
    (length slocs - i < fuel)%nat ->
    forOfFrom fuel (tracksAt st) i (firstPassTrack ts) tt (cell l)
    = Some (tt, cell (Merger.collectTimestamps (drop i stracks) l)).
Proof.
  intros Hne Hst Hall fuel.
  induction fuel as [|fuel IH]; intros i l Hfuel; [lia|].
  simpl forOfFrom.
  rewrite (bind_run _ _ (cell l) (cell l) slocs).
  2:{ apply read_run, tracksAt_lookup. unfold cell.
      rewrite lookup_insert_ne by congruence. exact Hst. }
  destruct (slocs !! i) as [track|] eqn:Hi.
  - destruct (Forall2_lookup_l _ _ _ _ _ Hall Hi) as [t [Ht Htrack]].
    rewrite (drop_S _ _ _ Ht). simpl Merger.collectTimestamps.
    rewrite (bind_run _ _ _ _ _ (firstPass_track_run track t l Htrack)).
    apply IH. apply lookup_lt_Some in Hi. lia.
  - rewrite drop_ge; [reflexivity|].
    rewrite <- (Forall2_length _ _ _ Hall). apply lookup_ge_None. exact Hi.
Qed.

End FirstPass.

(** *** The second pass *)

Section SecondPass.

Variables (h0 hb : heap) (gm sts : loc).
Hypothesis Hgm : h0 !! gm = None.
Hypothesis Hsts : h0 !! sts = None.
Hypothesis Hne : gm <> sts.
Hypothesis Hsub : h0 ⊆ hb.

Let cells (g : list MidiMessage) (ts : list Z) : heap :=
  <[sts := NumberArray ts]> (<[gm := MessageArray g]> hb).

Lemma cells_sub (g : list MidiMessage) (ts : list Z) : h0 ⊆ cells g ts.
Proof. apply insert_subseteq_r, insert_subseteq_r; assumption. Qed.

Lemma cells_numbers (g : list MidiMessage) (ts : list Z) :
  cells g ts !! sts = Some (NumberArray ts).
Proof. apply lookup_insert_eq. Qed.

Lemma cells_messages (g : list MidiMessage) (ts : list Z) :
  cells g ts !! gm = Some (MessageArray g).
Proof.
  unfold cells. rewrite lookup_insert_ne by congruence. apply lookup_insert_eq.
Qed.

Lemma cells_spliceMessage (g : list MidiMessage) (ts : list Z) (i : Z)
  (x : MidiMessage) :
  spliceMessage gm i x (cells g ts)
  = Some (tt, cells (JS.splice_insert i x g) ts).
Proof.
  rewrite (spliceMessage_run gm i x _ g) by apply cells_messages.
  unfold cells. rewrite insert_insert_ne by congruence.
  rewrite insert_insert_eq. reflexivity.
Qed.

Lemma cells_spliceNumber (g : list MidiMessage) (ts : list Z) (i x : Z) :
  spliceNumber sts i x (cells g ts)
  = Some (tt, cells g (JS.splice_insert i x ts)).
Proof.
  rewrite (spliceNumber_run sts i x _ ts) by apply cells_numbers.
  unfold cells. rewrite insert_insert_eq. reflexivity.
Qed.

Lemma secondPass_inner_run (track raw : loc) (t : Track) :
  trackAt h0 track t ->
  h0 !! raw = Some (MessageArray (rawContent t)) ->
  forall fuel i cur acc g ts,
    (length (rawContent t) - i < fuel)%nat ->
    exists locals',
      forOfFrom fuel (messagesAt raw) i (secondPassStep track gm sts)
        (cur, acc) (cells g ts)
      = Some (locals',
              cells
                (fst (Merger.insertNotes (offsetTime t) cur acc
                        (drop i (rawContent t)) g ts))
                (snd (Merger.insertNotes (offsetTime t) cur acc
                        (drop i (rawContent t)) g ts))).
Proof.
  intros Htrack Hraw fuel.
  induction fuel as [|fuel IH]; intros i cur acc g ts Hfuel; [lia|].
  simpl forOfFrom.
  rewrite (bind_run _ _ (cells g ts) (cells g ts) (rawContent t)).
  2:{ apply read_run, messagesAt_lookup.
      eapply lookup_weaken; [exact Hraw|apply cells_sub]. }
  destruct (rawContent t !! i) as [msg|] eqn:Hmsg.
  - rewrite (drop_S _ _ _ Hmsg). simpl Merger.insertNotes.
    assert (Hlen : (i < length (rawContent t))%nat)
      by (eapply lookup_lt_Some; exact Hmsg).
    assert (Hnote :
      bind (ts0 <- read (numbersAt sts) ;;
            spliceMessage gm
              (JS.findIndex (fun t0 => cur <=? t0) ts0 + 1) msg ;;;
            spliceNumber sts
              (JS.findIndex (fun t0 => cur <=? t0) ts0 + 1) 0 ;;;
            ret (cur, acc))
        (fun s' =>
           forOfFrom fuel (messagesAt raw) (S i)
             (secondPassStep track gm sts) s')
        (cells g ts)
      = forOfFrom fuel (messagesAt raw) (S i) (secondPassStep track gm sts)
          (cur, acc)
          (cells
             (JS.splice_insert (JS.findIndex (fun t0 => cur <=? t0) ts + 1) msg g)
             (JS.splice_insert (JS.findIndex (fun t0 => cur <=? t0) ts + 1) 0 ts))).
    { apply bind_run.
      rewrite (bind_run _ _ (cells g ts) (cells g ts) ts)
        by (apply read_run, numbersAt_lookup, cells_numbers).
      rewrite (bind_run _ _ _ _ tt (cells_spliceMessage g ts _ msg)).
      rewrite (bind_run _ _ _ _ tt (cells_spliceNumber _ ts _ 0)).
      reflexivity. }
    unfold secondPassStep at 1. cbn [fst snd].
    destruct (messageType msg).
    + rewrite Hnote. apply IH. lia.
    + rewrite Hnote. apply IH. lia.
    + rewrite (bind_run _ _ (cells g ts) (cells g ts)
                 (offsetTime t + (acc + value msg), acc + value msg)).
      * apply IH. lia.
      * cbv zeta.
        rewrite (bind_run _ _ (cells g ts) (cells g ts) (offsetTime t)).
        -- reflexivity.
        -- apply read_run, trackAt_offset.
           eapply trackAt_weaken; [apply cells_sub|exact Htrack].
    + rewrite (bind_run _ _ (cells g ts) (cells g ts) (cur, acc)) by reflexivity.
      apply IH. lia.
  - exists (cur, acc). rewrite drop_ge by (apply lookup_ge_None; exact Hmsg).
    reflexivity.
Qed.

Lemma secondPass_track_run (track : loc) (t : Track) (g : list MidiMessage)
  (ts : list Z) :
  trackAt h0 track t ->
  secondPassTrack gm sts tt track (cells g ts)
  = Some (tt,
          cells
            (fst (Merger.insertNotes (offsetTime t) (offsetTime t) 0
                    (rawContent t) g ts))
            (snd (Merger.insertNotes (offsetTime t) (offsetTime t) 0
                    (rawContent t) g ts))).
Proof.
  intros Htrack. unfold secondPassTrack.
  rewrite (bind_run _ _ (cells g ts) (cells g ts) (offsetTime t)).
  2:{ apply read_run, trackAt_offset.
      eapply trackAt_weaken; [apply cells_sub|exact Htrack]. }
  destruct Htrack as [raw [Hobj Hraw]].
  rewrite (bind_run _ _ _ (cells g ts) raw).
  2:{ apply read_run. unfold rawContentOf.
      rewrite (lookup_weaken _ _ _ _ Hobj (cells_sub _ _)). reflexivity. }
  destruct (secondPass_inner_run track raw t
              (ex_intro _ raw (conj Hobj Hraw)) Hraw
              (S (length (rawContent t))) 0%nat (offsetTime t) 0 g ts)
    as [locals' Hrun]; [lia|].
  rewrite drop_0 in Hrun.
  assert (Hfor : forOf (messagesAt raw) (secondPassStep track gm sts)
                   (offsetTime t, 0) (cells g ts)
                 = Some (locals',
                         cells
                           (fst (Merger.insertNotes (offsetTime t) (offsetTime t)
                                   0 (rawContent t) g ts))
                           (snd (Merger.insertNotes (offsetTime t) (offsetTime t)
                                   0 (rawContent t) g ts)))).
  { unfold forOf.
    rewrite (bind_run _ _ _ (cells g ts) (rawContent t)).
    - exact Hrun.
    - apply read_run, messagesAt_lookup.
      eapply lookup_weaken; [exact Hraw|apply cells_sub]. }
  rewrite (bind_run _ _ _ _ _ Hfor). reflexivity.
Qed.

Lemma secondPass_outer_run (st : loc) (slocs : list loc) (stracks : list Track) :
  st <> gm -> st <> sts -> hb !! st = Some (TrackArray slocs) ->
  Forall2 (trackAt h0) slocs stracks ->
  forall fuel i g ts,
    (length slocs - i < fuel)%nat ->
    forOfFrom fuel (tracksAt st) i (secondPassTrack gm sts) tt (cells g ts)
    = Some (tt,
            cells
              (fst (Merger.insertAllNotes (drop i stracks) g ts))
              (snd (Merger.insertAllNotes (drop i stracks) g ts))).
Proof.
  intros Hst1 Hst2 Hst Hall fuel.
  induction fuel as [|fuel IH]; intros i g ts Hfuel; [lia|].
  simpl forOfFrom.
  rewrite (bind_run _ _ (cells g ts) (cells g ts) slocs).
  2:{ apply read_run, tracksAt_lookup. unfold cells.
      rewrite !lookup_insert_ne by congruence. exact Hst. }
  destruct (slocs !! i) as [track|] eqn:Hi.
  - destruct (Forall2_lookup_l _ _ _ _ _ Hall Hi) as [t [Ht Htrack]].
    rewrite (drop_S _ _ _ Ht). simpl Merger.insertAllNotes.
    rewrite (bind_run _ _ _ _ _ (secondPass_track_run track t g ts Htrack)).
    destruct (Merger.insertNotes (offsetTime t) (offsetTime t) 0 (rawContent t) g ts)
      as [g' ts'].
    apply IH. apply lookup_lt_Some in Hi. lia.
  - rewrite drop_ge; [reflexivity|].
    rewrite <- (Forall2_length _ _ _ Hall). apply lookup_ge_None. exact Hi.
Qed.

End SecondPass.

(** *** Sorting the copy of the track array *)

Lemma sort_insert_Forall2 {A B} (R : A -> B -> Prop)
  (cmpA : A -> A -> Z) (cmpB : B -> B -> Z) (x : A) (y : B)
  (l1 : list A) (l2 : list B) :
  (forall a b a' b', R a a' -> R b b' -> cmpA a b = cmpB a' b') ->
  R x y -> Forall2 R l1 l2 ->
  Forall2 R (JS.sort_insert cmpA x l1) (JS.sort_insert cmpB y l2).
Proof.
  intros Hcmp Hxy Hall. induction Hall as [|a b l1 l2 Hab Hall IH]; simpl.
  - constructor; [exact Hxy|constructor].
  - rewrite (Hcmp x a y b Hxy Hab).
    destruct (cmpB y b <=? 0).
    + constructor; [exact Hxy|]. constructor; assumption.
    + constructor; assumption.
Qed.

Lemma sort_Forall2 {A B} (R : A -> B -> Prop)
  (cmpA : A -> A -> Z) (cmpB : B -> B -> Z) (l1 : list A) (l2 : list B) :
  (forall a b a' b', R a a' -> R b b' -> cmpA a b = cmpB a' b') ->
  Forall2 R l1 l2 -> Forall2 R (JS.sort cmpA l1) (JS.sort cmpB l2).
Proof.
  intros Hcmp Hall. induction Hall as [|a b l1 l2 Hab Hall IH]; simpl.
  - constructor.
  - apply sort_insert_Forall2; assumption.
Qed.

Definition keyedAt (h : heap) (k : Z * loc) (t : Track) : Prop :=
  fst k = offsetTime t /\ trackAt h (snd k) t.

Lemma readOffsets_run (h0 h : heap) (locs : list loc) (tracks : list Track) :
  h0 ⊆ h -> Forall2 (trackAt h0) locs tracks ->
  exists keyed,
    readOffsets locs h = Some (keyed, h) /\ Forall2 (keyedAt h0) keyed tracks.
Proof.
  intros Hsub Hall. induction Hall as [|l t locs tracks Hlt Hall IH]; simpl.
  - exists []. split; [reflexivity|constructor].
  - destruct IH as [keyed [Hrun Hkeyed]].
    exists ((offsetTime t, l) :: keyed). split.
    + rewrite (bind_run _ _ h h (offsetTime t)).
      * rewrite (bind_run _ _ _ _ _ Hrun). reflexivity.
      * apply read_run, trackAt_offset. eapply trackAt_weaken; eassumption.
    + constructor; [split; [reflexivity|exact Hlt]|exact Hkeyed].
Qed.

Lemma sorted_keyed_tracks (h0 : heap) (keyed : list (Z * loc))
  (tracks : list Track) :
  Forall2 (keyedAt h0) keyed tracks ->
  Forall2 (trackAt h0)
    (map snd (JS.sort (fun a b => fst a - fst b) keyed))
    (Merger.sortTracks tracks).
Proof.
  intros Hall. apply Forall2_fmap_l.
  apply (Forall2_impl (keyedAt h0)); [|intros k t [_ H]; exact H].
  apply sort_Forall2; [|exact Hall].
  intros a b a' b' [Ha _] [Hb _]. rewrite Ha, Hb. reflexivity.
Qed.

(** *** The whole export *)

(** The export returns the merged list of the functional model and
    leaves every object of the heap it started from as it was: its
    writes go to the four arrays it allocates. *)
Lemma exportMerge_run (h : heap) (ref : loc) (tracks : list Track) :
  represents h ref tracks ->
  exists h',
    exportMerge ref h = Some (Merger.mergeTracks tracks, h') /\ h ⊆ h'.
Proof.
  intros [locs [Href Hall]].
  unfold exportMerge.
  (* timestamp *)
  set (l1 := fresh (dom h)).
  assert (H1 : h !! l1 = None) by (apply not_elem_of_dom, is_fresh).
  set (h1 := <[l1 := NumberArray []]> h).
  rewrite (bind_run _ _ h h1 l1) by reflexivity.
  (* sortedTracks *)
  set (l2 := fresh (dom h1)).
  assert (H2 : h1 !! l2 = None) by (apply not_elem_of_dom, is_fresh).
  apply lookup_insert_None in H2. destruct H2 as [H2 H12].
  set (h2 := <[l2 := TrackArray locs]> h1).
  assert (Hslice : sliceTracks ref h1 = Some (l2, h2)).
  { unfold sliceTracks. rewrite (bind_run _ _ h1 h1 locs); [reflexivity|].
    apply read_run, tracksAt_lookup. unfold h1.
    rewrite lookup_insert_ne by congruence. exact Href. }
  rewrite (bind_run _ _ _ _ _ Hslice).
  assert (Hsub2 : h ⊆ h2)
    by (apply insert_subseteq_r; [exact H2|apply insert_subseteq_r; [exact H1|reflexivity]]).
  destruct (readOffsets_run h h2 locs tracks Hsub2 Hall) as [keyed [Hkeyed Hk]].
  set (slocs := map snd (JS.sort (fun a b => fst a - fst b) keyed)).
  set (stracks := Merger.sortTracks tracks).
  assert (Hsorted : Forall2 (trackAt h) slocs stracks)
    by (apply sorted_keyed_tracks; exact Hk).
  set (hb := <[l2 := TrackArray slocs]> h).
  assert (Hsubb : h ⊆ hb) by (apply insert_subseteq_r; [exact H2|reflexivity]).
  assert (Hsort : sortTracksInPlace l2 h2
                  = Some (tt, <[l1 := NumberArray []]> hb)).
  { unfold sortTracksInPlace.
    rewrite (bind_run _ _ h2 h2 locs)
      by (apply read_run, tracksAt_lookup, lookup_insert_eq).
    rewrite (bind_run _ _ _ _ _ Hkeyed).
    unfold writeTracks, h2. rewrite lookup_insert_eq.
    rewrite insert_insert_eq. unfold h1, hb.
    rewrite insert_insert_ne by congruence. reflexivity. }
  rewrite (bind_run _ _ _ _ _ Hsort).
  (* first pass *)
  set (stamps := Merger.collectTimestamps stracks []).
  set (h4 := <[l1 := NumberArray stamps]> hb).
  assert (Hfirst : firstPass l2 l1 (<[l1 := NumberArray []]> hb) = Some (tt, h4)).
  { unfold firstPass, forOf.
    rewrite (bind_run _ _ _ (<[l1 := NumberArray []]> hb) slocs).
    - apply (firstPass_outer_run h hb l1 H1 Hsubb l2 slocs stracks);
        [congruence|apply lookup_insert_eq|exact Hsorted|lia].
    - apply read_run, tracksAt_lookup.
      rewrite lookup_insert_ne by congruence. apply lookup_insert_eq. }
  rewrite (bind_run _ _ _ _ _ Hfirst).
  assert (Hsub4 : h ⊆ h4) by (apply insert_subseteq_r; assumption).
  (* sortedTimestamp *)
  set (l3 := fresh (dom h4)).
  assert (H3 : h4 !! l3 = None) by (apply not_elem_of_dom, is_fresh).
  assert (H3' := H3). unfold h4, hb in H3'.
  apply lookup_insert_None in H3'. destruct H3' as [H3' H13].
  apply lookup_insert_None in H3'. destruct H3' as [H3' H23].
  set (sk := Merger.sortTimestamps stamps).
  assert (Hslice3 : sliceNumbers l1 h4 = Some (l3, <[l3 := NumberArray stamps]> h4)).
  { unfold sliceNumbers. rewrite (bind_run _ _ h4 h4 stamps); [reflexivity|].
    apply read_run, numbersAt_lookup, lookup_insert_eq. }
  rewrite (bind_run _ _ _ _ _ Hslice3).
  assert (Hsort3 : sortNumbersInPlace l3 (<[l3 := NumberArray stamps]> h4)
                   = Some (tt, <[l3 := NumberArray sk]> h4)).
  { unfold sortNumbersInPlace.
    rewrite (bind_run _ _ _ (<[l3 := NumberArray stamps]> h4) stamps)
      by (apply read_run, numbersAt_lookup, lookup_insert_eq).
    unfold writeNumbers. rewrite lookup_insert_eq, insert_insert_eq.
    reflexivity. }
  rewrite (bind_run _ _ _ _ _ Hsort3).
  rewrite (bind_run _ _ _ (<[l3 := NumberArray sk]> h4) sk)
    by (apply read_run, numbersAt_lookup, lookup_insert_eq).
  (* globalMessages *)
  set (h6 := <[l3 := NumberArray sk]> h4).
  set (l4 := fresh (dom h6)).
  assert (H4 : h6 !! l4 = None) by (apply not_elem_of_dom, is_fresh).
  assert (H4' := H4). unfold h6, h4, hb in H4'.
  apply lookup_insert_None in H4'. destruct H4' as [H4' H34].
  apply lookup_insert_None in H4'. destruct H4' as [H4' H14].
  apply lookup_insert_None in H4'. destruct H4' as [H4' H24].
  rewrite (bind_run _ _ h6 (<[l4 := MessageArray (Merger.skeleton sk)]> h6) l4)
    by reflexivity.
  assert (Hcells : <[l4 := MessageArray (Merger.skeleton sk)]> h6
                   = <[l3 := NumberArray sk]>
                       (<[l4 := MessageArray (Merger.skeleton sk)]> h4)).
  { unfold h6. apply insert_insert_ne. congruence. }
  rewrite Hcells.
  (* second pass *)
  set (final := Merger.insertAllNotes stracks (Merger.skeleton sk) sk).
  set (h8 := <[l3 := NumberArray (snd final)]>
               (<[l4 := MessageArray (fst final)]> h4)).
  assert (Hsecond :
    secondPass l2 l4 l3
      (<[l3 := NumberArray sk]> (<[l4 := MessageArray (Merger.skeleton sk)]> h4))
    = Some (tt, h8)).
  { unfold secondPass, forOf.
    rewrite (bind_run _ _ _
               (<[l3 := NumberArray sk]>
                  (<[l4 := MessageArray (Merger.skeleton sk)]> h4)) slocs).
    - apply (secondPass_outer_run h h4 l4 l3 H4' H3' ltac:(congruence) Hsub4
               l2 slocs stracks);
        [congruence|congruence| |exact Hsorted|lia].
      unfold h4, hb. rewrite lookup_insert_ne by congruence.
      apply lookup_insert_eq.
    - apply read_run, tracksAt_lookup.
      rewrite !lookup_insert_ne by congruence.
      unfold h4, hb. rewrite lookup_insert_ne by congruence.
      apply lookup_insert_eq. }
  rewrite (bind_run _ _ _ _ _ Hsecond).
  exists h8. split.
  - unfold read, messagesAt, h8.
    rewrite lookup_insert_ne by congruence. rewrite lookup_insert_eq.
    reflexivity.
  - unfold h8. apply insert_subseteq_r; [exact H3'|].
    apply insert_subseteq_r; [exact H4'|exact Hsub4].
Qed.

End HeapExportFacts.
(** ** When a wait has a token *)

Module TokenFacts.
Import Composition.

#[local] Arguments String.append !_ _ / : simpl nomatch.

Lemma append_empty (a b : string) :
  (a ++ b)%string = EmptyString -> a = EmptyString /\ b = EmptyString.
Proof. destruct a; simpl; [tauto|discriminate]. Qed.

(** An elapsed time that is not negative has no token exactly when it
    rounds to zero time units. *)
Lemma elapsed_token_empty (tokenMap : list string) (commonStore : CommonStore)
  (msg : MidiMessage) :
  messageType msg = ElapsedTime -> 0 <= value msg ->
  (Encoder.midiMessageToToken tokenMap commonStore msg = ""%string
   <-> value msg < 4).
Proof.
  intros Hty Hd. rewrite Encoder.midiMessageToToken_int_eq.
  unfold Encoder.midiMessageToToken_int. rewrite Hty.
  set (time := (2 * value msg + 8) / 16).
  assert (Htime : 0 <= time) by (apply Z.div_pos; lia).
  assert (Hz : time = 0 <-> value msg < 4).
  { unfold time. split; intros H.
    - apply Z.div_small_iff in H; lia.
    - apply Z.div_small. lia. }
  set (num := time / 125).
  assert (Hnum : 0 <= num) by (apply Z.div_pos; lia).
  pose proof (Z.div_mod time 125 ltac:(lia)) as Hdm.
  pose proof (Z.mod_pos_bound time 125 ltac:(lia)) as Hm.
  fold num in Hdm.
  rewrite EncoderFacts.appendMaxWaits_join. simpl String.append.
  split.
  - intros H. apply Hz.
    destruct (Z.ltb_spec 0 (time - num * 125)) as [Hr|Hr].
    + apply append_empty in H. destruct H as [_ H]. discriminate.
    + destruct (Z.to_nat num) as [|n] eqn:Hn; [lia|].
      simpl in H. discriminate.
  - intros H. apply Hz in H.
    assert (num = 0) by (unfold num; rewrite H; reflexivity).
    replace (Z.to_nat num) with O by lia.
    destruct (Z.ltb_spec 0 (time - num * 125)); [lia|reflexivity].
Qed.



End TokenFacts.

(** ** The other handlers of the editor *)

From Stdlib Require Import HexadecimalZ Permutation.

Module MoreHandlers.
Import Composition Handlers.

(** The view fields of the store: the zoom of the slider, the time at
    the left edge of the view and the time of the play-start marker. *)
Record ViewState := mkViewState {
  trackScale : R;
  trackCurrentTime : R;
  trackPlayStartTime : Z
}.

Definition scaleMin : R := (5 / 100)%R.
Definition scaleMax : R := 3%R.

(** Line 214. *)
Definition scaleOf (v : ViewState) : R :=
  ((scaleMin + scaleMax) - trackScale v)%R.

(** Lines 242-246: the time the visible tracks area spans and the width
    of the current-time control, in a container of width
    [viewControlsContainerWidth]. *)
Definition timeOfTracksWidth (tracksWidth scale : R) : R :=
  (IZR (JS.Math_floor (tracksWidth / IZR snapValue)) * IZR baseMoveTime
   * scale)%R.

Definition currentTimeControlWidth (viewControlsContainerWidth scale : R)
  (s : CommonStore) : R :=
  if Rlt_dec (timeOfTracksWidth viewControlsContainerWidth scale)
       (IZR (trackTotalTime s))
  then (timeOfTracksWidth viewControlsContainerWidth scale
        / IZR (trackTotalTime s) * viewControlsContainerWidth)%R
  else 0%R.

(** The drag handler [onStop] of the play-start marker, lines 327-334. *)
Definition playStartOnStop (scale delta : R) (s : CommonStore) (v : ViewState)
  : ViewState :=
  let offsetTime := requestedOffset scale delta in
  let offsetTime :=
    Z.min (Z.max offsetTime (- trackPlayStartTime v))
      (trackTotalTime s - trackPlayStartTime v) in
  mkViewState (trackScale v) (trackCurrentTime v)
    (trackPlayStartTime v + offsetTime).

(** The messages of a recording as they arrive, one call of
    [midiMessageHandler] each; the effects are collected in order. *)
Section WithComposition.

Variable InstrumentTypeNameMap : list string.
Variable InstrumentTypeTokenMap : list string.
Variable tracksMinimalTotalTime : Z.

Fixpoint handleMessages (msgs : list MidiMessage) (e : Editor)
  : Editor * list Effect :=
  match msgs with
  | [] => (e, [])
  | data :: rest =>
      let '(e1, fx1) :=
        midiMessageHandler InstrumentTypeNameMap InstrumentTypeTokenMap data e in
      let '(e2, fx2) := handleMessages rest e1 in
      (e2, fx1 ++ fx2)
  end.

(** The play button of a track, lines 393-404. *)
Definition playClick (track : Track) (e : Editor) : Editor * list Effect :=
  let s := flushMidiRecordingContent tracksMinimalTotalTime (commonStore e) in
  let s := setRecordingTrackId ""%string s in
  if String.eqb (playingTrackId s) (id track) then
    (mkEditor (setPlayingTrackId ""%string s)
       (dropRecordingTime e) (selectedTrackId e), [])
  else
    (mkEditor (setPlayingTrackId (id track) s) (dropRecordingTime e) (id track),
     []).

(** The delete button of a track, lines 405-410. *)
Definition deleteClick (track : Track) (s : CommonStore) : CommonStore :=
  refreshTracksTotalTime tracksMinimalTotalTime
    (setTracks
       (List.filter (fun t => negb (String.eqb (id t) (id track))) (tracks s))
       s).

(** The button [New Track], lines 427-436; [uuid] is the id that [uuid()]
    returns. *)
Definition newTrackClick (uuid : string) (s : CommonStore) : CommonStore :=
  setTracks (tracks s ++ [mkTrack uuid ""%string ""%string [] 0 0]) s.

(** The button [Clear All], lines 262-268. *)
Definition clearAllClick (s : CommonStore) (v : ViewState)
  : CommonStore * ViewState :=
  (setTrackTotalTime tracksMinimalTotalTime (setTracks [] s),
   mkViewState 1%R 0%R 0).

End WithComposition.

End MoreHandlers.

(** * Properties of the editor *)

(** Sample data for the concrete instances below. *)
Module Samples.
Import Composition.

(** A token table and a name table of three instruments. *)
Definition tokenMap : list string := ["p"; "g"; "v"]%string.
Definition nameMap : list string := ["Piano"; "Guitar"; "Violin"]%string.

Definition noteOn (n v : Z) : MidiMessage := mkMidiMessage NoteOn n v 0 0.
Definition noteOff (n v : Z) : MidiMessage := mkMidiMessage NoteOff n v 0 0.

Definition idleStore (tracks : list Track) (instrumentType : Z) : CommonStore :=
  mkCommonStore tracks 5000 ""%string ""%string ""%string [] instrumentType 0
    ""%string.

End Samples.

Import Composition.

(** ** Velocity quantizer *)

(** C7.  With 12 bins, 128 velocities and exponent 0.5 the quantizer
    sends velocity 0 to bin 0 and velocity 127 to bin 11, the last one,
    and every integer velocity to a bin between 0 and 11. *)
Theorem velocityToBin_range :
  Quantizer.velocityToBin 0 = 0
  /\ Quantizer.velocityToBin 127 = Quantizer.velocityBins - 1
  /\ forall velocity : Z,
       0 <= Quantizer.velocityToBin velocity <= Quantizer.velocityBins - 1.
Proof.
  split; [|split].
  - rewrite Quantizer.velocityToBin_int_eq. vm_compute. reflexivity.
  - rewrite Quantizer.velocityToBin_int_eq. vm_compute. reflexivity.
  - intros velocity. rewrite Quantizer.velocityToBin_int_eq.
    change (Quantizer.velocityBins - 1) with 11.
    apply Quantizer.velocityToBin_int_spec.
Qed.

(** C8.  The quantizer is monotonic: a velocity that is not smaller gets
    a bin that is not smaller.  The bin is a function of the velocity
    alone. *)
Theorem velocityToBin_monotone (v1 v2 : Z) :
  v1 <= v2 -> Quantizer.velocityToBin v1 <= Quantizer.velocityToBin v2.
Proof. apply Quantizer.velocityToBin_le. Qed.

Lemma velocityToBin_monotone_witness :
  Quantizer.velocityToBin 10 <= Quantizer.velocityToBin 100.
Proof. apply (velocityToBin_monotone 10 100). lia. Defined.

(** ** Token encoder *)

(** C4.  An elapsed time of [d >= 0] milliseconds is [round (d / 8)]
    units.  The encoder writes [floor (units / 125)] tokens [t125] and
    then the token of the remainder [units mod 125] when that is
    positive; the unit counts of the tokens add up to [units] and none
    exceeds 125. *)
Theorem elapsed_time_tokens (tokenMap : list string) (commonStore : CommonStore)
  (msg : MidiMessage) :
  messageType msg = ElapsedTime -> 0 <= value msg ->
  let units := JS.Math_round (IZR (value msg) / 8) in
  let full := JS.Math_floor (IZR units / 125) in
  let r := units mod 125 in
  Encoder.midiMessageToToken tokenMap commonStore msg
  = JS.join (map EncoderFacts.waitToken (EncoderFacts.waitUnits (value msg)))
  /\ EncoderFacts.waitUnits (value msg)
     = repeat 125 (Z.to_nat full) ++ (if 0 <? r then [r] else [])
  /\ 0 <= full
  /\ EncoderFacts.sumUnits (EncoderFacts.waitUnits (value msg)) = units
  /\ Forall (fun u => 0 < u <= 125) (EncoderFacts.waitUnits (value msg)).
Proof.
  intros Hty Hd units full r.
  assert (Hu : units = (2 * value msg + 8) / 16) by apply EncoderFacts.units_int.
  assert (Hu0 : 0 <= units) by (rewrite Hu; apply Z.div_pos; lia).
  assert (Hf : full = units / 125) by (apply (Math_floor_quot units 125); lia).
  assert (Hf0 : 0 <= full) by (rewrite Hf; apply Z.div_pos; lia).
  assert (Hr : 0 <= r < 125) by (apply Z.mod_pos_bound; lia).
  assert (Hdm : units = 125 * full + r)
    by (rewrite Hf; apply Z.div_mod; lia).
  assert (Hw : EncoderFacts.waitUnits (value msg)
               = repeat 125 (Z.to_nat full) ++ (if 0 <? r then [r] else []))
    by reflexivity.
  split; [|split; [exact Hw|split; [exact Hf0|split]]].
  - unfold Encoder.midiMessageToToken, Encoder.minimalMoveTime. rewrite Hty.
    fold units. fold full.
    replace (units - full * 125) with r by lia.
    rewrite Hw, map_app, EncoderFacts.join_app.
    rewrite EncoderFacts.appendMaxWaits_join.
    destruct (0 <? r); simpl.
    + unfold EncoderFacts.waitToken.
      rewrite !EncoderFacts.string_app_assoc. reflexivity.
    + rewrite EncoderFacts.string_app_nil_r. reflexivity.
  - rewrite Hw, EncoderFacts.sumUnits_app, EncoderFacts.sumUnits_repeat.
    destruct (Z.ltb_spec 0 r); simpl; lia.
  - rewrite Hw. apply Forall_app. split.
    + apply List.Forall_forall. intros u Hu'. apply repeat_spec in Hu'. lia.
    + destruct (Z.ltb_spec 0 r); constructor; [lia|constructor].
Qed.

Lemma elapsed_time_tokens_witness :
  Encoder.midiMessageToToken Samples.tokenMap (Samples.idleStore [] 0)
    (elapsed 2020)
  = JS.join (map EncoderFacts.waitToken (EncoderFacts.waitUnits 2020))
  /\ EncoderFacts.waitUnits 2020
     = repeat 125
         (Z.to_nat (JS.Math_floor (IZR (JS.Math_round (IZR 2020 / 8)) / 125)))
       ++ (if 0 <? JS.Math_round (IZR 2020 / 8) mod 125
           then [JS.Math_round (IZR 2020 / 8) mod 125] else [])
  /\ 0 <= JS.Math_floor (IZR (JS.Math_round (IZR 2020 / 8)) / 125)
  /\ EncoderFacts.sumUnits (EncoderFacts.waitUnits 2020)
     = JS.Math_round (IZR 2020 / 8)
  /\ Forall (fun u => 0 < u <= 125) (EncoderFacts.waitUnits 2020).
Proof.
  apply (elapsed_time_tokens Samples.tokenMap (Samples.idleStore [] 0)
           (elapsed 2020)); [reflexivity|simpl; lia].
Defined.

(** An elapsed time of 2020 ms: 253 units, two full waits and [t3]. *)
Example elapsed_2020_tokens :
  Encoder.midiMessageToToken Samples.tokenMap (Samples.idleStore [] 0)
    (elapsed 2020)
  = "t125 t125 t3 "%string.
Proof. rewrite Encoder.midiMessageToToken_int_eq. vm_compute. reflexivity. Qed.

(** C6, as the code has it.  The velocity of a note event is clamped to
    0..127 before it is quantized: a note event encodes as the same event
    with its velocity clamped.  The encoder is a total function; it does
    not clamp the note number. *)
Theorem velocity_clamped_in_token (tokenMap : list string)
  (commonStore : CommonStore) (msg : MidiMessage) :
  Encoder.midiMessageToToken tokenMap commonStore msg
  = Encoder.midiMessageToToken tokenMap commonStore
      (withVelocity (Z.max 0 (Z.min (velocity msg) 127)) msg).
Proof.
  unfold Encoder.midiMessageToToken. simpl.
  destruct (messageType msg); try reflexivity;
    rewrite (Quantizer.velocityToBin_clamp (velocity msg)); reflexivity.
Qed.

(** The note number is written as it comes: note 200 is [c8], where the
    clamped note 127 would be [7f]. *)
Lemma note_not_clamped_in_token :
  Encoder.midiMessageToToken Samples.tokenMap (Samples.idleStore [] 0)
    (Samples.noteOn 200 64)
  <> Encoder.midiMessageToToken Samples.tokenMap (Samples.idleStore [] 0)
       (Samples.noteOn (Z.max 0 (Z.min 200 127)) 64).
Proof. rewrite !Encoder.midiMessageToToken_int_eq. vm_compute. discriminate. Qed.

(** A control-change value is not clamped either: with three instruments
    the value 254 selects instrument 4, the clamped value 127 selects
    instrument 2. *)
Example control_change_not_clamped :
  instrumentType
    (Handlers.commonStore
       (fst (Handlers.midiMessageHandler Samples.nameMap Samples.tokenMap
               (mkMidiMessage ControlChange 0 0 254 0)
               (Handlers.mkEditor (Samples.idleStore [] 0) false ""%string))))
  = 4
  /\ instrumentType
       (Handlers.commonStore
          (fst (Handlers.midiMessageHandler Samples.nameMap Samples.tokenMap
                  (mkMidiMessage ControlChange 0 0 127 0)
                  (Handlers.mkEditor (Samples.idleStore [] 0) false ""%string))))
     = 2.
Proof.
  unfold Handlers.midiMessageHandler. simpl.
  change (Z.of_nat 3 - 1) with 2.
  replace (254 / 127 * 2)%R with (IZR 4 / IZR 1)%R by field.
  replace (127 / 127 * 2)%R with (IZR 2 / IZR 1)%R by field.
  rewrite !Math_round_quot by lia. split; reflexivity.
Qed.

(** ** Track store *)

(** After the total time has been recomputed every track ends inside
    the timeline, which is at least the minimal length. *)
Lemma refreshTracksTotalTime_covers (tracksMinimalTotalTime : Z)
  (s : CommonStore) (track : Track) :
  In track (tracks s) ->
  tracksMinimalTotalTime
  <= trackTotalTime (Handlers.refreshTracksTotalTime tracksMinimalTotalTime s)
  /\ offsetTime track + contentTime track
     <= trackTotalTime (Handlers.refreshTracksTotalTime tracksMinimalTotalTime s).
Proof.
  unfold Handlers.refreshTracksTotalTime. simpl.
  generalize tracksMinimalTotalTime as floor.
  induction (tracks s) as [|t l IH]; intros floor Hin; [destruct Hin|].
  simpl.
  assert (Hge : forall l0 a,
            a <= fold_left (fun total t0 => Z.max total (offsetTime t0 + contentTime t0)) l0 a).
  { clear. induction l0 as [|t0 l0 IH0]; intros a; simpl; [lia|].
    specialize (IH0 (Z.max a (offsetTime t0 + contentTime t0))). lia. }
  destruct Hin as [->|Hin].
  - pose proof (Hge l (Z.max floor (offsetTime track + contentTime track))). lia.
  - destruct (IH (Z.max floor (offsetTime t + contentTime t)) Hin) as [H1 H2].
    split; [lia|exact H2].
Qed.

(** C9.  A drag changes the offset of its track, and of no other track,
    by the requested amount clamped to
    [[-offsetTime, trackTotalTime - offsetTime]]: the applied change is
    the requested one when that lies in the range, and the nearer end of
    the range when it does not.  On a timeline whose total time is not
    negative the new offset so lies between 0 and the total time the drag
    was clamped against, and the track ends inside the timeline once the
    total time is recomputed. *)
Theorem move_track_clamped (tracksMinimalTotalTime : Z) (s : CommonStore)
  (trackId : string) (scale delta : R) :
  0 <= trackTotalTime s ->
  0 <= Handlers.trackIndexOf trackId (tracks s) ->
  let i := Z.to_nat (Handlers.trackIndexOf trackId (tracks s)) in
  exists track s' track',
    tracks s !! i = Some track
    /\ Handlers.onStop tracksMinimalTotalTime trackId scale delta s = Some s'
    /\ tracks s' !! i = Some track'
    /\ track'
       = withOffsetTime
           (offsetTime track + Handlers.appliedOffset s track scale delta) track
    /\ offsetTime track'
       = offsetTime track + Handlers.appliedOffset s track scale delta
    /\ (- offsetTime track <= Handlers.requestedOffset scale delta
                           <= trackTotalTime s - offsetTime track ->
        Handlers.appliedOffset s track scale delta
        = Handlers.requestedOffset scale delta)
    /\ (Handlers.requestedOffset scale delta < - offsetTime track ->
        Handlers.appliedOffset s track scale delta = - offsetTime track)
    /\ (trackTotalTime s - offsetTime track < Handlers.requestedOffset scale delta ->
        Handlers.appliedOffset s track scale delta
        = trackTotalTime s - offsetTime track)
    /\ - offsetTime track
       <= Handlers.appliedOffset s track scale delta
       <= trackTotalTime s - offsetTime track
    /\ 0 <= offsetTime track' <= trackTotalTime s
    /\ offsetTime track' + contentTime track' <= trackTotalTime s'
    /\ (forall j, j <> i -> tracks s' !! j = tracks s !! j).
Proof.
  intros Htotal Hfound i.
  pose proof (JSFacts.findIndex_range
                (fun t => String.eqb (id t) trackId) (tracks s)) as Hrange.
  fold (Handlers.trackIndexOf trackId (tracks s)) in Hrange.
  assert (Hi : (i < length (tracks s))%nat) by (unfold i; lia).
  destruct (lookup_lt_is_Some_2 (tracks s) i Hi) as [track Htrack].
  unfold Handlers.onStop. fold i.
  destruct (Z.ltb_spec (Handlers.trackIndexOf trackId (tracks s)) 0) as [Hneg|_];
    [lia|].
  rewrite Htrack.
  set (d := Handlers.appliedOffset s track scale delta).
  assert (Hd : - offsetTime track <= d <= trackTotalTime s - offsetTime track)
    by (unfold d, Handlers.appliedOffset; lia).
  assert (Hnew : Handlers.addOffset i d (tracks s) !! i
                 = Some (withOffsetTime (offsetTime track + d) track)).
  { unfold Handlers.addOffset. rewrite Htrack.
    apply list_lookup_insert_eq. exact Hi. }
  exists track. eexists. exists (withOffsetTime (offsetTime track + d) track).
  split; [reflexivity|]. split; [reflexivity|].
  split; [exact Hnew|]. split; [reflexivity|]. split; [reflexivity|].
  split; [intros Hin; unfold d, Handlers.appliedOffset; lia|].
  split; [intros Hlow; unfold d, Handlers.appliedOffset; lia|].
  split; [intros Hhigh; unfold d, Handlers.appliedOffset; lia|].
  split; [exact Hd|].
  split; [simpl; lia|].
  split.
  - apply refreshTracksTotalTime_covers. simpl.
    apply list_elem_of_In. eapply list_elem_of_lookup_2. exact Hnew.
  - intros j Hj. simpl. unfold Handlers.addOffset. rewrite Htrack.
    apply list_lookup_insert_ne. congruence.
Qed.

Lemma move_track_clamped_witness :
  let s := Samples.idleStore
             [mkTrack "a" "" "" [] 4000 0; mkTrack "b" "" "" [] 1000 0]%string 0 in
  let i := Z.to_nat (Handlers.trackIndexOf "b"%string (tracks s)) in
  exists track s' track',
    tracks s !! i = Some track
    /\ Handlers.onStop 5000 "b"%string 1%R (-2000)%R s = Some s'
    /\ tracks s' !! i = Some track'
    /\ track'
       = withOffsetTime
           (offsetTime track + Handlers.appliedOffset s track 1%R (-2000)%R) track
    /\ offsetTime track'
       = offsetTime track + Handlers.appliedOffset s track 1%R (-2000)%R
    /\ (- offsetTime track <= Handlers.requestedOffset 1%R (-2000)%R
                           <= trackTotalTime s - offsetTime track ->
        Handlers.appliedOffset s track 1%R (-2000)%R
        = Handlers.requestedOffset 1%R (-2000)%R)
    /\ (Handlers.requestedOffset 1%R (-2000)%R < - offsetTime track ->
        Handlers.appliedOffset s track 1%R (-2000)%R = - offsetTime track)
    /\ (trackTotalTime s - offsetTime track < Handlers.requestedOffset 1%R (-2000)%R ->
        Handlers.appliedOffset s track 1%R (-2000)%R
        = trackTotalTime s - offsetTime track)
    /\ - offsetTime track
       <= Handlers.appliedOffset s track 1%R (-2000)%R
       <= trackTotalTime s - offsetTime track
    /\ 0 <= offsetTime track' <= trackTotalTime s
    /\ offsetTime track' + contentTime track' <= trackTotalTime s'
    /\ (forall j, j <> i -> tracks s' !! j = tracks s !! j).
Proof.
  apply (move_track_clamped 5000
           (Samples.idleStore
              [mkTrack "a" "" "" [] 4000 0; mkTrack "b" "" "" [] 1000 0]%string 0)
           "b"%string 1%R (-2000)%R).
  - simpl. lia.
  - vm_compute. discriminate.
Defined.

(** ** Recording session *)






(** ** Timeline merger *)

(** While a track is recorded the handler stores the selected instrument
    on the message and renders the token with it. *)
Example recording_renders_selected_instrument :
  let e := Handlers.mkEditor
             (mkCommonStore [mkTrack "a" "" "" [] 0 0]%string 5000 "a"%string
                ""%string ""%string [] 1 0 ""%string)
             false "a"%string in
  let s := Handlers.commonStore
             (fst (Handlers.midiMessageHandler Samples.nameMap Samples.tokenMap
                     (Samples.noteOn 60 64) e)) in
  recordingRawContent s = [withInstrument 1 (Samples.noteOn 60 64)]
  /\ recordingContent s = "g:3c:7 "%string.
Proof.
  unfold Handlers.midiMessageHandler.
  cbn -[Encoder.midiMessageToToken].
  rewrite Encoder.midiMessageToToken_int_eq. split; reflexivity.
Qed.

(** C1.  The prompt is a function of the offsets and raw contents of the
    tracks and of the instrument selected in the store when the export
    runs; it does depend on that selection.  The same single track, one
    note recorded and rendered under instrument 0, exports as [p:3c:7]
    while instrument 0 is selected and as [g:3c:7] while instrument 1
    is. *)
Theorem export_follows_selected_instrument :
  let track := mkTrack "a" "" "p:3c:7 " [Samples.noteOn 60 64] 0 0 in
  tracks (Samples.idleStore [track] 0) = tracks (Samples.idleStore [track] 1)
  /\ Encoder.midiMessageToToken Samples.tokenMap (Samples.idleStore [track] 0)
       (Samples.noteOn 60 64)
     = content track
  /\ Merger.mergeResult Samples.tokenMap (Samples.idleStore [track] 0)
     = "<pad> p:3c:7"%string
  /\ Merger.mergeResult Samples.tokenMap (Samples.idleStore [track] 1)
     = "<pad> g:3c:7"%string.
Proof.
  split; [reflexivity|].
  rewrite !Merger.mergeResult_int_eq, Encoder.midiMessageToToken_int_eq.
  split; [|split]; vm_compute; reflexivity.
Qed.

(** C2.  Two notes of one instant come out in the reverse of the order
    in which they are processed: a track that releases key 60 and strikes
    it again in the same instant is exported with the strike first, while
    its own rendering, token by token, has the release first. *)
Theorem same_instant_notes_reversed :
  let raw := [elapsed 496; Samples.noteOff 60 0; elapsed 0; Samples.noteOn 60 64] in
  let store := Samples.idleStore [mkTrack "a" "" "" raw 0 496] 0 in
  Merger.mergeTracks (tracks store)
  = [elapsed 0; elapsed 496; Samples.noteOn 60 64; Samples.noteOff 60 0;
     elapsed 0]
  /\ Merger.mergeResult Samples.tokenMap store
     = "<pad> t62 p:3c:7 p:3c:0"%string
  /\ JS.join (map (Encoder.midiMessageToToken Samples.tokenMap store) raw)
     = "t62 p:3c:0 p:3c:7 "%string.
Proof.
  split; [vm_compute; reflexivity|].
  rewrite Merger.mergeResult_int_eq.
  rewrite (map_ext _ _ (Encoder.midiMessageToToken_int_eq Samples.tokenMap _)).
  split; vm_compute; reflexivity.
Qed.


(** Two tracks with a note each at 500 ms. *)
Definition sharedInstantTracks : list Track :=
  [mkTrack "a" "" "" [Samples.noteOn 60 64; elapsed 500; Samples.noteOff 60 0]
     0 500;
   mkTrack "b" "" "" [Samples.noteOn 64 64] 500 0]%string.





(** The merged list of those two tracks: one wait of 500 ms, the two
    notes of that instant side by side, and the zero wait of the second
    slot of the instant after them. *)
Example shared_instant_merge :
  Merger.mergeTracks sharedInstantTracks
  = [elapsed 0; Samples.noteOn 60 64; elapsed 500; Samples.noteOn 64 64;
     Samples.noteOff 60 0; elapsed 0]
  /\ Merger.mergeResult Samples.tokenMap (Samples.idleStore sharedInstantTracks 0)
     = "<pad> p:3c:7 t63 p:40:7 p:3c:0"%string.
Proof.
  split; [vm_compute; reflexivity|].
  rewrite Merger.mergeResult_int_eq. vm_compute. reflexivity.
Qed.

(** A wait of no length has no token. *)
Lemma zero_wait_has_no_token (tokenMap : list string) (s : CommonStore) :
  Encoder.midiMessageToToken tokenMap s (elapsed 0) = ""%string.
Proof. rewrite Encoder.midiMessageToToken_int_eq. reflexivity. Qed.

(** ** The export and the track store *)

(** C10.  Run on a heap that holds the track list of the store, the
    export returns the prompt of the merge and leaves every object of
    that heap as it was: the track array and each track, with its id,
    offset, content time, raw content and rendered content, read the same
    afterwards.  The sort and the splices act on arrays the export
    allocates. *)
Theorem export_leaves_tracks (tokenMap : list string) (commonStore : CommonStore)
  (h : gmap HeapExport.loc HeapExport.object) (ref : HeapExport.loc) :
  HeapExport.represents h ref (tracks commonStore) ->
  exists h',
    HeapExport.exportPrompt tokenMap commonStore ref h
    = Some (Merger.mergeResult tokenMap commonStore, h')
    /\ (forall l o, h !! l = Some o -> h' !! l = Some o)
    /\ HeapExport.represents h' ref (tracks commonStore).
Proof.
  intros Hrep.
  destruct (HeapExportFacts.exportMerge_run h ref (tracks commonStore) Hrep)
    as [h' [Hrun Hsub]].
  exists h'. split; [|split].
  - unfold HeapExport.exportPrompt.
    rewrite (HeapExportFacts.bind_run _ _ _ _ _ Hrun). reflexivity.
  - intros l o Hl. eapply lookup_weaken; eassumption.
  - destruct Hrep as [locs [Href Hall]]. exists locs. split.
    + eapply lookup_weaken; eassumption.
    + eapply Forall2_impl; [exact Hall|].
      intros l t Hlt. eapply HeapExportFacts.trackAt_weaken; eassumption.
Qed.

(** A heap with the two tracks of [sharedInstantTracks], track [b]
    first in the array of the store. *)
Definition sampleHeap : gmap HeapExport.loc HeapExport.object :=
  <[1%positive := HeapExport.TrackArray [2; 4]%positive]>
  (<[2%positive := HeapExport.TrackObject "b" "" "" 3%positive 500 0]>
  (<[3%positive := HeapExport.MessageArray [Samples.noteOn 64 64]]>
  (<[4%positive := HeapExport.TrackObject "a" "" "" 5%positive 0 500]>
  (<[5%positive :=
       HeapExport.MessageArray
         [Samples.noteOn 60 64; elapsed 500; Samples.noteOff 60 0]]> ∅)))).

Definition sampleHeapStore : CommonStore :=
  Samples.idleStore
    [mkTrack "b" "" "" [Samples.noteOn 64 64] 500 0;
     mkTrack "a" "" "" [Samples.noteOn 60 64; elapsed 500; Samples.noteOff 60 0]
       0 500]%string
    0.

Lemma export_leaves_tracks_witness :
  exists h',
    HeapExport.exportPrompt Samples.tokenMap sampleHeapStore 1%positive sampleHeap
    = Some (Merger.mergeResult Samples.tokenMap sampleHeapStore, h')
    /\ (forall l o, sampleHeap !! l = Some o -> h' !! l = Some o)
    /\ HeapExport.represents h' 1%positive (tracks sampleHeapStore).
Proof.
  apply (export_leaves_tracks Samples.tokenMap sampleHeapStore sampleHeap
           1%positive).
  exists [2; 4]%positive. split; [reflexivity|].
  constructor; [exists 3%positive; split; reflexivity|].
  constructor; [exists 5%positive; split; reflexivity|].
  constructor.
Defined.

(** * Further properties of the editor *)

Module StringFacts.

#[local] Arguments String.append !_ _ / : simpl nomatch.

(** No character of [s] is [c]. *)
Fixpoint charFree (c : ascii) (s : string) : Prop :=
  match s with
  | EmptyString => True
  | String x s' => x <> c /\ charFree c s'
  end.

Lemma app_inv_head (a b c : string) : (a ++ b = a ++ c)%string -> b = c.
Proof.
  induction a as [|x a IH]; simpl; intros H; [exact H|].
  injection H as H. apply IH. exact H.
Qed.

Lemma app_empty (a b : string) :
  (a ++ b)%string = EmptyString -> a = EmptyString /\ b = EmptyString.
Proof. destruct a; simpl; [tauto|discriminate]. Qed.

(** A string is cut at its first [c] in one way only. *)
Lemma cut_unique (c : ascii) (a a' r r' : string) :
  charFree c a -> charFree c a' ->
  (a ++ String c r = a' ++ String c r')%string -> a = a' /\ r = r'.
Proof.
  revert a'. induction a as [|x a IH]; intros [|x' a']; simpl.
  - intros _ _ H. injection H as H. split; [reflexivity|exact H].
  - intros _ [Hx _] H. injection H as Hc _. congruence.
  - intros [Hx _] _ H. injection H as Hc _. congruence.
  - intros [_ Ha] [_ Ha'] H. injection H as Hx H.
    destruct (IH a' Ha Ha' H) as [-> ->]. subst. split; reflexivity.
Qed.

Lemma hex_uint_charFree (c : ascii) (d : Hexadecimal.uint) :
  (forall x, In x (list_ascii_of_string "0123456789abcdef") -> x <> c) ->
  charFree c (HexadecimalString.NilEmpty.string_of_uint d).
Proof.
  intros Hc. induction d; simpl; try exact I;
    (split; [apply Hc; simpl; tauto|assumption]).
Qed.

Lemma toString16_charFree (c : ascii) (n : Z) :
  (forall x, In x (list_ascii_of_string "-0123456789abcdef") -> x <> c) ->
  charFree c (JS.toString16 n).
Proof.
  intros Hc. unfold JS.toString16.
  assert (Hd : forall x, In x (list_ascii_of_string "0123456789abcdef") -> x <> c)
    by (intros x Hx; apply Hc; right; exact Hx).
  destruct (Z.to_hex_int n) as [d|d]; simpl.
  - apply hex_uint_charFree, Hd.
  - split; [apply Hc; left; reflexivity|apply hex_uint_charFree, Hd].
Qed.

Lemma toString16_inj (n n' : Z) : JS.toString16 n = JS.toString16 n' -> n = n'.
Proof.
  unfold JS.toString16. intros H.
  apply HexadecimalZ.to_int_inj.
  pose proof (HexadecimalString.NilEmpty.isi (Z.to_hex_int n)) as H1.
  pose proof (HexadecimalString.NilEmpty.isi (Z.to_hex_int n')) as H2.
  rewrite H in H1. rewrite H1 in H2. injection H2 as H2. exact H2.
Qed.

End StringFacts.

Import Composition.

(** ** Velocity quantizer *)

(** X1.  The quantizer is this table: velocity 0 and below is bin 0,
    1-8 bin 1, 9-17 bin 2, 18-27 bin 3, 28-37 bin 4, 38-47 bin 5, 48-58
    bin 6, 59-70 bin 7, 71-83 bin 8, 84-97 bin 9, 98-111 bin 10, 112 and
    above bin 11. *)
Theorem velocityToBin_table (velocity : Z) :
  Quantizer.velocityToBin velocity
  = Quantizer.lookupBin
      [(1, (1, 8)); (2, (9, 17)); (3, (18, 27)); (4, (28, 37)); (5, (38, 47));
       (6, (48, 58)); (7, (59, 70)); (8, (71, 83)); (9, (84, 97));
       (10, (98, 111)); (11, (112, 127))]
      (Z.max 0 (Z.min velocity 127)).
Proof. apply Quantizer.velocityToBin_int_eq. Qed.

(** X2.  Only a velocity of 0 or less is quantized to bin 0: a note with
    a positive velocity never gets the bin of silence. *)
Theorem velocityToBin_zero_iff (velocity : Z) :
  Quantizer.velocityToBin velocity = 0 <-> velocity <= 0.
Proof.
  rewrite Quantizer.velocityToBin_int_eq. unfold Quantizer.velocityToBin_int.
  pose proof (Quantizer.clampVelocity_range velocity) as Hc.
  split.
  - intros H0.
    destruct (Z.eq_dec (Quantizer.clampVelocity velocity) 0) as [Hz|Hnz].
    + unfold Quantizer.clampVelocity, Quantizer.velocityEvents in Hz. lia.
    + destruct (Quantizer.curve_margin (Quantizer.clampVelocity velocity))
        as [Hb _]; lia.
  - intros Hle.
    replace (Quantizer.clampVelocity velocity) with 0
      by (unfold Quantizer.clampVelocity, Quantizer.velocityEvents; lia).
    reflexivity.
Qed.

(** ** Token encoder *)

(** X3.  An elapsed time that is not negative has no token exactly when
    it is shorter than 4 ms, half a time unit: it then rounds to zero
    units. *)
Theorem elapsed_token_empty_iff (tokenMap : list string)
  (commonStore : CommonStore) (msg : MidiMessage) :
  messageType msg = ElapsedTime -> 0 <= value msg ->
  (Encoder.midiMessageToToken tokenMap commonStore msg = ""%string
   <-> value msg < 4).
Proof. apply TokenFacts.elapsed_token_empty. Qed.

Lemma elapsed_token_empty_iff_witness :
  Encoder.midiMessageToToken Samples.tokenMap (Samples.idleStore [] 0) (elapsed 3)
  = ""%string
  <-> value (elapsed 3) < 4.
Proof.
  apply (elapsed_token_empty_iff Samples.tokenMap (Samples.idleStore [] 0)
           (elapsed 3)); [reflexivity|simpl; lia].
Defined.

(** X4.  Under one selected instrument the tokens of two note events are
    the same exactly when the note numbers and the velocity bins are the
    same: the token keeps the note and the bin, and nothing else of the
    event (not whether it is a note-on or a note-off). *)
Theorem note_token_eq_iff (tokenMap : list string) (commonStore : CommonStore)
  (m1 m2 : MidiMessage) :
  isNote m1 = true -> isNote m2 = true ->
  (Encoder.midiMessageToToken tokenMap commonStore m1
   = Encoder.midiMessageToToken tokenMap commonStore m2
   <-> note m1 = note m2
       /\ Quantizer.velocityToBin (velocity m1)
          = Quantizer.velocityToBin (velocity m2)).
Proof.
  intros H1 H2.
  assert (Htok : forall m, isNote m = true ->
            Encoder.midiMessageToToken tokenMap commonStore m
            = (Encoder.instrumentToken tokenMap (instrumentType commonStore)
               ++ String ":"
                    (JS.toString16 (note m)
                     ++ String ":"
                          (JS.toString16 (Quantizer.velocityToBin (velocity m))
                           ++ String " " EmptyString)))%string).
  { intros m Hm. unfold Encoder.midiMessageToToken, isNote in *.
    destruct (messageType m); try discriminate; reflexivity. }
  rewrite (Htok m1 H1), (Htok m2 H2).
  assert (Hcolon : forall n, StringFacts.charFree ":" (JS.toString16 n)).
  { intros n. apply StringFacts.toString16_charFree.
    intros x Hx. simpl in Hx.
    repeat (destruct Hx as [<-|Hx]; [discriminate|]). destruct Hx. }
  assert (Hspace : forall n, StringFacts.charFree " " (JS.toString16 n)).
  { intros n. apply StringFacts.toString16_charFree.
    intros x Hx. simpl in Hx.
    repeat (destruct Hx as [<-|Hx]; [discriminate|]). destruct Hx. }
  split.
  - intros H. apply StringFacts.app_inv_head in H. injection H as H.
    apply StringFacts.cut_unique in H; [|apply Hcolon..].
    destruct H as [Hn Hv].
    apply StringFacts.cut_unique in Hv; [|apply Hspace..].
    destruct Hv as [Hv _].
    split; apply StringFacts.toString16_inj; assumption.
  - intros [Hn Hv]. rewrite Hn, Hv. reflexivity.
Qed.

Lemma note_token_eq_iff_witness :
  Encoder.midiMessageToToken Samples.tokenMap (Samples.idleStore [] 0)
    (Samples.noteOn 60 64)
  = Encoder.midiMessageToToken Samples.tokenMap (Samples.idleStore [] 0)
      (Samples.noteOff 60 70)
  <-> note (Samples.noteOn 60 64) = note (Samples.noteOff 60 70)
      /\ Quantizer.velocityToBin (velocity (Samples.noteOn 60 64))
         = Quantizer.velocityToBin (velocity (Samples.noteOff 60 70)).
Proof.
  apply (note_token_eq_iff Samples.tokenMap (Samples.idleStore [] 0)
           (Samples.noteOn 60 64) (Samples.noteOff 60 70)); reflexivity.
Defined.

(** ** Recording session *)

Module RecordingFacts.
Import Handlers MoreHandlers.

(** The messages of a recording that reach the buffer: all but the first
    elapsed time while [dropRecordingTime] is set. *)
Fixpoint kept (drop : bool) (msgs : list MidiMessage) : list MidiMessage :=
  match msgs with
  | [] => []
  | msg :: rest =>
      match messageType msg with
      | ElapsedTime => if drop then kept false rest else msg :: kept drop rest
      | _ => msg :: kept drop rest
      end
  end.

(** Whether [dropRecordingTime] is still set after the messages. *)
Fixpoint stillDropping (drop : bool) (msgs : list MidiMessage) : bool :=
  match msgs with
  | [] => drop
  | msg :: rest =>
      match messageType msg with
      | ElapsedTime => false
      | _ => stillDropping drop rest
      end
  end.

(** The rendering of a raw content, every message under the instrument
    stored on it. *)
Definition renderRaw (tokenMap : list string) (s : CommonStore)
  (raw : list MidiMessage) : string :=
  JS.join
    (map (fun m =>
            Encoder.midiMessageToToken tokenMap
              (setInstrumentType (instrument m) s) m)
       raw).

Lemma token_instrument_only (tokenMap : list string) (s1 s2 : CommonStore)
  (m : MidiMessage) :
  instrumentType s1 = instrumentType s2 ->
  Encoder.midiMessageToToken tokenMap s1 m
  = Encoder.midiMessageToToken tokenMap s2 m.
Proof. intros H. unfold Encoder.midiMessageToToken. rewrite H. reflexivity. Qed.

Lemma renderRaw_store (tokenMap : list string) (s1 s2 : CommonStore)
  (raw : list MidiMessage) :
  renderRaw tokenMap s1 raw = renderRaw tokenMap s2 raw.
Proof.
  reflexivity.
Qed.

Lemma renderRaw_snoc (tokenMap : list string) (s : CommonStore)
  (raw : list MidiMessage) (m : MidiMessage) :
  renderRaw tokenMap s (raw ++ [m])
  = (renderRaw tokenMap s raw
     ++ Encoder.midiMessageToToken tokenMap
          (setInstrumentType (instrument m) s) m)%string.
Proof.
  unfold renderRaw. rewrite map_app, EncoderFacts.join_app. simpl.
  rewrite EncoderFacts.string_app_nil_r. reflexivity.
Qed.

Definition rendered (tokenMap : list string) (e : Editor) : Prop :=
  recordingContent (commonStore e)
  = renderRaw tokenMap (commonStore e) (recordingRawContent (commonStore e)).

Lemma handler_keeps_rendered (nameMap tokenMap : list string)
  (data : MidiMessage) (e : Editor) :
  rendered tokenMap e ->
  rendered tokenMap (fst (midiMessageHandler nameMap tokenMap data e)).
Proof.
  unfold rendered, midiMessageHandler. intros H.
  assert (Hrec :
    rendered tokenMap
      (fst (if String.eqb (recordingTrackId (commonStore e)) ""
            then (e, [])
            else if dropRecordingTime e
                    && match messageType data with
                       | ElapsedTime => true
                       | _ => false
                       end
            then (mkEditor (commonStore e) false (selectedTrackId e), [])
            else
              (mkEditor
                 (setRecordingContent
                    (recordingContent
                       (setRecordingRawContent
                          (recordingRawContent (commonStore e)
                           ++ [withInstrument (instrumentType (commonStore e)) data])
                          (commonStore e))
                     ++ Encoder.midiMessageToToken tokenMap
                          (setRecordingRawContent
                             (recordingRawContent (commonStore e)
                              ++ [withInstrument (instrumentType (commonStore e)) data])
                             (commonStore e))
                          (withInstrument (instrumentType (commonStore e)) data))
                    (setRecordingRawContent
                       (recordingRawContent (commonStore e)
                        ++ [withInstrument (instrumentType (commonStore e)) data])
                       (commonStore e)))
                 (dropRecordingTime e) (selectedTrackId e),
               [PlayNote (withInstrument (instrumentType (commonStore e)) data)])))).
  { destruct (String.eqb _ _); [exact H|].
    destruct (_ && _); [exact H|].
    unfold rendered. cbn [fst commonStore].
    cbn [recordingContent recordingRawContent setRecordingContent
           setRecordingRawContent].
    rewrite renderRaw_snoc. rewrite H. reflexivity. }
  destruct (messageType data); try exact Hrec.
  cbn [fst commonStore]. cbn [recordingContent recordingRawContent setInstrumentType].
  rewrite H. apply renderRaw_store.
Qed.

Lemma handleMessages_cons (nameMap tokenMap : list string) (data : MidiMessage)
  (rest : list MidiMessage) (e : Editor) :
  handleMessages nameMap tokenMap (data :: rest) e
  = (fst (handleMessages nameMap tokenMap rest
            (fst (midiMessageHandler nameMap tokenMap data e))),
     snd (midiMessageHandler nameMap tokenMap data e)
     ++ snd (handleMessages nameMap tokenMap rest
               (fst (midiMessageHandler nameMap tokenMap data e)))).
Proof.
  simpl. destruct (midiMessageHandler nameMap tokenMap data e) as [e1 fx1].
  simpl. destruct (handleMessages nameMap tokenMap rest e1) as [e2 fx2].
  reflexivity.
Qed.

Lemma kept_cons (drop : bool) (data : MidiMessage) (rest : list MidiMessage) :
  kept drop [data] ++ kept (stillDropping drop [data]) rest
  = kept drop (data :: rest).
Proof.
  simpl. destruct (messageType data); try reflexivity.
  destruct drop; reflexivity.
Qed.

Lemma stillDropping_false (msgs : list MidiMessage) :
  stillDropping false msgs = false.
Proof.
  induction msgs as [|m rest IH]; simpl; [reflexivity|].
  destruct (messageType m); auto.
Qed.

Lemma stillDropping_cons (drop : bool) (data : MidiMessage)
  (rest : list MidiMessage) :
  stillDropping drop (data :: rest)
  = stillDropping (stillDropping drop [data]) rest.
Proof.
  simpl. destruct (messageType data); try reflexivity.
  symmetry. apply stillDropping_false.
Qed.

Lemma kept_notes (drop : bool) (msgs : list MidiMessage) :
  List.filter isNote (kept drop msgs) = List.filter isNote msgs.
Proof.
  revert drop. induction msgs as [|m rest IH]; intros drop; simpl;
    [reflexivity|].
  unfold isNote at 2.
  destruct (messageType m) eqn:E; simpl; unfold isNote at 1;
    rewrite ?E, ?IH; try reflexivity.
  destruct drop; simpl; [apply IH|].
  unfold isNote at 1. rewrite E. apply IH.
Qed.

End RecordingFacts.

(** X5.  A control change with a value from 0 to 127 selects an
    instrument of the table: the index lies between 0 and the last index,
    value 0 selects the first instrument and value 127 the last.  Nothing
    is recorded and the instrument panel is shown. *)
Theorem control_change_selects_instrument (nameMap tokenMap : list string)
  (data : MidiMessage) (e : Handlers.Editor) :
  messageType data = ControlChange ->
  0 <= value data <= 127 ->
  nameMap <> [] ->
  let r := Handlers.midiMessageHandler nameMap tokenMap data e in
  let last := Z.of_nat (length nameMap) - 1 in
  0 <= instrumentType (Handlers.commonStore (fst r)) <= last
  /\ (value data = 0 -> instrumentType (Handlers.commonStore (fst r)) = 0)
  /\ (value data = 127 -> instrumentType (Handlers.commonStore (fst r)) = last)
  /\ Handlers.commonStore (fst r)
     = setInstrumentType (instrumentType (Handlers.commonStore (fst r)))
         (Handlers.commonStore e)
  /\ snd r = [Handlers.DisplayCurrentInstrumentType].
Proof.
  intros Hty Hv Hne r last. unfold r, Handlers.midiMessageHandler.
  rewrite Hty. cbn [fst snd Handlers.commonStore instrumentType setInstrumentType].
  fold last.
  assert (Hlast : 0 <= last)
    by (unfold last; destruct nameMap; [contradiction|simpl length; lia]).
  assert (Hround :
    JS.Math_round (IZR (value data) / 127 * IZR last)
    = (2 * (value data * last) + 127) / (2 * 127)).
  { rewrite <- Math_round_quot by lia. f_equal.
    rewrite mult_IZR. field. }
  rewrite Hround.
  set (p := value data * last).
  assert (Hp : 0 <= p <= 127 * last) by (unfold p; nia).
  split; [|split; [|split; [|split]]].
  - split.
    + apply Z.div_pos; lia.
    + assert ((2 * p + 127) / (2 * 127) < last + 1)
        by (apply Z.div_lt_upper_bound; lia).
      lia.
  - intros H0. unfold p. rewrite H0. reflexivity.
  - intros H127. unfold p. rewrite H127.
    replace (2 * (127 * last) + 127) with (127 + last * (2 * 127)) by ring.
    rewrite Z.div_add by lia. reflexivity.
  - reflexivity.
  - reflexivity.
Qed.

Lemma control_change_selects_instrument_witness :
  let r := Handlers.midiMessageHandler Samples.nameMap Samples.tokenMap
             (mkMidiMessage ControlChange 0 0 100 0)
             (Handlers.mkEditor (Samples.idleStore [] 0) false ""%string) in
  let last := Z.of_nat (length Samples.nameMap) - 1 in
  0 <= instrumentType (Handlers.commonStore (fst r)) <= last
  /\ (value (mkMidiMessage ControlChange 0 0 100 0) = 0 ->
      instrumentType (Handlers.commonStore (fst r)) = 0)
  /\ (value (mkMidiMessage ControlChange 0 0 100 0) = 127 ->
      instrumentType (Handlers.commonStore (fst r)) = last)
  /\ Handlers.commonStore (fst r)
     = setInstrumentType (instrumentType (Handlers.commonStore (fst r)))
         (Handlers.commonStore
            (Handlers.mkEditor (Samples.idleStore [] 0) false ""%string))
  /\ snd r = [Handlers.DisplayCurrentInstrumentType].
Proof.
  apply (control_change_selects_instrument Samples.nameMap Samples.tokenMap
           (mkMidiMessage ControlChange 0 0 100 0)
           (Handlers.mkEditor (Samples.idleStore [] 0) false ""%string)).
  - reflexivity.
  - simpl. lia.
  - discriminate.
Defined.

(** X6.  The live token string stays the rendering of the recording
    buffer, each message under the instrument that was selected when it
    arrived: whatever messages come in, control changes and dropped
    elapsed times among them, if the string is that rendering before, it
    is that rendering after. *)
Theorem recording_content_is_rendering (nameMap tokenMap : list string)
  (msgs : list MidiMessage) (e : Handlers.Editor) :
  RecordingFacts.rendered tokenMap e ->
  RecordingFacts.rendered tokenMap
    (fst (MoreHandlers.handleMessages nameMap tokenMap msgs e)).
Proof.
  revert e. induction msgs as [|data rest IH]; intros e H; [exact H|].
  rewrite RecordingFacts.handleMessages_cons. cbn [fst].
  apply IH, RecordingFacts.handler_keeps_rendered, H.
Qed.

Lemma recording_content_is_rendering_witness :
  RecordingFacts.rendered Samples.tokenMap
    (fst (MoreHandlers.handleMessages Samples.nameMap Samples.tokenMap
            [elapsed 300; Samples.noteOn 60 64;
             mkMidiMessage ControlChange 0 0 127 0; elapsed 500;
             Samples.noteOff 60 0]
            (Handlers.mkEditor
               (mkCommonStore [mkTrack "a" "" "" [] 0 0]%string 5000 "a"%string
                  ""%string ""%string [] 0 0 ""%string)
               true "a"%string))).
Proof.
  apply (recording_content_is_rendering Samples.nameMap Samples.tokenMap).
  reflexivity.
Defined.

(** One message that is not a control change, while a track is
    recorded. *)
Lemma recording_step (nameMap tokenMap : list string) (data : MidiMessage)
  (e : Handlers.Editor) :
  recordingTrackId (Handlers.commonStore e) <> ""%string ->
  messageType data <> ControlChange ->
  let r := Handlers.midiMessageHandler nameMap tokenMap data e in
  let stamped :=
    map (withInstrument (instrumentType (Handlers.commonStore e)))
      (RecordingFacts.kept (Handlers.dropRecordingTime e) [data]) in
  recordingRawContent (Handlers.commonStore (fst r))
  = recordingRawContent (Handlers.commonStore e) ++ stamped
  /\ snd r = map Handlers.PlayNote stamped
  /\ Handlers.dropRecordingTime (fst r)
     = RecordingFacts.stillDropping (Handlers.dropRecordingTime e) [data]
  /\ recordingTrackId (Handlers.commonStore (fst r))
     = recordingTrackId (Handlers.commonStore e)
  /\ instrumentType (Handlers.commonStore (fst r))
     = instrumentType (Handlers.commonStore e)
  /\ Handlers.selectedTrackId (fst r) = Handlers.selectedTrackId e.
Proof.
  intros Hrec Hty. cbv zeta. unfold Handlers.midiMessageHandler.
  destruct (String.eqb_spec (recordingTrackId (Handlers.commonStore e)) "");
    [contradiction|].
  simpl RecordingFacts.kept. simpl RecordingFacts.stillDropping.
  destruct (messageType data); try contradiction;
    destruct (Handlers.dropRecordingTime e); simpl;
    rewrite ?app_nil_r; repeat split; reflexivity.
Qed.

(** The messages of a recording, none a control change. *)
Lemma recording_run (nameMap tokenMap : list string)
  (msgs : list MidiMessage) (e : Handlers.Editor) :
  recordingTrackId (Handlers.commonStore e) <> ""%string ->
  Forall (fun m => messageType m <> ControlChange) msgs ->
  let r := MoreHandlers.handleMessages nameMap tokenMap msgs e in
  let stamped :=
    map (withInstrument (instrumentType (Handlers.commonStore e)))
      (RecordingFacts.kept (Handlers.dropRecordingTime e) msgs) in
  recordingRawContent (Handlers.commonStore (fst r))
  = recordingRawContent (Handlers.commonStore e) ++ stamped
  /\ snd r = map Handlers.PlayNote stamped
  /\ Handlers.dropRecordingTime (fst r)
     = RecordingFacts.stillDropping (Handlers.dropRecordingTime e) msgs
  /\ recordingTrackId (Handlers.commonStore (fst r))
     = recordingTrackId (Handlers.commonStore e)
  /\ instrumentType (Handlers.commonStore (fst r))
     = instrumentType (Handlers.commonStore e)
  /\ Handlers.selectedTrackId (fst r) = Handlers.selectedTrackId e.
Proof.
  cbv zeta. revert e.
  induction msgs as [|data rest IH]; intros e Hrec Hall.
  - simpl. rewrite app_nil_r. repeat split; reflexivity.
  - inversion Hall as [|? ? Hty Hrest]; subst.
    rewrite RecordingFacts.handleMessages_cons. cbn [fst snd].
    destruct (recording_step nameMap tokenMap data e Hrec Hty)
      as [Hraw [Hfx [Hdrop [Hid [Hins Hsel]]]]].
    set (e1 := fst (Handlers.midiMessageHandler nameMap tokenMap data e)) in *.
    assert (Hrec1 : recordingTrackId (Handlers.commonStore e1) <> ""%string)
      by (rewrite Hid; exact Hrec).
    destruct (IH e1 Hrec1 Hrest)
      as [IHraw [IHfx [IHdrop [IHid [IHins IHsel]]]]].
    rewrite IHraw, IHfx, IHdrop, IHid, IHins, IHsel.
    rewrite Hraw, Hfx, Hdrop, Hid, Hins, Hsel.
    rewrite <- app_assoc, <- !map_app.
    rewrite (RecordingFacts.kept_cons (Handlers.dropRecordingTime e) data rest).
    rewrite <- (RecordingFacts.stillDropping_cons (Handlers.dropRecordingTime e) data rest).
    repeat split; reflexivity.
Qed.

(** X7.  While a track is recorded, messages that are not control
    changes are appended to the buffer in the order they arrive, stamped
    with the selected instrument, and each appended message is sent to
    the playback sink; the one exception is the first elapsed time after
    the start of the recording, which is dropped.  No note is ever
    dropped. *)
Theorem recording_buffer_grows (nameMap tokenMap : list string)
  (msgs : list MidiMessage) (e : Handlers.Editor) :
  recordingTrackId (Handlers.commonStore e) <> ""%string ->
  Forall (fun m => messageType m <> ControlChange) msgs ->
  let r := MoreHandlers.handleMessages nameMap tokenMap msgs e in
  let stamped :=
    map (withInstrument (instrumentType (Handlers.commonStore e)))
      (RecordingFacts.kept (Handlers.dropRecordingTime e) msgs) in
  recordingRawContent (Handlers.commonStore (fst r))
  = recordingRawContent (Handlers.commonStore e) ++ stamped
  /\ snd r = map Handlers.PlayNote stamped
  /\ Handlers.dropRecordingTime (fst r)
     = RecordingFacts.stillDropping (Handlers.dropRecordingTime e) msgs
  /\ List.filter isNote (RecordingFacts.kept (Handlers.dropRecordingTime e) msgs)
     = List.filter isNote msgs.
Proof.
  intros Hrec Hall. cbv zeta.
  destruct (recording_run nameMap tokenMap msgs e Hrec Hall)
    as [Hraw [Hfx [Hdrop _]]].
  repeat split; try assumption.
  apply RecordingFacts.kept_notes.
Qed.

Lemma recording_buffer_grows_witness :
  let e := Handlers.mkEditor
             (mkCommonStore [mkTrack "a" "" "" [] 0 0]%string 5000 "a"%string
                ""%string ""%string [] 1 0 ""%string)
             true "a"%string in
  let msgs := [elapsed 300; Samples.noteOn 60 64; elapsed 500;
               Samples.noteOff 60 0] in
  let r := MoreHandlers.handleMessages Samples.nameMap Samples.tokenMap msgs e in
  let stamped :=
    map (withInstrument (instrumentType (Handlers.commonStore e)))
      (RecordingFacts.kept (Handlers.dropRecordingTime e) msgs) in
  recordingRawContent (Handlers.commonStore (fst r))
  = recordingRawContent (Handlers.commonStore e) ++ stamped
  /\ snd r = map Handlers.PlayNote stamped
  /\ Handlers.dropRecordingTime (fst r)
     = RecordingFacts.stillDropping (Handlers.dropRecordingTime e) msgs
  /\ List.filter isNote (RecordingFacts.kept (Handlers.dropRecordingTime e) msgs)
     = List.filter isNote msgs.
Proof.
  apply (recording_buffer_grows Samples.nameMap Samples.tokenMap
           [elapsed 300; Samples.noteOn 60 64; elapsed 500; Samples.noteOff 60 0]
           (Handlers.mkEditor
              (mkCommonStore [mkTrack "a" "" "" [] 0 0]%string 5000 "a"%string
                 ""%string ""%string [] 1 0 ""%string)
              true "a"%string)).
  - simpl. discriminate.
  - repeat constructor; discriminate.
Defined.

(** ** Timeline merger *)

Module MergerMore.
Import Merger MergerFacts JSFacts.

Definition notesOf (track : Track) : list MidiMessage :=
  List.filter isNote (rawContent track).

Definition isElapsed (m : MidiMessage) : bool :=
  match messageType m with
  | ElapsedTime => true
  | _ => false
  end.

Definition waitsOf (track : Track) : list MidiMessage :=
  List.filter isElapsed (rawContent track).

(** The time at which a track ends. *)
Definition trackEnd (track : Track) : Z :=
  offsetTime track + elapsedTotal (rawContent track).

Definition latestEnd (tracks : list Track) : Z :=
  fold_right Z.max 0 (map trackEnd tracks).

Lemma splice_insert_Permutation {A} (i : Z) (x : A) (l : list A) :
  Permutation (JS.splice_insert i x l) (x :: l).
Proof.
  unfold JS.splice_insert.
  set (n := Z.to_nat _).
  rewrite <- (firstn_skipn n l) at 3.
  symmetry. apply Permutation_middle.
Qed.

Lemma splice_insert_filter_out {A} (p : A -> bool) (i : Z) (x : A) (l : list A) :
  p x = false -> List.filter p (JS.splice_insert i x l) = List.filter p l.
Proof.
  intros Hx. unfold JS.splice_insert.
  set (n := Z.to_nat _).
  rewrite List.filter_app. simpl. rewrite Hx.
  rewrite <- List.filter_app, firstn_skipn. reflexivity.
Qed.

Lemma sort_insert_Permutation {A} (cmp : A -> A -> Z) (x : A) (l : list A) :
  Permutation (JS.sort_insert cmp x l) (x :: l).
Proof.
  induction l as [|y l IH]; simpl; [reflexivity|].
  destruct (cmp x y <=? 0); [reflexivity|].
  rewrite IH. apply perm_swap.
Qed.

Lemma sort_Permutation {A} (cmp : A -> A -> Z) (l : list A) :
  Permutation (JS.sort cmp l) l.
Proof.
  induction l as [|x l IH]; simpl; [reflexivity|].
  rewrite sort_insert_Permutation. constructor. exact IH.
Qed.

Lemma trackNotes_messages (offset currentTime acc : Z) (msgs : list MidiMessage) :
  map snd (trackNotes offset currentTime acc msgs) = List.filter isNote msgs.
Proof.
  revert currentTime acc.
  induction msgs as [|msg rest IH]; intros currentTime acc; simpl;
    [reflexivity|].
  unfold isNote at 1.
  destruct (messageType msg); simpl; rewrite IH; reflexivity.
Qed.

Lemma timedNotes_messages (sortedTracks : list Track) :
  map snd (timedNotes sortedTracks) = flat_map notesOf sortedTracks.
Proof.
  unfold timedNotes.
  induction sortedTracks as [|track rest IH]; simpl; [reflexivity|].
  rewrite map_app, IH, trackNotes_messages. reflexivity.
Qed.

Lemma insertOne_notes (notes : list (Z * MidiMessage))
  (st : list MidiMessage * list Z) :
  (forall n, In n notes -> isNote (snd n) = true) ->
  Permutation (List.filter isNote (fst (fold_left insertOne notes st)))
    (List.filter isNote (fst st) ++ map snd notes).
Proof.
  revert st. induction notes as [|n notes IH]; intros st Hn; simpl.
  - rewrite app_nil_r. reflexivity.
  - rewrite IH by (intros n' Hn'; apply Hn; right; exact Hn').
    simpl fst.
    assert (Hp : Permutation
                   (List.filter isNote
                      (JS.splice_insert
                         (JS.findIndex (fun t => fst n <=? t) (snd st) + 1)
                         (snd n) (fst st)))
                   (snd n :: List.filter isNote (fst st))).
    { unfold JS.splice_insert. set (k := Z.to_nat _).
      rewrite List.filter_app. simpl.
      rewrite (Hn n) by (left; reflexivity).
      rewrite <- (firstn_skipn k (fst st)) at 3.
      rewrite List.filter_app. symmetry. apply Permutation_middle. }
    rewrite Hp. simpl. apply Permutation_middle.
Qed.

Lemma insertOne_others (notes : list (Z * MidiMessage))
  (st : list MidiMessage * list Z) :
  (forall n, In n notes -> isNote (snd n) = true) ->
  List.filter (fun m => negb (isNote m)) (fst (fold_left insertOne notes st))
  = List.filter (fun m => negb (isNote m)) (fst st).
Proof.
  revert st. induction notes as [|n notes IH]; intros st Hn; simpl.
  - reflexivity.
  - rewrite IH by (intros n' Hn'; apply Hn; right; exact Hn').
    simpl fst. apply splice_insert_filter_out.
    rewrite (Hn n) by (left; reflexivity). reflexivity.
Qed.

Lemma deltas_others (prev : Z) (sk : list Z) :
  List.filter (fun m => negb (isNote m)) (deltas prev sk) = deltas prev sk.
Proof.
  revert prev. induction sk as [|t sk IH]; intros prev; simpl; [reflexivity|].
  rewrite IH. reflexivity.
Qed.

Lemma deltas_notes (prev : Z) (sk : list Z) :
  List.filter isNote (deltas prev sk) = [].
Proof.
  revert prev. induction sk as [|t sk IH]; intros prev; simpl; [reflexivity|].
  apply IH.
Qed.

Lemma deltas_length (prev : Z) (sk : list Z) :
  length (deltas prev sk) = length sk.
Proof.
  revert prev. induction sk as [|t sk IH]; intros prev; simpl; [reflexivity|].
  rewrite IH. reflexivity.
Qed.

Lemma deltas_elapsed (prev : Z) (sk : list Z) :
  Forall (fun m => messageType m = ElapsedTime) (deltas prev sk).
Proof.
  revert prev. induction sk as [|t sk IH]; intros prev; simpl; constructor.
  - reflexivity.
  - apply IH.
Qed.

(** The wait messages of the merged list are the skeleton. *)
Lemma mergeTracks_others (tracks : list Track) :
  List.filter (fun m => negb (isNote m)) (mergeTracks tracks)
  = deltas 0 (sortTimestamps (collectTimestamps (sortTracks tracks) [])).
Proof.
  unfold mergeTracks. rewrite insertAllNotes_fold, skeleton_deltas.
  rewrite insertOne_others by apply timedNotes_isNote.
  apply deltas_others.
Qed.

Lemma elapsedStamps_length (offset acc : Z) (msgs : list MidiMessage) :
  length (elapsedStamps offset acc msgs) = length (List.filter isElapsed msgs).
Proof.
  revert acc. induction msgs as [|msg rest IH]; intros acc; simpl;
    [reflexivity|].
  unfold isElapsed at 1.
  destruct (messageType msg); simpl; rewrite IH; reflexivity.
Qed.

Lemma stamps_length (tracks : list Track) :
  length (flat_map trackStamps tracks)
  = (length tracks + length (flat_map waitsOf tracks))%nat.
Proof.
  induction tracks as [|track rest IH]; simpl; [reflexivity|].
  rewrite !length_app, IH, elapsedStamps_length. unfold waitsOf. lia.
Qed.

Lemma elapsedTotal_others (l : list MidiMessage) :
  elapsedTotal (List.filter (fun m => negb (isNote m)) l) = elapsedTotal l.
Proof.
  induction l as [|m l IH]; simpl; [reflexivity|].
  unfold isNote at 1.
  destruct (messageType m) eqn:E; simpl; rewrite ?E, IH; reflexivity.
Qed.

Lemma last_default {A} (l : list A) (d d' : A) :
  l <> [] -> List.last l d = List.last l d'.
Proof.
  induction l as [|x l IH]; [congruence|]. intros _.
  destruct l as [|y l]; [reflexivity|].
  change (List.last (y :: l) d = List.last (y :: l) d').
  apply IH. discriminate.
Qed.

Lemma deltas_total (prev : Z) (sk : list Z) :
  elapsedTotal (deltas prev sk) = List.last sk prev - prev.
Proof.
  revert prev. induction sk as [|t sk IH]; intros prev; simpl deltas.
  - simpl. lia.
  - change (elapsedTotal (elapsed (t - prev) :: deltas t sk))
      with (t - prev + elapsedTotal (deltas t sk)).
    rewrite IH.
    destruct sk as [|u sk]; [simpl; lia|].
    change (List.last (t :: u :: sk) prev) with (List.last (u :: sk) prev).
    rewrite (last_default (u :: sk) prev t) by discriminate. lia.
Qed.

Lemma listMax_Permutation (l1 l2 : list Z) :
  Permutation l1 l2 -> fold_right Z.max 0 l1 = fold_right Z.max 0 l2.
Proof.
  induction 1; simpl; lia.
Qed.

Lemma listMax_app (l1 l2 : list Z) :
  fold_right Z.max 0 (l1 ++ l2)
  = Z.max (fold_right Z.max 0 l1) (fold_right Z.max 0 l2).
Proof.
  induction l1 as [|x l1 IH]; simpl; [|rewrite IH]; 
    [|lia].
  assert (0 <= fold_right Z.max 0 l2) by (induction l2; simpl; lia).
  lia.
Qed.

Lemma ascending_last_max (prev : Z) (sk : list Z) :
  ascending sk -> 0 <= prev -> (forall x, In x sk -> prev <= x) ->
  List.last sk prev = Z.max prev (fold_right Z.max 0 sk).
Proof.
  revert prev. induction sk as [|t sk IH]; intros prev Hasc Hprev Hlow.
  - simpl. lia.
  - destruct Hasc as [Ht Hasc].
    assert (Hpt : prev <= t) by (apply Hlow; left; reflexivity).
    destruct sk as [|u sk].
    + simpl. lia.
    + change (List.last (t :: u :: sk) prev) with (List.last (u :: sk) prev).
      rewrite (last_default (u :: sk) prev t) by discriminate.
      rewrite (IH t Hasc) by (try lia; exact Ht).
      change (fold_right Z.max 0 (t :: u :: sk))
        with (Z.max t (fold_right Z.max 0 (u :: sk))).
      lia.
Qed.

Lemma elapsedStamps_max (offset acc : Z) (msgs : list MidiMessage) :
  (forall msg, In msg msgs -> messageType msg = ElapsedTime -> 0 <= value msg) ->
  0 <= offset + acc ->
  Z.max (offset + acc) (fold_right Z.max 0 (elapsedStamps offset acc msgs))
  = offset + acc + elapsedTotal msgs.
Proof.
  revert acc. induction msgs as [|msg rest IH]; intros acc Hv Hacc.
  - simpl. lia.
  - assert (Hrest : forall m, In m rest -> messageType m = ElapsedTime -> 0 <= value m)
      by (intros m Hm; apply Hv; right; exact Hm).
    simpl. destruct (messageType msg) eqn:Hty;
      try (apply IH; assumption).
    assert (Hm : 0 <= value msg) by (apply Hv; [left; reflexivity|exact Hty]).
    specialize (IH (acc + value msg) Hrest ltac:(lia)).
    simpl. lia.
Qed.

Lemma trackStamps_max (track : Track) :
  wellFormedTrack track = true ->
  fold_right Z.max 0 (trackStamps track) = trackEnd track.
Proof.
  intros Hwf. destruct (wellFormedTrack_spec track Hwf) as [Ho Hm].
  unfold trackStamps, trackEnd. simpl.
  pose proof (elapsedStamps_max (offsetTime track) 0 (rawContent track) Hm
                ltac:(lia)) as H.
  replace (offsetTime track + 0) with (offsetTime track) in H by lia.
  exact H.
Qed.

Lemma stamps_max (tracks : list Track) :
  wellFormed tracks = true ->
  fold_right Z.max 0 (flat_map trackStamps tracks) = latestEnd tracks.
Proof.
  unfold wellFormed, latestEnd.
  induction tracks as [|track rest IH]; [reflexivity|].
  simpl forallb. rewrite andb_true_iff. intros [Ht Hrest].
  change (flat_map trackStamps (track :: rest))
    with (trackStamps track ++ flat_map trackStamps rest).
  rewrite listMax_app, (trackStamps_max track Ht), (IH Hrest).
  reflexivity.
Qed.

Lemma deltas_nonneg (prev : Z) (sk : list Z) :
  ascending sk -> (forall x, In x sk -> prev <= x) ->
  Forall (fun m => 0 <= value m) (deltas prev sk).
Proof.
  revert prev. induction sk as [|t sk IH]; intros prev Hasc Hlow; simpl;
    constructor.
  - simpl. specialize (Hlow t (or_introl eq_refl)). lia.
  - apply IH; [apply Hasc|]. apply (proj1 Hasc).
Qed.

Lemma stamps_sorted (tracks : list Track) :
  Permutation (sortTimestamps (collectTimestamps (sortTracks tracks) []))
    (flat_map trackStamps tracks).
Proof.
  unfold sortTimestamps. rewrite sort_Permutation, collectTimestamps_app.
  simpl. apply Permutation_flat_map, sort_Permutation.
Qed.

(** A message of the merged list is a note or a wait of the skeleton. *)
Lemma mergeTracks_message (tracks : list Track) (m : MidiMessage) :
  In m (mergeTracks tracks) ->
  isNote m = true
  \/ In m (deltas 0 (sortTimestamps (collectTimestamps (sortTracks tracks) []))).
Proof.
  intros Hin. destruct (isNote m) eqn:E; [left; reflexivity|right].
  rewrite <- mergeTracks_others. apply filter_In. split; [exact Hin|].
  rewrite E. reflexivity.
Qed.

End MergerMore.

(** X8.  The export neither loses nor invents a note: the notes of the
    merged list are the notes of all the tracks, rearranged. *)
Theorem merged_notes_permutation (tracks : list Track) :
  Permutation (List.filter isNote (Merger.mergeTracks tracks))
    (flat_map MergerMore.notesOf tracks).
Proof.
  unfold Merger.mergeTracks.
  rewrite MergerFacts.insertAllNotes_fold, MergerFacts.skeleton_deltas.
  rewrite MergerMore.insertOne_notes by apply MergerFacts.timedNotes_isNote.
  simpl fst. rewrite MergerMore.deltas_notes. simpl.
  rewrite MergerMore.timedNotes_messages.
  apply Permutation_flat_map, MergerMore.sort_Permutation.
Qed.

(** X9.  The merged list holds one wait for every track and one for
    every elapsed time of a track, and no control change: the control
    changes of the tracks are left out of the export. *)
Theorem merged_waits_count (tracks : list Track) :
  length (List.filter MergerMore.isElapsed (Merger.mergeTracks tracks))
  = (length tracks + length (flat_map MergerMore.waitsOf tracks))%nat
  /\ Forall (fun m => messageType m <> ControlChange)
       (Merger.mergeTracks tracks).
Proof.
  set (sk := Merger.sortTimestamps
               (Merger.collectTimestamps (Merger.sortTracks tracks) [])).
  assert (Hty : forall m, In m (Merger.mergeTracks tracks) ->
                  MergerMore.isElapsed m = negb (isNote m)
                  /\ messageType m <> ControlChange).
  { intros m Hm. destruct (MergerMore.mergeTracks_message tracks m Hm) as [H|H].
    - unfold isNote in H. unfold MergerMore.isElapsed, isNote.
      destruct (messageType m); try discriminate; split; (reflexivity || discriminate).
    - pose proof (MergerMore.deltas_elapsed 0 sk) as Hall.
      rewrite List.Forall_forall in Hall. specialize (Hall m H).
      unfold MergerMore.isElapsed, isNote. rewrite Hall.
      split; [reflexivity|discriminate]. }
  split.
  - rewrite (List.filter_ext_in MergerMore.isElapsed (fun m => negb (isNote m)))
      by (intros m Hm; apply Hty, Hm).
    rewrite MergerMore.mergeTracks_others, MergerMore.deltas_length.
    rewrite (Permutation_length (MergerMore.stamps_sorted tracks)).
    apply MergerMore.stamps_length.
  - apply List.Forall_forall. intros m Hm. apply Hty, Hm.
Qed.

(** X10.  When no offset and no elapsed time of a track is negative, the
    merged list lasts as long as the track that ends last, and none of
    its waits is negative. *)
Theorem merged_duration (tracks : list Track) :
  MergerFacts.wellFormed tracks = true ->
  MergerFacts.elapsedTotal (Merger.mergeTracks tracks)
  = MergerMore.latestEnd tracks
  /\ Forall (fun m => messageType m = ElapsedTime -> 0 <= value m)
       (Merger.mergeTracks tracks).
Proof.
  intros Hwf.
  set (sk := Merger.sortTimestamps
               (Merger.collectTimestamps (Merger.sortTracks tracks) [])).
  assert (Hasc : JSFacts.ascending sk) by apply JSFacts.sort_ascending.
  assert (Hlow : forall x, In x sk -> 0 <= x).
  { intros x Hx. apply (MergerFacts.stamps_nonneg tracks x Hwf).
    apply (Permutation_in x (MergerMore.stamps_sorted tracks)). exact Hx. }
  split.
  - rewrite <- MergerMore.elapsedTotal_others, MergerMore.mergeTracks_others.
    fold sk. rewrite MergerMore.deltas_total.
    rewrite (MergerMore.ascending_last_max 0 sk Hasc ltac:(lia) Hlow).
    rewrite (MergerMore.listMax_Permutation sk _ (MergerMore.stamps_sorted tracks)).
    rewrite (MergerMore.stamps_max tracks Hwf).
    unfold MergerMore.latestEnd.
    assert (0 <= fold_right Z.max 0 (map MergerMore.trackEnd tracks))
      by (induction (map MergerMore.trackEnd tracks); simpl; lia).
    lia.
  - apply List.Forall_forall. intros m Hm Hty.
    destruct (MergerMore.mergeTracks_message tracks m Hm) as [H|H].
    + unfold isNote in H. rewrite Hty in H. discriminate.
    + pose proof (MergerMore.deltas_nonneg 0 sk Hasc Hlow) as Hall.
      rewrite List.Forall_forall in Hall. apply Hall. exact H.
Qed.

Lemma merged_duration_witness :
  let tracks :=
    [mkTrack "a" "" "" [Samples.noteOn 60 64; elapsed 480; Samples.noteOff 60 0]
       800 480;
     mkTrack "b" "" "" [elapsed 200; Samples.noteOn 64 90; elapsed 1000] 0 1200]%string in
  MergerFacts.elapsedTotal (Merger.mergeTracks tracks)
  = MergerMore.latestEnd tracks
  /\ Forall (fun m => messageType m = ElapsedTime -> 0 <= value m)
       (Merger.mergeTracks tracks).
Proof.
  apply (merged_duration
           [mkTrack "a" "" "" [Samples.noteOn 60 64; elapsed 480; Samples.noteOff 60 0]
              800 480;
            mkTrack "b" "" "" [elapsed 200; Samples.noteOn 64 90; elapsed 1000] 0 1200]%string).
  reflexivity.
Defined.

(** ** Drag handlers and view geometry *)

Module DragFacts.
Import Handlers MoreHandlers.

Lemma Math_round_IZR (n : Z) : JS.Math_round (IZR n) = n.
Proof.
  unfold JS.Math_round. apply Zfloor_eq. lra.
Qed.

Lemma Math_round_le (x y : R) :
  (x <= y)%R -> JS.Math_round x <= JS.Math_round y.
Proof.
  intros H. unfold JS.Math_round. apply Zfloor_le. lra.
Qed.

Lemma requestedOffset_le (scale d1 d2 : R) :
  (0 <= scale)%R -> (d1 <= d2)%R ->
  requestedOffset scale d1 <= requestedOffset scale d2.
Proof.
  intros Hs Hd. unfold requestedOffset, minimalMoveTime.
  apply Z.mul_le_mono_nonneg_r; [lia|].
  apply Math_round_le.
  apply Rmult_le_compat_r; [lra|].
  apply IZR_le, Math_round_le.
  apply Rmult_le_compat_r; [exact Hs|].
  unfold snapValue, baseMoveTime. lra.
Qed.

Lemma requestedOffset_grid (scale delta : R) :
  (8 | requestedOffset scale delta).
Proof.
  unfold requestedOffset, minimalMoveTime. apply Z.divide_factor_r.
Qed.

Lemma requestedOffset_step (j k : Z) :
  requestedOffset (IZR j / 20) (IZR (25 * k)) = 8 * (j * k).
Proof.
  unfold requestedOffset, snapValue, baseMoveTime, minimalMoveTime.
  replace (IZR (25 * k) / 25 * 160 * (IZR j / 20))%R with (IZR (8 * (j * k)))
    by (rewrite !mult_IZR; field).
  rewrite Math_round_IZR.
  replace (IZR (8 * (j * k)) / 8)%R with (IZR (j * k))
    by (rewrite (mult_IZR 8); field).
  rewrite Math_round_IZR. lia.
Qed.

Lemma timeOfTracksWidth_nonneg (tracksWidth scale : R) :
  (0 <= tracksWidth)%R -> (0 <= scale)%R ->
  (0 <= timeOfTracksWidth tracksWidth scale)%R.
Proof.
  intros HW Hs. unfold timeOfTracksWidth, snapValue, baseMoveTime.
  assert (H0 : 0 <= JS.Math_floor (tracksWidth / 25)).
  { unfold JS.Math_floor. apply Zfloor_lub. simpl. lra. }
  apply IZR_le in H0.
  apply Rmult_le_pos; [|exact Hs].
  apply Rmult_le_pos; [exact H0|lra].
Qed.

End DragFacts.

(** X11.  At a zoom that is a step of the slider, [scale = j * 0.05], a
    drag of [k] steps of the 25-pixel grid asks for a move of exactly
    [8 * j * k] ms: nothing is lost in the two roundings. *)
Theorem drag_on_grid (j k : Z) :
  Handlers.requestedOffset (IZR j / 20) (IZR (25 * k)) = 8 * (j * k).
Proof. apply DragFacts.requestedOffset_step. Qed.

(** X12.  A longer drag to the right never moves a track less: the
    applied change of offset is monotone in the distance dragged. *)
Theorem drag_monotone (s : CommonStore) (track : Track) (scale d1 d2 : R) :
  (0 <= scale)%R -> (d1 <= d2)%R ->
  Handlers.appliedOffset s track scale d1
  <= Handlers.appliedOffset s track scale d2.
Proof.
  intros Hs Hd. unfold Handlers.appliedOffset.
  pose proof (DragFacts.requestedOffset_le scale d1 d2 Hs Hd). lia.
Qed.

Lemma drag_monotone_witness :
  Handlers.appliedOffset (Samples.idleStore [] 0)
    (mkTrack "a" "" "" [] 800 480)%string 1 (-50)
  <= Handlers.appliedOffset (Samples.idleStore [] 0)
       (mkTrack "a" "" "" [] 800 480)%string 1 75.
Proof.
  apply (drag_monotone (Samples.idleStore [] 0) (mkTrack "a" "" "" [] 800 480)%string
           1 (-50) 75); lra.
Defined.

(** X13.  A drag moves a track by a multiple of 8 ms, unless the move is
    cut short at the start of the timeline or at its end: then the track
    lands on time 0 or on the total time. *)
Theorem drag_lands_on_grid (s : CommonStore) (track : Track) (scale delta : R) :
  (8 | Handlers.appliedOffset s track scale delta)
  \/ offsetTime track + Handlers.appliedOffset s track scale delta = 0
  \/ offsetTime track + Handlers.appliedOffset s track scale delta
     = trackTotalTime s.
Proof.
  pose proof (DragFacts.requestedOffset_grid scale delta) as Hg.
  unfold Handlers.appliedOffset.
  set (r := Handlers.requestedOffset scale delta) in *.
  destruct (Z.min_spec (Z.max r (- offsetTime track))
              (trackTotalTime s - offsetTime track)) as [[_ ->]|[_ ->]].
  - destruct (Z.max_spec r (- offsetTime track)) as [[_ ->]|[_ ->]].
    + right. left. lia.
    + left. exact Hg.
  - right. right. lia.
Qed.

(** X14.  Dragging the play-start marker keeps it on the timeline,
    between 0 and the total time, and leaves the zoom and the scroll
    position of the view alone. *)
Theorem play_start_clamped (scale delta : R) (s : CommonStore)
  (v : MoreHandlers.ViewState) :
  0 <= trackTotalTime s ->
  let v' := MoreHandlers.playStartOnStop scale delta s v in
  0 <= MoreHandlers.trackPlayStartTime v' <= trackTotalTime s
  /\ MoreHandlers.trackScale v' = MoreHandlers.trackScale v
  /\ MoreHandlers.trackCurrentTime v' = MoreHandlers.trackCurrentTime v.
Proof.
  intros HT. cbv zeta. unfold MoreHandlers.playStartOnStop. simpl.
  repeat split; lia.
Qed.

Lemma play_start_clamped_witness :
  let v' := MoreHandlers.playStartOnStop 1 (-5000) (Samples.idleStore [] 0)
              (MoreHandlers.mkViewState 1 0 1600) in
  0 <= MoreHandlers.trackPlayStartTime v' <= trackTotalTime (Samples.idleStore [] 0)
  /\ MoreHandlers.trackScale v' = 1%R
  /\ MoreHandlers.trackCurrentTime v' = 0%R.
Proof.
  apply (play_start_clamped 1 (-5000) (Samples.idleStore [] 0)
           (MoreHandlers.mkViewState 1 0 1600)).
  vm_compute. discriminate.
Defined.

(** X15.  The scroll handle of the view is never wider than its
    container and never of negative width, so the right bound of its
    drag, the container width less the handle width, is not negative. *)
Theorem current_time_control_fits (viewControlsContainerWidth scale : R)
  (s : CommonStore) :
  (0 <= viewControlsContainerWidth)%R -> (0 <= scale)%R ->
  (0 <= MoreHandlers.currentTimeControlWidth viewControlsContainerWidth scale s
   <= viewControlsContainerWidth)%R.
Proof.
  intros HW Hs. unfold MoreHandlers.currentTimeControlWidth.
  pose proof (DragFacts.timeOfTracksWidth_nonneg _ _ HW Hs) as Ht.
  set (t := MoreHandlers.timeOfTracksWidth viewControlsContainerWidth scale) in *.
  destruct (Rlt_dec t (IZR (trackTotalTime s))) as [Hlt|_]; [|lra].
  set (T := IZR (trackTotalTime s)) in *.
  assert (HT : (0 < T)%R) by lra.
  assert (Hr : (0 <= t / T <= 1)%R).
  { split.
    - apply Rmult_le_pos; [exact Ht|]. left. apply Rinv_0_lt_compat, HT.
    - apply Rmult_le_reg_r with T; [exact HT|].
      unfold Rdiv. rewrite Rmult_assoc, Rinv_l by lra. lra. }
  split.
  - apply Rmult_le_pos; [apply Hr|exact HW].
  - rewrite <- (Rmult_1_l viewControlsContainerWidth) at 2.
    apply Rmult_le_compat_r; [exact HW|apply Hr].
Qed.

Lemma current_time_control_fits_witness :
  (0 <= MoreHandlers.currentTimeControlWidth 800 1 (Samples.idleStore [] 0) <= 800)%R.
Proof.
  apply (current_time_control_fits 800 1 (Samples.idleStore [] 0)); lra.
Defined.

(** ** A session of the editor *)

Module Session.
Import Handlers MoreHandlers.

(** What the user and the MIDI device can do to the editor. *)
Inductive Action :=
| MidiIn (data : MidiMessage)
| RecordClick (track : Track)
| PlayClick (track : Track)
| DeleteClick (track : Track)
| NewTrackClick (uuid : string)
| ClearAllClick
| SliderChange (value : R)
| TrackDrag (trackId : string) (delta : R)
| PlayStartDrag (delta : R)
| ExportClick.

Section WithComposition.

Variable InstrumentTypeNameMap : list string.
Variable InstrumentTypeTokenMap : list string.
Variable tracksMinimalTotalTime : Z.

Definition withStore (s : CommonStore) (e : Editor) : Editor :=
  mkEditor s (dropRecordingTime e) (selectedTrackId e).

(** One action on the editor and the view; the drags use the zoom of
    the view, line 214. *)
Definition step (a : Action) (st : Editor * ViewState) : Editor * ViewState :=
  let '(e, v) := st in
  match a with
  | MidiIn data =>
      (fst (midiMessageHandler InstrumentTypeNameMap InstrumentTypeTokenMap
              data e), v)
  | RecordClick track => (fst (recordClick tracksMinimalTotalTime track e), v)
  | PlayClick track => (fst (playClick tracksMinimalTotalTime track e), v)
  | DeleteClick track =>
      (withStore (deleteClick tracksMinimalTotalTime track (commonStore e)) e, v)
  | NewTrackClick uuid => (withStore (newTrackClick uuid (commonStore e)) e, v)
  | ClearAllClick =>
      let '(s, v) := clearAllClick tracksMinimalTotalTime (commonStore e) v in
      (withStore s e, v)
  | SliderChange value =>
      (e, mkViewState value (trackCurrentTime v) (trackPlayStartTime v))
  | TrackDrag trackId delta =>
      match onStop tracksMinimalTotalTime trackId (scaleOf v) delta
              (commonStore e) with
      | Some s => (withStore s e, v)
      | None => (e, v)
      end
  | PlayStartDrag delta =>
      (e, playStartOnStop (scaleOf v) delta (commonStore e) v)
  | ExportClick =>
      (fst (exportClick InstrumentTypeTokenMap tracksMinimalTotalTime e), v)
  end.

Definition run (actions : list Action) (st : Editor * ViewState)
  : Editor * ViewState :=
  fold_left (fun st a => step a st) actions st.

End WithComposition.

(** Not recording and playing at once. *)
Definition exclusive (s : CommonStore) : Prop :=
  recordingTrackId s = ""%string \/ playingTrackId s = ""%string.

Lemma refresh_ids (minT : Z) (s : CommonStore) :
  recordingTrackId (refreshTracksTotalTime minT s) = recordingTrackId s
  /\ playingTrackId (refreshTracksTotalTime minT s) = playingTrackId s.
Proof. split; reflexivity. Qed.

Lemma flush_ids (minT : Z) (s : CommonStore) :
  recordingTrackId (flushMidiRecordingContent minT s) = recordingTrackId s
  /\ playingTrackId (flushMidiRecordingContent minT s) = playingTrackId s.
Proof.
  unfold flushMidiRecordingContent.
  destruct (0 <=? trackIndexOf (recordingTrackId s) (tracks s));
    [|split; reflexivity].
  destruct (tracks s !! Z.to_nat (trackIndexOf (recordingTrackId s) (tracks s)));
    split; reflexivity.
Qed.

Lemma step_exclusive (nameMap tokenMap : list string) (minT : Z) (a : Action)
  (st : Editor * ViewState) :
  exclusive (commonStore (fst st)) ->
  exclusive (commonStore (fst (step nameMap tokenMap minT a st))).
Proof.
  destruct st as [e v]. unfold exclusive. simpl fst.
  destruct a; simpl step; intros H.
  - unfold midiMessageHandler.
    destruct (messageType data); simpl;
      try (destruct (String.eqb _ _); [exact H|];
           destruct (dropRecordingTime e); simpl; exact H).
    exact H.
  - right. unfold recordClick. simpl.
    destruct (String.eqb _ _); [reflexivity|].
    destruct (_ =? _); reflexivity.
  - left. unfold playClick. simpl.
    destruct (String.eqb _ _); reflexivity.
  - exact H.
  - exact H.
  - exact H.
  - exact H.
  - destruct (onStop minT trackId (scaleOf v) delta (commonStore e)) as [s|] eqn:E;
      [|exact H].
    unfold onStop in E.
    destruct (_ <? 0); [discriminate|].
    destruct (tracks (commonStore e) !! _); [|discriminate].
    injection E as <-. exact H.
  - exact H.
  - left. reflexivity.
Qed.

End Session.

(** X16.  The editor never records and plays at once: if at most one of
    [recordingTrackId] and [playingTrackId] is set, this is still so
    after any sequence of MIDI messages, clicks and drags. *)
Theorem never_recording_and_playing (nameMap tokenMap : list string) (minT : Z)
  (actions : list Session.Action)
  (st : Handlers.Editor * MoreHandlers.ViewState) :
  Session.exclusive (Handlers.commonStore (fst st)) ->
  Session.exclusive
    (Handlers.commonStore
       (fst (Session.run nameMap tokenMap minT actions st))).
Proof.
  revert st. unfold Session.run.
  induction actions as [|a actions IH]; intros st H; simpl; [exact H|].
  apply IH, Session.step_exclusive, H.
Qed.

Lemma never_recording_and_playing_witness :
  Session.exclusive
    (Handlers.commonStore
       (fst (Session.run Samples.nameMap Samples.tokenMap 5000
               [Session.NewTrackClick "a"; Session.NewTrackClick "b";
                Session.RecordClick (mkTrack "a" "" "" [] 0 0);
                Session.MidiIn (Samples.noteOn 60 64);
                Session.PlayClick (mkTrack "b" "" "" [] 0 0);
                Session.TrackDrag "b" 50;
                Session.RecordClick (mkTrack "b" "" "" [] 0 0);
                Session.ExportClick]%string
               (Handlers.mkEditor (Samples.idleStore [] 0) false ""%string,
                MoreHandlers.mkViewState 1 0 0)))).
Proof.
  apply (never_recording_and_playing Samples.nameMap Samples.tokenMap 5000).
  left. reflexivity.
Defined.

(** ** Track list and export *)

Module TrackListFacts.
Import Handlers MoreHandlers.

Lemma findIndex_none {A} (p : A -> bool) (l : list A) :
  (forall x, In x l -> p x = false) -> JS.findIndex p l = -1.
Proof.
  induction l as [|x l IH]; intros H; simpl; [reflexivity|].
  rewrite (H x) by (left; reflexivity).
  rewrite IH by (intros y Hy; apply H; right; exact Hy). reflexivity.
Qed.

Lemma trimEnd_cons (c : ascii) (s : string) :
  JS.isWhiteSpace c = false ->
  JS.trimEnd (String c s) = String c (JS.trimEnd s).
Proof.
  intros Hc. simpl. rewrite Hc. destruct (JS.trimEnd s); reflexivity.
Qed.

End TrackListFacts.

(** X17.  The delete button removes every track that has the id of the
    row, keeps the others, and leaves the recording alone: when the
    track that is being recorded is deleted, [recordingTrackId] still
    holds its id, the id of no track, and the buffer is kept. *)
Theorem delete_removes_track (minT : Z) (track : Track) (s : CommonStore) :
  let s' := MoreHandlers.deleteClick minT track s in
  Handlers.trackIndexOf (id track) (tracks s') = -1
  /\ (forall t, In t (tracks s') <-> In t (tracks s) /\ id t <> id track)
  /\ recordingTrackId s' = recordingTrackId s
  /\ recordingRawContent s' = recordingRawContent s
  /\ recordingContent s' = recordingContent s.
Proof.
  cbv zeta. unfold MoreHandlers.deleteClick. simpl.
  assert (Hin : forall t,
             In t (List.filter (fun t => negb (String.eqb (id t) (id track)))
                     (tracks s))
             <-> In t (tracks s) /\ id t <> id track).
  { intros t. rewrite filter_In.
    destruct (String.eqb_spec (id t) (id track)); simpl; intuition congruence. }
  split; [|split; [exact Hin|repeat split]].
  unfold Handlers.trackIndexOf. apply TrackListFacts.findIndex_none.
  intros t Ht. apply Hin in Ht. destruct Ht as [_ Hne].
  destruct (String.eqb_spec (id t) (id track)); [contradiction|reflexivity].
Qed.

(** X18.  Every exported prompt starts with [<pad>], whatever the tracks
    and the token table hold; without tracks the prompt is [<pad>]
    alone. *)
Theorem export_starts_with_pad (tokenMap : list string) (s : CommonStore) :
  Merger.mergeResult tokenMap s
  = ("<pad>"
     ++ JS.trimEnd
          (" " ++ JS.join
                    (map (Encoder.midiMessageToToken tokenMap s)
                       (Merger.mergeTracks (tracks s)))))%string
  /\ (tracks s = [] -> Merger.mergeResult tokenMap s = "<pad>"%string).
Proof.
  assert (H : forall body : string,
             JS.trim ("<pad> " ++ body)%string
             = ("<pad>" ++ JS.trimEnd (" " ++ body))%string).
  { intros body. unfold JS.trim.
    change (JS.trimStart ("<pad> " ++ body)%string)
      with ("<pad>" ++ (" " ++ body))%string.
    change ("<pad>" ++ (" " ++ body))%string
      with (String "<" (String "p" (String "a" (String "d"
              (String ">" (" " ++ body)))))%string).
    rewrite !TrackListFacts.trimEnd_cons by reflexivity. reflexivity. }
  split.
  - unfold Merger.mergeResult. apply H.
  - intros Hnil. unfold Merger.mergeResult. rewrite Hnil. reflexivity.
Qed.

Module NewTrackFacts.
Import Merger MergerFacts JSFacts MergerMore.

#[local] Arguments String.append !_ _ / : simpl nomatch.

(** The track that [New Track] adds. *)
Definition emptyTrack (uuid : string) : Track :=
  mkTrack uuid ""%string ""%string [] 0 0.

Definition byOffset (a b : Track) : Z := offsetTime a - offsetTime b.

Lemma sort_insert_pass {A} (cmp : A -> A -> Z) (x : A) (l1 l : list A) :
  Forall (fun y => 0 < cmp x y) l1 ->
  JS.sort_insert cmp x (l1 ++ l) = l1 ++ JS.sort_insert cmp x l.
Proof.
  induction 1 as [|y l1 Hy _ IH]; simpl; [reflexivity|].
  destruct (Z.leb_spec (cmp x y) 0); [lia|]. rewrite IH. reflexivity.
Qed.

Lemma sort_insert_zero (x : Track) (l : list Track) :
  offsetTime x = 0 -> (forall y, In y l -> 0 <= offsetTime y) ->
  JS.sort_insert byOffset x l = x :: l.
Proof.
  intros Hx Hl. destruct l as [|y l]; simpl; [reflexivity|].
  unfold byOffset. specialize (Hl y (or_introl eq_refl)).
  destruct (Z.leb_spec (offsetTime x - offsetTime y) 0); [reflexivity|lia].
Qed.

(** Where the stable sort puts the new track: behind tracks of offset 0
    only. *)
Lemma sortTracks_new (uuid : string) (tracks : list Track) :
  (forall t, In t tracks -> 0 <= offsetTime t) ->
  exists l1 l2,
    sortTracks tracks = l1 ++ l2
    /\ sortTracks (tracks ++ [emptyTrack uuid]) = l1 ++ emptyTrack uuid :: l2
    /\ Forall (fun t => offsetTime t = 0) l1.
Proof.
  unfold sortTracks. fold byOffset.
  induction tracks as [|x tracks IH]; intros Hpos.
  - exists [], []. repeat split. constructor.
  - destruct IH as [l1 [l2 [H1 [H2 Hz]]]];
      [intros t Ht; apply Hpos; right; exact Ht|].
    assert (Hx : 0 <= offsetTime x) by (apply Hpos; left; reflexivity).
    assert (Hl : forall y, In y (l1 ++ l2) -> 0 <= offsetTime y).
    { intros y Hy. rewrite <- H1 in Hy. apply sort_In in Hy.
      apply Hpos. right. exact Hy. }
    simpl. rewrite H1, H2.
    destruct (Z.eq_dec (offsetTime x) 0) as [E|E].
    + exists (x :: l1), l2. split; [|split].
      * apply sort_insert_zero; assumption.
      * apply sort_insert_zero; [exact E|].
        intros y Hy. apply in_app_or in Hy.
        destruct Hy as [Hy|[<-|Hy]].
        -- apply Hl, in_or_app. left. exact Hy.
        -- simpl. lia.
        -- apply Hl, in_or_app. right. exact Hy.
      * constructor; assumption.
    + assert (Hpass : Forall (fun y => 0 < byOffset x y) l1).
      { rewrite List.Forall_forall in Hz. apply List.Forall_forall.
        intros y Hy. unfold byOffset. rewrite (Hz y Hy). lia. }
      exists l1, (JS.sort_insert byOffset x l2). split; [|split].
      * apply sort_insert_pass, Hpass.
      * rewrite (sort_insert_pass byOffset x l1 _ Hpass). simpl.
        unfold byOffset at 1. simpl.
        destruct (Z.leb_spec (offsetTime x - 0) 0); [lia|reflexivity].
      * exact Hz.
Qed.

Lemma timedNotes_new (uuid : string) (l1 l2 : list Track) :
  timedNotes (l1 ++ emptyTrack uuid :: l2) = timedNotes (l1 ++ l2).
Proof.
  unfold timedNotes. rewrite !flat_map_app. reflexivity.
Qed.

Lemma stamps_new (uuid : string) (l1 l2 : list Track) :
  Permutation (flat_map trackStamps (l1 ++ emptyTrack uuid :: l2))
    (0 :: flat_map trackStamps (l1 ++ l2)).
Proof.
  rewrite !flat_map_app. simpl. symmetry. apply Permutation_middle.
Qed.

(** There is one ascending arrangement of a list of numbers. *)
Lemma ascending_unique (a b : list Z) :
  ascending a -> ascending b -> Permutation a b -> a = b.
Proof.
  revert b. induction a as [|x a IH]; intros b Ha Hb Hp.
  - apply Permutation_nil in Hp. symmetry. exact Hp.
  - destruct b as [|y b].
    + symmetry in Hp. apply Permutation_nil in Hp. discriminate.
    + destruct Ha as [Hx Ha]. destruct Hb as [Hy Hb].
      assert (Hxy : x <= y).
      { assert (Hin : In y (x :: a))
          by (apply (Permutation_in y (Permutation_sym Hp)); left; reflexivity).
        destruct Hin as [->|Hin]; [lia|apply Hx, Hin]. }
      assert (Hyx : y <= x).
      { assert (Hin : In x (y :: b))
          by (apply (Permutation_in x Hp); left; reflexivity).
        destruct Hin as [->|Hin]; [lia|apply Hy, Hin]. }
      assert (x = y) by lia. subst y.
      apply Permutation_cons_inv in Hp.
      rewrite (IH b Ha Hb Hp). reflexivity.
Qed.

Lemma sortedStamps_new (uuid : string) (l1 l2 : list Track) :
  (forall x, In x (flat_map trackStamps (l1 ++ l2)) -> 0 <= x) ->
  sortTimestamps (collectTimestamps (l1 ++ emptyTrack uuid :: l2) [])
  = 0 :: sortTimestamps (collectTimestamps (l1 ++ l2) []).
Proof.
  intros Hpos. apply ascending_unique.
  - apply sort_ascending.
  - split; [|apply sort_ascending].
    intros y Hy. apply sort_In in Hy. rewrite collectTimestamps_app in Hy.
    apply Hpos. exact Hy.
  - unfold sortTimestamps. rewrite !sort_Permutation, !collectTimestamps_app.
    simpl. apply stamps_new.
Qed.

Section Rendering.

Variable tok : MidiMessage -> string.
Hypothesis tok_zero : tok (elapsed 0) = ""%string.

Definition render (slots : list (Z * MidiMessage)) : string :=
  JS.join (map tok (map snd slots)).

Lemma render_app (a b : list (Z * MidiMessage)) :
  render (a ++ b) = (render a ++ render b)%string.
Proof.
  unfold render. rewrite !map_app. apply EncoderFacts.join_app.
Qed.

Lemma render_zero (t : Z) (slots : list (Z * MidiMessage)) :
  render ((t, elapsed 0) :: slots) = render slots.
Proof.
  unfold render. simpl. rewrite tok_zero. reflexivity.
Qed.

(** A further slot at time 0 in front of the skeleton adds no token. *)
Lemma layout_zero_front (sk : list Z) (notes : list (Z * MidiMessage)) :
  ascending sk -> (forall x, In x sk -> 0 <= x) ->
  (forall n, In n notes -> In (fst n) sk) ->
  render (layout None (0 :: sk) notes) = render (layout None sk notes).
Proof.
  intros Hasc Hpos Hnotes.
  destruct sk as [|t sk].
  - destruct notes as [|n notes]; [|destruct (Hnotes n (or_introl eq_refl))].
    change (layout None [0] []) with [(0, elapsed 0)].
    apply render_zero.
  - destruct (Z.eq_dec t 0) as [->|Hne].
    + change (layout None (0 :: 0 :: sk) notes)
        with (((0, elapsed 0) :: noteBlock None 0 notes)
              ++ (0, elapsed 0) :: layout (Some 0) sk notes).
      change (layout None (0 :: sk) notes)
        with (((0, elapsed 0) :: noteBlock None 0 notes)
              ++ layout (Some 0) sk notes).
      rewrite !render_app, !render_zero. reflexivity.
    + assert (Ht : 0 < t) by (specialize (Hpos t (or_introl eq_refl)); lia).
      assert (Hnone : notesAt 0 notes = []).
      { unfold notesAt.
        replace (List.filter (fun n => fst n =? 0) notes) with (@nil (Z * MidiMessage));
          [reflexivity|].
        symmetry. clear - Hasc Hnotes Ht.
        induction notes as [|n notes IH]; [reflexivity|].
        simpl.
        assert (Hn : t <= fst n).
        { destruct (Hnotes n (or_introl eq_refl)) as [<-|Hin]; [lia|].
          apply (proj1 Hasc). exact Hin. }
        destruct (Z.eqb_spec (fst n) 0); [lia|].
        apply IH. intros n' Hn'. apply Hnotes. right. exact Hn'. }
      assert (Hfirst : noteBlock (Some 0) t notes = noteBlock None t notes).
      { unfold noteBlock, isFirst.
        destruct (Z.eqb_spec 0 t); [lia|reflexivity]. }
      change (layout None (0 :: t :: sk) notes)
        with ((0, elapsed 0)
              :: noteBlock None 0 notes
                 ++ (t, elapsed (t - 0))
                    :: noteBlock (Some 0) t notes ++ layout (Some t) sk notes).
      change (layout None (t :: sk) notes)
        with ((t, elapsed (t - 0))
              :: noteBlock None t notes ++ layout (Some t) sk notes).
      rewrite Hfirst. unfold noteBlock at 1. rewrite Hnone. simpl rev.
      simpl isFirst. cbn [map app]. apply render_zero.
Qed.

End Rendering.

Lemma token_zero (tokenMap : list string) (s : CommonStore) :
  Encoder.midiMessageToToken tokenMap s (elapsed 0) = ""%string.
Proof.
  rewrite Encoder.midiMessageToToken_int_eq. reflexivity.
Qed.

End NewTrackFacts.

(** X19.  The button [New Track] does not change what the export gives:
    when no offset and no elapsed time of a track is negative, the prompt
    of the tracks with the new empty track is the prompt of the tracks
    without it. *)
Theorem new_track_keeps_prompt (tokenMap : list string) (uuid : string)
  (s : CommonStore) :
  MergerFacts.wellFormed (tracks s) = true ->
  Merger.mergeResult tokenMap (MoreHandlers.newTrackClick uuid s)
  = Merger.mergeResult tokenMap s.
Proof.
  intros Hwf. unfold Merger.mergeResult, MoreHandlers.newTrackClick.
  simpl tracks.
  change (Encoder.midiMessageToToken tokenMap
            (setTracks (tracks s ++ [mkTrack uuid "" "" [] 0 0]%string) s))
    with (Encoder.midiMessageToToken tokenMap s).
  fold (NewTrackFacts.emptyTrack uuid).
  assert (Hwf' : MergerFacts.wellFormed (tracks s ++ [NewTrackFacts.emptyTrack uuid])
                 = true).
  { unfold MergerFacts.wellFormed in *. rewrite forallb_app, Hwf. reflexivity. }
  rewrite (MergerFacts.mergeTracks_layout _ Hwf').
  rewrite (MergerFacts.mergeTracks_layout _ Hwf).
  assert (Hpos : forall t, In t (tracks s) -> 0 <= offsetTime t).
  { intros t Ht. unfold MergerFacts.wellFormed in Hwf.
    rewrite forallb_forall in Hwf.
    apply (MergerFacts.wellFormedTrack_spec t (Hwf t Ht)). }
  destruct (NewTrackFacts.sortTracks_new uuid (tracks s) Hpos)
    as [l1 [l2 [H1 [H2 _]]]].
  apply MergerFacts.wellFormed_sortTracks in Hwf.
  rewrite H1 in *. rewrite H2.
  rewrite NewTrackFacts.timedNotes_new.
  rewrite NewTrackFacts.sortedStamps_new
    by (intros x Hx; apply (MergerFacts.stamps_nonneg (l1 ++ l2) x Hwf Hx)).
  do 2 f_equal.
  apply (NewTrackFacts.layout_zero_front
           (Encoder.midiMessageToToken tokenMap s)
           (NewTrackFacts.token_zero tokenMap s)).
  - apply JSFacts.sort_ascending.
  - intros x Hx. apply JSFacts.sort_In in Hx.
    rewrite MergerFacts.collectTimestamps_app in Hx.
    apply (MergerFacts.stamps_nonneg (l1 ++ l2) x Hwf Hx).
  - intros n Hn. apply JSFacts.sort_In.
    rewrite MergerFacts.collectTimestamps_app.
    apply MergerFacts.timedNotes_stamp. exact Hn.
Qed.

Lemma new_track_keeps_prompt_witness :
  let s := Samples.idleStore
             [mkTrack "a" "" "" [Samples.noteOn 60 64; elapsed 480;
                                  Samples.noteOff 60 0] 800 480;
              mkTrack "b" "" "" [elapsed 200; Samples.noteOn 64 90] 0 200]%string
             1 in
  Merger.mergeResult Samples.tokenMap (MoreHandlers.newTrackClick "c"%string s)
  = Merger.mergeResult Samples.tokenMap s.
Proof.
  apply (new_track_keeps_prompt Samples.tokenMap "c"%string
           (Samples.idleStore
              [mkTrack "a" "" "" [Samples.noteOn 60 64; elapsed 480;
                                   Samples.noteOff 60 0] 800 480;
               mkTrack "b" "" "" [elapsed 200; Samples.noteOn 64 90] 0 200]%string
              1)).
  reflexivity.
Defined.

(** ** Start and stop of a recording *)

Module RecordFacts.
Import Handlers MoreHandlers.

(** What the flush of the recording buffers leaves alone. *)
Lemma flush_frame (minT : Z) (s : CommonStore) :
  recordingTrackId (flushMidiRecordingContent minT s) = recordingTrackId s
  /\ activeMidiDeviceIndex (flushMidiRecordingContent minT s)
     = activeMidiDeviceIndex s
  /\ instrumentType (flushMidiRecordingContent minT s) = instrumentType s.
Proof.
  unfold flushMidiRecordingContent.
  destruct (0 <=? trackIndexOf (recordingTrackId s) (tracks s));
    [|repeat split; reflexivity].
  destruct (tracks s !! Z.to_nat (trackIndexOf (recordingTrackId s) (tracks s)));
    repeat split; reflexivity.
Qed.

Lemma idle_step (nameMap tokenMap : list string) (data : MidiMessage)
  (e : Editor) :
  recordingTrackId (commonStore e) = ""%string ->
  messageType data <> ControlChange ->
  midiMessageHandler nameMap tokenMap data e = (e, []).
Proof.
  intros Hrec Hty. unfold midiMessageHandler. rewrite Hrec.
  destruct (messageType data); try contradiction; reflexivity.
Qed.

End RecordFacts.

(** X20.  While no track is recorded, messages that are not control
    changes are neither stored nor played: the editor is as before and
    nothing is sent to the playback sink. *)
Theorem idle_ignores_messages (nameMap tokenMap : list string)
  (msgs : list MidiMessage) (e : Handlers.Editor) :
  recordingTrackId (Handlers.commonStore e) = ""%string ->
  Forall (fun m => messageType m <> ControlChange) msgs ->
  MoreHandlers.handleMessages nameMap tokenMap msgs e = (e, []).
Proof.
  intros Hrec Hall. induction Hall as [|data rest Hty _ IH]; [reflexivity|].
  rewrite RecordingFacts.handleMessages_cons.
  rewrite (RecordFacts.idle_step nameMap tokenMap data e Hrec Hty).
  cbn [fst snd]. rewrite IH. reflexivity.
Qed.

Lemma idle_ignores_messages_witness :
  MoreHandlers.handleMessages Samples.nameMap Samples.tokenMap
    [Samples.noteOn 60 64; elapsed 480; Samples.noteOff 60 0]
    (Handlers.mkEditor
       (Samples.idleStore [mkTrack "a" "" "" [] 0 0]%string 1) true "a"%string)
  = (Handlers.mkEditor
       (Samples.idleStore [mkTrack "a" "" "" [] 0 0]%string 1) true "a"%string,
     []).
Proof.
  apply (idle_ignores_messages Samples.nameMap Samples.tokenMap).
  - reflexivity.
  - repeat constructor; discriminate.
Defined.

(** X21.  A click on the record button of a track that is not being
    recorded, with a device selected, starts a recording that continues
    the track: the track is selected, the buffer starts from the raw
    content of the track, and the messages that follow are appended to
    it under the selected instrument, but for the first elapsed time,
    which is dropped. *)
Theorem recording_continues_track (nameMap tokenMap : list string) (minT : Z)
  (track : Track) (msgs : list MidiMessage) (e : Handlers.Editor) :
  activeMidiDeviceIndex (Handlers.commonStore e) <> -1 ->
  recordingTrackId (Handlers.commonStore e) <> id track ->
  id track <> ""%string ->
  Forall (fun m => messageType m <> ControlChange) msgs ->
  let started := Handlers.recordClick minT track e in
  let r := MoreHandlers.handleMessages nameMap tokenMap msgs (fst started) in
  let stamped :=
    map (withInstrument (instrumentType (Handlers.commonStore e)))
      (RecordingFacts.kept true msgs) in
  snd started = []
  /\ recordingTrackId (Handlers.commonStore (fst r)) = id track
  /\ Handlers.selectedTrackId (fst r) = id track
  /\ recordingRawContent (Handlers.commonStore (fst r))
     = rawContent track ++ stamped
  /\ snd r = map Handlers.PlayNote stamped.
Proof.
  intros Hdev Hrec Hid Hall. cbv zeta.
  destruct (RecordFacts.flush_frame minT (Handlers.commonStore e))
    as [Fid [Fdev Fins]].
  unfold Handlers.recordClick.
  set (s := Handlers.flushMidiRecordingContent minT (Handlers.commonStore e)) in *.
  cbn [recordingTrackId setPlayingTrackId activeMidiDeviceIndex].
  rewrite Fid, Fdev.
  destruct (String.eqb_spec (recordingTrackId (Handlers.commonStore e)) (id track));
    [contradiction|].
  destruct (Z.eqb_spec (activeMidiDeviceIndex (Handlers.commonStore e)) (-1));
    [contradiction|].
  cbn [fst snd].
  match goal with
  | |- context [MoreHandlers.handleMessages _ _ _ ?x] => set (e1 := x)
  end.
  assert (Hrec1 : recordingTrackId (Handlers.commonStore e1) <> ""%string)
    by exact Hid.
  destruct (recording_run nameMap tokenMap msgs e1 Hrec1 Hall)
    as [Hraw [Hfx [_ [Hrid [_ Hsel]]]]].
  rewrite Hraw, Hfx, Hrid, Hsel.
  change (instrumentType (Handlers.commonStore e1)) with (instrumentType s).
  rewrite Fins. repeat split; reflexivity.
Qed.

Lemma recording_continues_track_witness :
  let track := mkTrack "a" "" "p:3c:7 " [Samples.noteOn 60 64] 0 0 in
  let e := Handlers.mkEditor (Samples.idleStore [track] 1) false ""%string in
  let msgs := [elapsed 300; Samples.noteOff 60 0; elapsed 500] in
  let started := Handlers.recordClick 5000 track e in
  let r := MoreHandlers.handleMessages Samples.nameMap Samples.tokenMap msgs
             (fst started) in
  let stamped :=
    map (withInstrument (instrumentType (Handlers.commonStore e)))
      (RecordingFacts.kept true msgs) in
  snd started = []
  /\ recordingTrackId (Handlers.commonStore (fst r)) = id track
  /\ Handlers.selectedTrackId (fst r) = id track
  /\ recordingRawContent (Handlers.commonStore (fst r))
     = rawContent track ++ stamped
  /\ snd r = map Handlers.PlayNote stamped.
Proof.
  apply (recording_continues_track Samples.nameMap Samples.tokenMap 5000
           (mkTrack "a" "" "p:3c:7 " [Samples.noteOn 60 64] 0 0)
           [elapsed 300; Samples.noteOff 60 0; elapsed 500]
           (Handlers.mkEditor
              (Samples.idleStore
                 [mkTrack "a" "" "p:3c:7 " [Samples.noteOn 60 64] 0 0] 1)
              false ""%string)).
  - simpl. discriminate.
  - simpl. discriminate.
  - simpl. discriminate.
  - repeat constructor; discriminate.
Defined.

Module OrderFacts.
Import Merger MergerFacts JSFacts.

(** Tracks in ascending order of offset, no two at the same offset, are
    arranged in one way only. *)
Lemma sorted_unique (a b : list Track) :
  ascending (map offsetTime a) -> ascending (map offsetTime b) ->
  List.NoDup (map offsetTime a) -> Permutation a b -> a = b.
Proof.
  revert b. induction a as [|x a IH]; intros b Ha Hb Hnd Hp.
  - apply Permutation_nil in Hp. symmetry. exact Hp.
  - destruct b as [|y b].
    + symmetry in Hp. apply Permutation_nil in Hp. discriminate.
    + simpl in Ha, Hb, Hnd. destruct Ha as [Hx Ha]. destruct Hb as [Hy Hb].
      inversion Hnd as [|? ? Hfresh Hnd']; subst.
      assert (Hyin : In y (x :: a))
        by (apply (Permutation_in y (Permutation_sym Hp)); left; reflexivity).
      assert (Hxin : In x (y :: b))
        by (apply (Permutation_in x Hp); left; reflexivity).
      assert (Hxy : offsetTime x <= offsetTime y).
      { destruct Hyin as [->|Hin]; [lia|]. apply Hx, in_map, Hin. }
      assert (Hyx : offsetTime y <= offsetTime x).
      { destruct Hxin as [->|Hin]; [lia|]. apply Hy, in_map, Hin. }
      assert (Heq : x = y).
      { destruct Hyin as [E|Hin]; [exact E|].
        exfalso. apply Hfresh.
        replace (offsetTime x) with (offsetTime y) by lia.
        apply in_map, Hin. }
      subst y. apply Permutation_cons_inv in Hp.
      rewrite (IH b Ha Hb Hnd' Hp). reflexivity.
Qed.

Lemma sortTracks_ascending (tracks : list Track) :
  ascending (map offsetTime (sortTracks tracks)).
Proof.
  unfold sortTracks.
  rewrite (sort_map offsetTime (fun a b => offsetTime a - offsetTime b)
             (fun a b => a - b)) by reflexivity.
  apply sort_ascending.
Qed.

Lemma sortTracks_order (tracks1 tracks2 : list Track) :
  Permutation tracks1 tracks2 -> List.NoDup (map offsetTime tracks1) ->
  sortTracks tracks1 = sortTracks tracks2.
Proof.
  intros Hp Hnd. apply sorted_unique.
  - apply sortTracks_ascending.
  - apply sortTracks_ascending.
  - apply (Permutation_NoDup (l := map offsetTime tracks1)); [|exact Hnd].
    apply Permutation_map. symmetry. apply MergerMore.sort_Permutation.
  - unfold sortTracks. rewrite !MergerMore.sort_Permutation. exact Hp.
Qed.

End OrderFacts.

(** X23.  When no two tracks start at the same time, the order of the
    tracks in the list does not matter to the export: the tracks in any
    other order give the same prompt. *)
Theorem export_ignores_track_order (tokenMap : list string) (s : CommonStore)
  (reordered : list Track) :
  Permutation (tracks s) reordered ->
  List.NoDup (map offsetTime (tracks s)) ->
  Merger.mergeResult tokenMap (setTracks reordered s)
  = Merger.mergeResult tokenMap s.
Proof.
  intros Hp Hnd. unfold Merger.mergeResult, Merger.mergeTracks. simpl tracks.
  rewrite (OrderFacts.sortTracks_order _ _ Hp Hnd). reflexivity.
Qed.

Lemma export_ignores_track_order_witness :
  let a := mkTrack "a" "" "" [Samples.noteOn 60 64; elapsed 480;
                               Samples.noteOff 60 0] 800 480 in
  let b := mkTrack "b" "" "" [elapsed 200; Samples.noteOn 64 90] 0 200 in
  Merger.mergeResult Samples.tokenMap
    (setTracks [b; a] (Samples.idleStore [a; b] 1))
  = Merger.mergeResult Samples.tokenMap (Samples.idleStore [a; b] 1).
Proof.
  apply (export_ignores_track_order Samples.tokenMap
           (Samples.idleStore
              [mkTrack "a" "" "" [Samples.noteOn 60 64; elapsed 480;
                                   Samples.noteOff 60 0] 800 480;
               mkTrack "b" "" "" [elapsed 200; Samples.noteOn 64 90] 0 200]%string
              1)
           [mkTrack "b" "" "" [elapsed 200; Samples.noteOn 64 90] 0 200;
            mkTrack "a" "" "" [Samples.noteOn 60 64; elapsed 480;
                                Samples.noteOff 60 0] 800 480]%string).
  - apply perm_swap.
  - simpl. repeat constructor; simpl; intuition discriminate.
Defined.

